(** * Shipper: the traffic pod-label shifter, the release condition algebra
      and the target-object resolver

    A shallow embedding of

    - [pkg/controller/traffic/pod_label_shifter.go]
      ([newPodLabelShifter], [Clusters], [buildClusterReleaseWeights],
      [calculateReleasePodTarget], [getsTraffic],
      [patchPodTrafficStatusLabel], [round], [SyncCluster]),
    - the release condition utilities ([NewReleaseCondition],
      [SetReleaseCondition], [GetReleaseCondition], [RemoveReleaseCondition],
      [filterOutCondition], the diff and its text, [ReleaseScheduled],
      [ReleaseComplete], [ReleaseProgressing]),
    - the release controller helpers [TargetObjectsForRelease] and
      [FilterSelectedClusters],

    with the properties the specification states about them.

    Conventions.  Go's [int] and [uint] are the 64-bit types of the
    platforms the controller is built for; [uint32] wraps modulo [2^32].
    [float64] is IEEE 754 binary64, taken from the Standard Library's
    executable specification [SpecFloat] (precision 53, [emax] 1024), so
    every rounding of the source is performed by the model as well.  Go
    maps are [gmap]s; the order in which [range] visits a map is not
    fixed by the language and is a parameter of the model. *)

From Stdlib Require Import ZArith Lia List Bool Ascii String.
From Stdlib Require Import Sorting.Permutation Sorting.Sorted.
From Stdlib Require Import Floats.SpecFloat.
From stdpp Require Import gmap strings list fin_maps sorting.

Local Open Scope Z_scope.

(** ** Machine integers *)

Module GoInt.

(** [uint32(x)] and the result of every [uint32] operation. *)
Definition wrap32 (z : Z) : Z := z mod 2 ^ 32.

(** [uint(x)] for a 64-bit [uint]. *)
Definition wrap64 (z : Z) : Z := z mod 2 ^ 64.

(** [int(x)] for a 64-bit [int]: two's complement. *)
Definition to_int64 (z : Z) : Z := (z + 2 ^ 63) mod 2 ^ 64 - 2 ^ 63.

Definition min_int64 : Z := - 2 ^ 63.

End GoInt.

(** ** IEEE 754 binary64 *)

Module F64.

Definition float64 := spec_float.

Definition prec : Z := 53.
Definition emax : Z := 1024.

(** [float64(n)] for an integer [n]: rounding to nearest, ties to even. *)
Definition of_int (z : Z) : float64 := binary_normalize prec emax z 0 false.

Definition add (x y : float64) : float64 := SFadd prec emax x y.
Definition sub (x y : float64) : float64 := SFsub prec emax x y.
Definition mul (x y : float64) : float64 := SFmul prec emax x y.
Definition div (x y : float64) : float64 := SFdiv prec emax x y.
Definition ltb (x y : float64) : bool := SFltb x y.
Definition eqb (x y : float64) : bool := SFeqb x y.

Definition zero : float64 := S754_zero false.
(** The literal [0.5] is [2^52 * 2^-53]. *)
Definition half : float64 := S754_finite false 4503599627370496 (-53).
Definition hundred : float64 := Eval vm_compute in of_int 100.

Definition is_nan (x : float64) : bool :=
  match x with S754_nan => true | _ => false end.

Definition is_neg_inf (x : float64) : bool :=
  match x with S754_infinity true => true | _ => false end.

Definition signbit (x : float64) : bool :=
  match x with
  | S754_zero s | S754_infinity s | S754_finite s _ _ => s
  | S754_nan => false
  end.

(** [math.Min]: [-Inf] wins, then [NaN]; of two zeros the negative one;
    otherwise [if x < y { return x }; return y]. *)
Definition Min (x y : float64) : float64 :=
  if is_neg_inf x || is_neg_inf y then S754_infinity true
  else if is_nan x || is_nan y then S754_nan
  else if eqb x zero && eqb x y then (if signbit x then x else y)
  else if ltb x y then x else y.

(** The integer part of a float, towards zero; [None] for [NaN] and the
    infinities. *)
Definition trunc (f : float64) : option Z :=
  match f with
  | S754_zero _ => Some 0
  | S754_finite s m e =>
      let a := match e with
               | Z0 => Zpos m
               | Zpos _ => Zpos m * 2 ^ e
               | Zneg _ => Zpos m / 2 ^ (- e)
               end in
      Some (if s then - a else a)
  | S754_infinity _ | S754_nan => None
  end.

(** [int(f)]: the fraction is discarded.  When the value does not fit the
    result is implementation-specific in Go; amd64's conversion yields the
    "integer indefinite" value [-2^63], which is what the model returns. *)
Definition to_int (f : float64) : Z :=
  match trunc f with
  | Some z => if (- 2 ^ 63 <=? z) && (z <? 2 ^ 63) then z else GoInt.min_int64
  | None => GoInt.min_int64
  end.

(** [uint(f)], with [2^63] for the values that do not fit. *)
Definition to_uint (f : float64) : Z :=
  match trunc f with
  | Some z => if (0 <=? z) && (z <? 2 ^ 64) then z else 2 ^ 63
  | None => 2 ^ 63
  end.

(** [math.Ceil]: zeros, infinities and [NaN] are returned as they are. *)
Definition Ceil (x : float64) : float64 :=
  match x with
  | S754_finite s m e =>
      if 0 <=? e then x
      else
        let q := Zpos m / 2 ^ (- e) in
        let r := Zpos m mod 2 ^ (- e) in
        if s then (if q =? 0 then S754_zero true else SFopp (of_int q))
        else of_int (if r =? 0 then q else q + 1)
  | _ => x
  end.

(** *** Shapes of converted integers, for the properties below *)

(** What [binary_round_aux] can return: a value of the sign asked for, or
    [NaN]. *)
Definition signed (sx : bool) (f : float64) : Prop :=
  match f with
  | S754_zero s | S754_infinity s | S754_finite s _ _ => s = sx
  | S754_nan => True
  end.

(** The mantissa of [float64(n)] for [0 < n < 2^53]: [n] shifted to 53
    bits. *)
Definition normal (p : positive) : positive :=
  match (Zpos (digits2_pos p) - 53)%Z with
  | Zneg k => Pos.iter xO p k
  | _ => p
  end.

(** [float64(n)] for [n >= 2^53], as far as the clamp needs it: not a
    negative value, and with a positive exponent when it is finite. *)
Definition large (f : float64) : Prop :=
  match f with
  | S754_finite s _ e => s = false ∧ 0 < e
  | S754_zero s | S754_infinity s => s = false
  | S754_nan => True
  end.

End F64.

(** ** The pod label shifter *)

Module Traffic.

Import F64.

(** Modelled from the spec: [replicas.CalculateDesiredReplicaCount] is not
    part of the sources at hand.  The specification gives the pod target as
    [ceil(totalPods * weight / totalWeight)]; the caller passes the pod
    total and [weight / totalWeight * 100], so the helper is the ceiling of
    that percentage of the total. *)
Definition CalculateDesiredReplicaCount (total : Z) (percentage : float64) : Z :=
  to_uint (Ceil (mul (div percentage hundred) (of_int total))).

(** What percentage of the entire fleet (across all releases) should this
    set of pods represent: the variable [targetPercent] of
    [calculateReleasePodTarget]. *)
Definition targetPercent (releaseWeight totalWeight : Z) : float64 :=
  if totalWeight =? 0 then zero
  else mul (div (of_int releaseWeight) (of_int totalWeight)) hundred.

(** Round up to the nearest pod, clamped to the number of pods this release
    has. *)
Definition calculateReleasePodTarget
    (releasePods : Z) (releaseWeight : Z) (totalPods : Z) (totalWeight : Z) : Z :=
  let targetPods :=
    GoInt.to_int64
      (CalculateDesiredReplicaCount (GoInt.wrap64 totalPods)
         (targetPercent releaseWeight totalWeight)) in
  to_int (Min (of_int releasePods) (of_int targetPods)).

Definition round (num : float64) : Z :=
  if ltb num zero then to_int (sub num half) else to_int (add num half).

(** *** Labels and constants of the API package

    The constants of [shipperv1] are not part of the sources at hand.  The
    specification names the labels read ([app], [release], [lb]), the label
    written ([traffic-status]) and its two values ([enabled],
    [disabled]). *)

(** Modelled from the spec: [shipperv1.AppLabel], the label [app]. *)
Definition AppLabel : string := "app".

(** Modelled from the spec: [shipperv1.ReleaseLabel], the label [release]. *)
Definition ReleaseLabel : string := "release".

(** Modelled from the spec: [shipperv1.LBLabel], the label [lb]. *)
Definition LBLabel : string := "lb".

(** Modelled from the spec: [shipperv1.LBForProduction], the production
    value of the [lb] label. *)
Definition LBForProduction : string := "production".

(** Modelled from the spec: [shipperv1.PodTrafficStatusLabel], the label
    [traffic-status]. *)
Definition PodTrafficStatusLabel : string := "traffic-status".

(** Modelled from the spec: [shipperv1.Enabled], the value [enabled]. *)
Definition Enabled : string := "enabled".

(** Modelled from the spec: [shipperv1.Disabled], the value [disabled]. *)
Definition Disabled : string := "disabled".

(** *** Kubernetes objects, as far as the shifter reads them *)

Record Pod := {
  PodName : string;
  PodLabels : gmap string string
}.

(** [Spec.Selector] is a Go map and may be [nil]. *)
Record Service := {
  ServiceName : string;
  ServiceSelector : option (gmap string string)
}.

Record ClusterTrafficTarget := {
  ClusterName : string;
  ClusterWeight : Z
}.

Record TrafficTarget := {
  TTNamespace : string;
  TTName : string;
  TTLabels : gmap string string;
  TTClusters : list ClusterTrafficTarget
}.

(** *** JSON encoding of the patch

    [encoding/json] writes a string between double quotes, with a backslash
    before a quote and a backslash, the short forms for line feed, carriage
    return and tab, and [\u00xx] for the other control characters and for
    the HTML characters; bytes of multi-byte characters are copied. *)

Definition dquote : string := String (ascii_of_nat 34) EmptyString.

Definition hexDigit (n : nat) : ascii :=
  match String.get n "0123456789abcdef" with
  | Some c => c
  | None => "0"%char
  end.

Definition escapeByte (c : ascii) : string :=
  let n := nat_of_ascii c in
  if Nat.eqb n 34 then "\" ++ dquote
  else if Nat.eqb n 92 then "\\"
  else if Nat.eqb n 10 then "\n"
  else if Nat.eqb n 13 then "\r"
  else if Nat.eqb n 9 then "\t"
  else if Nat.ltb n 32 || Nat.eqb n 60 || Nat.eqb n 62 || Nat.eqb n 38 then
    "\u00" ++ String (hexDigit (Nat.div n 16)) (String (hexDigit (Nat.modulo n 16)) EmptyString)
  else String c EmptyString.

Fixpoint escapeString (s : string) : string :=
  match s with
  | EmptyString => EmptyString
  | String c rest => escapeByte c ++ escapeString rest
  end.

Definition jsonString (s : string) : string := dquote ++ escapeString s ++ dquote.

(** PatchOperation represents a JSON patch operation, with the field tags
    [op], [path] and [value]. *)
Record PatchOperation := {
  Op : string;
  Path : string;
  Value : string
}.

Definition marshalPatchOperation (o : PatchOperation) : string :=
  "{" ++ jsonString "op" ++ ":" ++ jsonString (Op o) ++ ","
      ++ jsonString "path" ++ ":" ++ jsonString (Path o) ++ ","
      ++ jsonString "value" ++ ":" ++ jsonString (Value o) ++ "}".

Fixpoint joinComma (l : list string) : string :=
  match l with
  | [] => EmptyString
  | [x] => x
  | x :: rest => x ++ "," ++ joinComma rest
  end.

(** [json.Marshal] of a [[]PatchOperation]. *)
Definition marshalPatchList (l : list PatchOperation) : string :=
  "[" ++ joinComma (map marshalPatchOperation l) ++ "]".

(** patchPodTrafficStatusLabel returns a JSON Patch that modifies the
    PodTrafficStatusLabel value of a given Pod. *)
Definition patchList (pod : Pod) (value : string) : list PatchOperation :=
  let op :=
    match PodLabels pod !! PodTrafficStatusLabel with
    | Some _ => "replace"
    | None => "add"
    end in
  [ {| Op := op;
       Path := "/metadata/labels/" ++ PodTrafficStatusLabel;
       Value := value |} ].

Definition patchPodTrafficStatusLabel (pod : Pod) (value : string) : string :=
  marshalPatchList (patchList pod value).

Definition getsTraffic (pod : Pod) (trafficSelectors : gmap string string) : bool :=
  forallb
    (fun kv : string * string =>
       match PodLabels pod !! kv.1 with
       | Some podValue => String.eqb podValue kv.2
       | None => false
       end)
    (map_to_list trafficSelectors).

(** *** Errors of the shifter

    One constructor per error the source builds, with the arguments it is
    built from. *)
Inductive SyncError :=
| NoWeightsForCluster (cluster : string)
| TargetClusterFetchServiceFailedError (cluster selector namespace err : string)
| TargetClusterWrongServiceCountError (cluster selector namespace : string) (n : Z)
| TargetClusterServiceMissesSelectorError (cluster namespace service : string)
| TargetClusterPodListingError (cluster namespace err : string)
| TargetClusterReleasePodListingError (release cluster namespace err : string)
| TargetClusterTrafficModifyingLabelError (cluster namespace pod err : string)
| TargetClusterMathError (release : string) (idle missing : Z).

(** *** The cluster, as the shifter reaches it

    A request to patch a pod, as [podsClient.Patch] receives it. *)
Record PatchCall := {
  CallNamespace : string;
  CallPod : string;
  CallType : string;
  CallPatch : string
}.

(** [types.JSONPatchType] of the API machinery. *)
Definition JSONPatchType : string := "application/json-patch+json".

(** The client set: listing the services of a namespace under a label
    selector, and patching a pod.  A patch request succeeds or fails, which
    may depend on the requests made before it. *)
Record Clientset := {
  ServicesList : string -> string -> string + list Service;
  PodsPatch : list PatchCall -> PatchCall -> option string
}.

(** The informer's lister: the pods of a namespace under a label set. *)
Record PodInformer := {
  PodsList : string -> gmap string string -> string + list Pod
}.

Record podLabelShifter := {
  appName : string;
  namespace : string;
  serviceSelector : string;
  clusterReleaseWeights : gmap string (gmap string Z)
}.

(** What a run of [SyncCluster] accumulates: the two results under
    construction and the patch requests sent so far. *)
Record LoopState := {
  achievedWeights : gmap string Z;
  errors : list SyncError;
  calls : list PatchCall
}.

(** How a run ends: with the achieved weights and the per-pod errors, with
    a fatal error, or in a run-time panic (an index out of range). *)
Inductive Outcome :=
| Returned (weights : gmap string Z) (errs : list SyncError)
| Failed (err : SyncError)
| Panicked.

Definition proportionWeight (finalTrafficPods totalPods totalWeight : Z) : Z :=
  let proportion := div (of_int finalTrafficPods) (of_int totalPods) in
  GoInt.wrap32 (round (mul proportion (of_int totalWeight))).

(** [value, ok := pod.Labels[PodTrafficStatusLabel]; !ok || value == current]:
    the pod's label is to be written when it is absent or carries the value
    the pod is moved away from. *)
Definition needsPatch (current : string) (pod : Pod) : bool :=
  match PodLabels pod !! PodTrafficStatusLabel with
  | None => true
  | Some value => String.eqb value current
  end.

(** The request [podsClient.Patch(pod.Name, types.JSONPatchType, patch)] of
    the client for the namespace [ns]. *)
Definition patchRequest (ns : string) (intended : string) (pod : Pod) : PatchCall :=
  {| CallNamespace := ns;
     CallPod := PodName pod;
     CallType := JSONPatchType;
     CallPatch := patchPodTrafficStatusLabel pod intended |}.

(** One pass of the loop over the releases ends in the next state of the
    loop, or in a panic after the requests sent so far. *)
Inductive Step :=
| Next (st : LoopState)
| Panic (sent : list PatchCall).

Section Shifting.

Variable p : podLabelShifter.
Variable cluster : string.
Variable clientset : Clientset.

(** The two loops over a prefix of the traffic pods and of the idle pods:
    [for i := 0; i < n; i++ { pod := pods[i] ... }].  A pod whose label is
    absent or carries [current] is patched to [intended]; a failed patch
    is recorded and the pod not counted.  The result is the requests sent
    and, unless an index past the end of [pods] stopped the loop, the
    errors and the count. *)
Fixpoint shiftPods (current intended : string) (n : nat) (pods : list Pod)
    (errs : list SyncError) (sent : list PatchCall) (shifted : Z)
    : list PatchCall * option (list SyncError * Z) :=
  match n with
  | O => (sent, Some (errs, shifted))
  | S n' =>
      match pods with
      | [] => (sent, None)
      | pod :: rest =>
          if needsPatch current pod then
            let call := patchRequest (namespace p) intended pod in
            match PodsPatch clientset sent call with
            | Some err =>
                shiftPods current intended n' rest
                  (errs ++ [TargetClusterTrafficModifyingLabelError
                              cluster (namespace p) (PodName pod) err])
                  (sent ++ [call]) shifted
            | None =>
                shiftPods current intended n' rest errs (sent ++ [call]) (shifted + 1)
            end
          else shiftPods current intended n' rest errs sent (shifted + 1)
      end
  end.

(** The body of the loop over the releases, once the release's pods are
    listed. *)
Definition syncReleasePods (trafficSelector : gmap string string)
    (totalPods totalWeight : Z) (release : string) (weight : Z)
    (releasePods : list Pod) (st : LoopState) : Step :=
  let targetPods :=
    calculateReleasePodTarget (Z.of_nat (length releasePods)) weight totalPods totalWeight in
  let '(trafficPods, idlePods) :=
    List.partition (fun pod => getsTraffic pod trafficSelector) releasePods in
  let nTraffic := Z.of_nat (length trafficPods) in
  let nIdle := Z.of_nat (length idlePods) in
  if nTraffic =? targetPods then
    Next {| achievedWeights := <[release := weight]> (achievedWeights st);
            errors := errors st;
            calls := calls st |}
  else if targetPods <? nTraffic then
    let excess := nTraffic - targetPods in
    match shiftPods Enabled Disabled (Z.to_nat excess) trafficPods
            (errors st) (calls st) 0 with
    | (sent, None) => Panic sent
    | (sent, Some (errs, removedFromLB)) =>
        let finalTrafficPods := nTraffic - removedFromLB in
        Next {| achievedWeights :=
                  <[release := proportionWeight finalTrafficPods totalPods totalWeight]>
                    (achievedWeights st);
                errors := errs;
                calls := sent |}
    end
  else
    let missing := targetPods - nTraffic in
    if nIdle <? missing then
      Next {| achievedWeights := achievedWeights st;
              errors := errors st ++ [TargetClusterMathError release nIdle missing];
              calls := calls st |}
    else
      match shiftPods Disabled Enabled (Z.to_nat missing) idlePods
              (errors st) (calls st) 0 with
      | (sent, None) => Panic sent
      | (sent, Some (errs, addedToLB)) =>
          let finalTrafficPods := nTraffic + addedToLB in
          Next {| achievedWeights :=
                    <[release := proportionWeight finalTrafficPods totalPods totalWeight]>
                      (achievedWeights st);
                  errors := errs;
                  calls := sent |}
      end.

Variable informer : PodInformer.

(** [for release, weight := range releaseWeights { ... }], over the
    releases in the order [range] yields them. *)
Fixpoint syncReleases (trafficSelector : gmap string string)
    (totalPods totalWeight : Z) (releases : list (string * Z)) (st : LoopState)
    : Outcome * list PatchCall :=
  match releases with
  | [] => (Returned (achievedWeights st) (errors st), calls st)
  | (release, weight) :: rest =>
      match PodsList informer (namespace p) {[ ReleaseLabel := release ]} with
      | inl err =>
          (Failed (TargetClusterReleasePodListingError release cluster (namespace p) err),
           calls st)
      | inr releasePods =>
          match syncReleasePods trafficSelector totalPods totalWeight
                  release weight releasePods st with
          | Panic sent => (Panicked, sent)
          | Next st' => syncReleases trafficSelector totalPods totalWeight rest st'
          end
      end
  end.

(** [for _, weight := range releaseWeights { totalWeight += weight }] *)
Definition sumWeights (releases : list (string * Z)) : Z :=
  fold_left (fun total rw => GoInt.wrap32 (total + rw.2)) releases 0.

(** The order in which [range] visits the release weights. *)
Variable mapRange : gmap string Z -> list (string * Z).

Definition SyncCluster : Outcome * list PatchCall :=
  match clusterReleaseWeights p !! cluster with
  | None => (Failed (NoWeightsForCluster cluster), [])
  | Some releaseWeights =>
      match ServicesList clientset (namespace p) (serviceSelector p) with
      | inl err =>
          (Failed (TargetClusterFetchServiceFailedError
                     cluster (serviceSelector p) (namespace p) err), [])
      | inr [prodSvc] =>
          match ServiceSelector prodSvc with
          | None =>
              (Failed (TargetClusterServiceMissesSelectorError
                         cluster (namespace p) (ServiceName prodSvc)), [])
          | Some trafficSelector =>
              match PodsList informer (namespace p) {[ AppLabel := appName p ]} with
              | inl err =>
                  (Failed (TargetClusterPodListingError cluster (namespace p) err), [])
              | inr pods =>
                  let totalPods := Z.of_nat (length pods) in
                  let totalWeight := sumWeights (mapRange releaseWeights) in
                  syncReleases trafficSelector totalPods totalWeight
                    (mapRange releaseWeights)
                    {| achievedWeights := ∅; errors := []; calls := [] |}
              end
          end
      | inr items =>
          (Failed (TargetClusterWrongServiceCountError
                     cluster (serviceSelector p) (namespace p)
                     (Z.of_nat (length items))), [])
      end
  end.

End Shifting.

(** *** The quantities the properties speak of *)

(** The pods of a release that carry traffic, and the others, as the loop
    over [releasePods] separates them. *)
Definition trafficPodsOf (trafficSelector : gmap string string) (pods : list Pod) : list Pod :=
  List.filter (fun pod => getsTraffic pod trafficSelector) pods.

Definition idlePodsOf (trafficSelector : gmap string string) (pods : list Pod) : list Pod :=
  List.filter (fun pod => negb (getsTraffic pod trafficSelector)) pods.

(** The error recorded when the patch of one of [pods] fails. *)
Definition patchFailureOf (cluster ns : string) (pods : list Pod) (e : SyncError) : Prop :=
  ∃ pod err,
    pod ∈ pods ∧ e = TargetClusterTrafficModifyingLabelError cluster ns (PodName pod) err.

Definition isMathError (e : SyncError) : bool :=
  match e with
  | TargetClusterMathError _ _ _ => true
  | _ => false
  end.

(** The requests that take every traffic pod of a release out of the load
    balancer: one per traffic pod whose label is absent or [Enabled]. *)
Definition drainRequests (ns : string) (trafficSelector : gmap string string)
    (pods : list Pod) : list PatchCall :=
  map (patchRequest ns Disabled)
      (List.filter (needsPatch Enabled) (trafficPodsOf trafficSelector pods)).

(** The drain requests of the releases in turn, up to the first release
    whose pods cannot be listed. *)
Fixpoint drainAll (ns : string) (trafficSelector : gmap string string)
    (informer : PodInformer) (releases : list (string * Z)) : list PatchCall :=
  match releases with
  | [] => []
  | (release, _) :: rest =>
      match PodsList informer ns {[ ReleaseLabel := release ]} with
      | inl _ => []
      | inr pods =>
          drainRequests ns trafficSelector pods
          ++ drainAll ns trafficSelector informer rest
      end
  end.

(** An informer whose cache no pod list exceeds: every listing it returns
    has fewer than [2^53] pods. *)
Definition feasible (informer : PodInformer) : Prop :=
  ∀ ns selector pods,
    PodsList informer ns selector = inr pods → Z.of_nat (length pods) < 2 ^ 53.

(** The run reaches the loop over the releases: the cluster has weights,
    one production service is found, its selector is [trafficSelector], and
    the pods of the application are listed. *)
Definition ready (p : podLabelShifter) (cluster : string) (clientset : Clientset)
    (informer : PodInformer) (releaseWeights : gmap string Z)
    (trafficSelector : gmap string string) (pods : list Pod) : Prop :=
  clusterReleaseWeights p !! cluster = Some releaseWeights
  ∧ (∃ prodSvc,
        ServicesList clientset (namespace p) (serviceSelector p) = inr [prodSvc]
        ∧ ServiceSelector prodSvc = Some trafficSelector)
  ∧ PodsList informer (namespace p) {[ AppLabel := appName p ]} = inr pods.

(** A request that writes a label the pod does not carry yet: [Disabled] on
    a pod whose label is absent or [Enabled], [Enabled] on a pod whose
    label is absent or [Disabled]. *)
Definition minimalRequest (ns : string) (call : PatchCall) : Prop :=
  ∃ pod intended,
    call = patchRequest ns intended pod
    ∧ ((intended = Disabled
        ∧ (PodLabels pod !! PodTrafficStatusLabel = None
           ∨ PodLabels pod !! PodTrafficStatusLabel = Some Enabled))
       ∨ (intended = Enabled
          ∧ (PodLabels pod !! PodTrafficStatusLabel = None
             ∨ PodLabels pod !! PodTrafficStatusLabel = Some Disabled))).

(** The weight reported for a release that had [nTraffic] traffic pods and
    the target [target], when [failed] of its patches failed. *)
Definition reportedWeight (weight nTraffic target failed totalPods totalWeight : Z) : Z :=
  if nTraffic =? target then weight
  else if target <? nTraffic then proportionWeight (target + failed) totalPods totalWeight
  else proportionWeight (target - failed) totalPods totalWeight.

(** *** The cluster once the requests of a run are served *)

#[global] Instance PatchCall_eq_dec : EqDecision PatchCall.
Proof. solve_decision. Defined.

#[global] Instance Pod_eq_dec : EqDecision Pod.
Proof. solve_decision. Defined.

(** The pod after a patch of its traffic status label. *)
Definition relabel (value : string) (pod : Pod) : Pod :=
  {| PodName := PodName pod;
     PodLabels := <[ PodTrafficStatusLabel := value ]> (PodLabels pod) |}.

(** A pod of the namespace [ns] once the requests [sent] are served: a pod
    that was sent the patch to a value carries that value. *)
Definition servedPod (ns : string) (sent : list PatchCall) (pod : Pod) : Pod :=
  if bool_decide (patchRequest ns Disabled pod ∈ sent) then relabel Disabled pod
  else if bool_decide (patchRequest ns Enabled pod ∈ sent) then relabel Enabled pod
  else pod.

Definition served (ns : string) (sent : list PatchCall) (pods : list Pod) : list Pod :=
  map (servedPod ns sent) pods.

(** The pods of a cache have distinct names. *)
Definition uniqueNames (pods : list Pod) : Prop :=
  ∀ x y, x ∈ pods → y ∈ pods → PodName x = PodName y → x = y.

(** The requests one pass of the loop over the releases sends for the pods
    of a release with the pod target [target]: none at the target, the
    patches to [Disabled] of the excess traffic pods above it, none when the
    idle pods are fewer than the missing ones, the patches to [Enabled] of
    the missing idle pods below it. *)
Definition stepRequests (ns : string) (trafficSelector : gmap string string)
    (target : Z) (pods : list Pod) : list PatchCall :=
  let trafficPods := trafficPodsOf trafficSelector pods in
  let idlePods := idlePodsOf trafficSelector pods in
  let nTraffic := Z.of_nat (length trafficPods) in
  let nIdle := Z.of_nat (length idlePods) in
  if nTraffic =? target then []
  else if target <? nTraffic then
    map (patchRequest ns Disabled)
        (List.filter (needsPatch Enabled) (take (Z.to_nat (nTraffic - target)) trafficPods))
  else if nIdle <? target - nTraffic then []
  else
    map (patchRequest ns Enabled)
        (List.filter (needsPatch Disabled) (take (Z.to_nat (target - nTraffic)) idlePods)).

(** The pods of a release in a cache of pods, as the lister selects them. *)
Definition releasePodsOf (release : string) (pods : list Pod) : list Pod :=
  List.filter (fun pod => getsTraffic pod {[ ReleaseLabel := release ]}) pods.

(** The pod target of a release among [pods], at the totals of a run. *)
Definition targetOf (totalPods totalWeight : Z) (pods : list Pod) (rw : string * Z) : Z :=
  calculateReleasePodTarget (Z.of_nat (length (releasePodsOf rw.1 pods))) rw.2
    totalPods totalWeight.

(** The requests of a run over the cache [pods], release by release. *)
Definition runRequests (ns : string) (trafficSelector : gmap string string)
    (totalPods totalWeight : Z) (pods : list Pod) (releases : list (string * Z))
    : list PatchCall :=
  flat_map
    (fun rw => stepRequests ns trafficSelector (targetOf totalPods totalWeight pods rw)
                 (releasePodsOf rw.1 pods))
    releases.

(** [shiftIf current intended pod]: the pod with the label [intended] when
    its label is absent or [current]. *)
Definition shiftIf (current intended : string) (pod : Pod) : Pod :=
  if needsPatch current pod then relabel intended pod else pod.

(** [mapFirst k side g pods]: [g] applied to the first [k] pods on the side
    [side]. *)
Fixpoint mapFirst (k : nat) (side : Pod → bool) (g : Pod → Pod) (pods : list Pod)
    : list Pod :=
  match pods with
  | [] => []
  | pod :: rest =>
      if side pod then
        match k with
        | O => pod :: rest
        | S k' => g pod :: mapFirst k' side g rest
        end
      else pod :: mapFirst k side g rest
  end.

(** The sum of the weights, in the integers. *)
Definition totalOf (releases : list (string * Z)) : Z :=
  fold_right (fun rw total => rw.2 + total) 0 releases.

(** *** A sample cluster

    An informer over a cache of pods, which lists the pods whose labels
    include the label set asked for; a production service that selects the
    pods of the application with traffic enabled; a client whose patches
    succeed. *)
Definition cacheInformer (pods : list Pod) : PodInformer :=
  {| PodsList := fun _ selector =>
       inr (List.filter (fun pod => getsTraffic pod selector) pods) |}.

Definition samplePod (name release status : string) : Pod :=
  {| PodName := name;
     PodLabels := {[ AppLabel := "web"; ReleaseLabel := release;
                     PodTrafficStatusLabel := status ]} |}.

Definition sampleService : Service :=
  {| ServiceName := "web-prod";
     ServiceSelector := Some {[ AppLabel := "web"; PodTrafficStatusLabel := Enabled ]} |}.

Definition sampleClientset : Clientset :=
  {| ServicesList := fun _ _ => inr [sampleService];
     PodsPatch := fun _ _ => None |}.

Definition sampleShifter (weights : gmap string Z) : podLabelShifter :=
  {| appName := "web";
     namespace := "default";
     serviceSelector := "app=web,lb=production";
     clusterReleaseWeights := {[ "c1" := weights ]} |}.

(** Ten pods of release [R], eight of them with traffic enabled. *)
Definition shrinkPods : list Pod :=
  [ samplePod "pod-0" "R" Enabled; samplePod "pod-1" "R" Enabled;
    samplePod "pod-2" "R" Disabled; samplePod "pod-3" "R" Enabled;
    samplePod "pod-4" "R" Enabled; samplePod "pod-5" "R" Enabled;
    samplePod "pod-6" "R" Disabled; samplePod "pod-7" "R" Enabled;
    samplePod "pod-8" "R" Enabled; samplePod "pod-9" "R" Enabled ].

(** Ten pods, four of release [R], one of them with traffic, and six of
    release [R2], all with traffic. *)
Definition unevenPods : list Pod :=
  [ samplePod "r-0" "R" Enabled; samplePod "r-1" "R" Disabled;
    samplePod "r-2" "R" Disabled; samplePod "r-3" "R" Disabled;
    samplePod "s-0" "R2" Enabled; samplePod "s-1" "R2" Enabled;
    samplePod "s-2" "R2" Enabled; samplePod "s-3" "R2" Enabled;
    samplePod "s-4" "R2" Enabled; samplePod "s-5" "R2" Enabled ].

(** Ten pods of the application, two of release [R], both with traffic, and
    eight of release [R2], five of them with traffic. *)
Definition settledPods : list Pod :=
  [ samplePod "r-0" "R" Enabled; samplePod "r-1" "R" Enabled;
    samplePod "s-0" "R2" Enabled; samplePod "s-1" "R2" Enabled;
    samplePod "s-2" "R2" Enabled; samplePod "s-3" "R2" Enabled;
    samplePod "s-4" "R2" Enabled; samplePod "s-5" "R2" Disabled;
    samplePod "s-6" "R2" Disabled; samplePod "s-7" "R2" Disabled ].

(** *** Building the weight table *)

Inductive BuildError :=
| MissingReleaseLabel (namespace name : string)
| DuplicateRelease (existing name namespace release : string).

Definition releaseOf (target : TrafficTarget) : option string :=
  TTLabels target !! ReleaseLabel.

(** The body of [for _, cluster := range tt.Spec.Clusters]: the weights of
    the cluster are created when absent, and the release's entry (zero when
    absent) grows by the cluster's weight, in [uint32]. *)
Definition addClusterWeight (release : string)
    (clusterReleases : gmap string (gmap string Z)) (cluster : ClusterTrafficTarget)
    : gmap string (gmap string Z) :=
  let weights := default ∅ (clusterReleases !! ClusterName cluster) in
  <[ ClusterName cluster :=
       <[ release := GoInt.wrap32 (default 0 (weights !! release) + ClusterWeight cluster) ]>
         weights ]> clusterReleases.

Fixpoint buildLoop (trafficTargets : list TrafficTarget)
    (clusterReleases : gmap string (gmap string Z))
    (releaseTT : gmap string TrafficTarget)
    : BuildError + gmap string (gmap string Z) :=
  match trafficTargets with
  | [] => inr clusterReleases
  | target :: rest =>
      match releaseOf target with
      | None => inl (MissingReleaseLabel (TTNamespace target) (TTName target))
      | Some release =>
          match releaseTT !! release with
          | Some existingTT =>
              inl (DuplicateRelease (TTName existingTT) (TTName target) (TTNamespace target) release)
          | None =>
              buildLoop rest
                (fold_left (addClusterWeight release) (TTClusters target) clusterReleases)
                (<[ release := target ]> releaseTT)
          end
      end
  end.

Definition buildClusterReleaseWeights (trafficTargets : list TrafficTarget)
    : BuildError + gmap string (gmap string Z) :=
  buildLoop trafficTargets ∅ ∅.

(** [newPodLabelShifter]; the selector string of a label set lists its
    [key=value] pairs by key. *)
Definition newPodLabelShifter (app ns : string) (trafficTargets : list TrafficTarget)
    : BuildError + podLabelShifter :=
  match buildClusterReleaseWeights trafficTargets with
  | inl err => inl err
  | inr weights =>
      inr {| appName := app;
             namespace := ns;
             serviceSelector :=
               AppLabel ++ "=" ++ app ++ "," ++ LBLabel ++ "=" ++ LBForProduction;
             clusterReleaseWeights := weights |}
  end.

(** The weight the table holds for a release in a cluster. *)
Definition tableWeight (table : gmap string (gmap string Z)) (cluster release : string)
    : option Z :=
  table !! cluster ≫= (fun weights => weights !! release).

(** The entries a traffic target has for a cluster, and their total. *)
Definition hasCluster (cluster : string) (l : list ClusterTrafficTarget) : bool :=
  existsb (fun c => String.eqb (ClusterName c) cluster) l.

Fixpoint entriesWeight (cluster : string) (l : list ClusterTrafficTarget) : Z :=
  match l with
  | [] => 0
  | c :: rest =>
      (if String.eqb (ClusterName c) cluster then ClusterWeight c else 0)
      + entriesWeight cluster rest
  end.

(** Some traffic target lacks the release label. *)
Definition missingLabel (trafficTargets : list TrafficTarget) : Prop :=
  ∃ target, target ∈ trafficTargets ∧ releaseOf target = None.

(** Two traffic targets, at different places of the input, carry the same
    release label. *)
Definition duplicateLabel (trafficTargets : list TrafficTarget) : Prop :=
  ∃ i j ti tj release,
    i ≠ j ∧ trafficTargets !! i = Some ti ∧ trafficTargets !! j = Some tj
    ∧ releaseOf ti = Some release ∧ releaseOf tj = Some release.

(** Three traffic targets, one per release, each with a weight in one
    cluster. *)
Definition sampleTarget (release : string) (weight : Z) : TrafficTarget :=
  {| TTNamespace := "default";
     TTName := "tt-" ++ release;
     TTLabels := {[ ReleaseLabel := release ]};
     TTClusters := [ {| ClusterName := "cluster-1"; ClusterWeight := weight |} ] |}.

Definition sampleTarget1 : TrafficTarget := sampleTarget "reviewsapi-1" 90.
Definition sampleTarget2 : TrafficTarget := sampleTarget "reviewsapi-2" 5.
Definition sampleTarget3 : TrafficTarget := sampleTarget "reviewsapi-3" 5.

(** *** Further functions and quantities of the shifter *)

(** The release is below its target and has fewer idle pods than are
    missing: the case of the math error. *)
Definition mathShort (trafficSelector : gmap string string) (target : Z)
    (pods : list Pod) : bool :=
  let nTraffic := Z.of_nat (length (trafficPodsOf trafficSelector pods)) in
  let nIdle := Z.of_nat (length (idlePodsOf trafficSelector pods)) in
  (nTraffic <? target) && (nIdle <? target - nTraffic).

(** The errors recorded for the requests [new], sent in this order after
    the requests [history]: one for each request the client fails. *)
Fixpoint patchFailures (clientset : Clientset) (cluster : string)
    (history new : list PatchCall) : list SyncError :=
  match new with
  | [] => []
  | call :: rest =>
      match PodsPatch clientset history call with
      | Some err =>
          [TargetClusterTrafficModifyingLabelError cluster (CallNamespace call)
             (CallPod call) err]
      | None => []
      end ++ patchFailures clientset cluster (history ++ [call]) rest
  end.

(** The requests of the loop over the releases, release by release: for a
    release whose pods are listed, the requests of its pass. *)
Definition loopRequests (informer : PodInformer) (ns : string)
    (trafficSelector : gmap string string) (totalPods totalWeight : Z)
    (releases : list (string * Z)) : list PatchCall :=
  flat_map
    (fun rw =>
       match PodsList informer ns {[ ReleaseLabel := rw.1 ]} with
       | inr pods =>
           stepRequests ns trafficSelector
             (calculateReleasePodTarget (Z.of_nat (length pods)) rw.2 totalPods totalWeight)
             pods
       | inl _ => []
       end)
    releases.


(** Two runs end the same way: both return, both fail with the same error,
    or both panic. *)
Definition sameEnding (first second : Outcome) : Prop :=
  match first, second with
  | Returned _ _, Returned _ _ => True
  | Failed err, Failed err' => err = err'
  | Panicked, Panicked => True
  | _, _ => False
  end.


(** Two states of the loop, and two results of a run, that agree up to the
    order of the errors and of the requests; runs that do not return
    agree. *)
Definition sameState (st st' : LoopState) : Prop :=
  achievedWeights st = achievedWeights st'
  ∧ errors st ≡ₚ errors st' ∧ calls st ≡ₚ calls st'.

Definition sameResult (first second : Outcome * list PatchCall) : Prop :=
  match first.1, second.1 with
  | Returned weights errs, Returned weights' errs' =>
      weights = weights' ∧ errs ≡ₚ errs' ∧ first.2 ≡ₚ second.2
  | Returned _ _, _ | _, Returned _ _ => False
  | _, _ => True
  end.


(** A pod that the traffic status label alone switches on and off under the
    selector: it carries the selector's other labels, and its traffic
    status label is absent, [Enabled] or [Disabled]. *)
Definition switchable (trafficSelector : gmap string string) (pod : Pod) : Prop :=
  (∀ key value,
      trafficSelector !! key = Some value → key ≠ PodTrafficStatusLabel →
      PodLabels pod !! key = Some value)
  ∧ (PodLabels pod !! PodTrafficStatusLabel = None
     ∨ PodLabels pod !! PodTrafficStatusLabel = Some Enabled
     ∨ PodLabels pod !! PodTrafficStatusLabel = Some Disabled).


(** A client that fails the patches of one pod, and an informer that fails
    to list the pods of one release. *)
Definition flakyClientset (pod : string) : Clientset :=
  {| ServicesList := fun _ _ => inr [sampleService];
     PodsPatch := fun _ call =>
       if String.eqb (CallPod call) pod then Some "conflict"%string else None |}.

Definition brokenInformer (release : string) (pods : list Pod) : PodInformer :=
  {| PodsList := fun ns selector =>
       if decide (selector = {[ ReleaseLabel := release ]})
       then inl "timeout"%string
       else PodsList (cacheInformer pods) ns selector |}.

(** The selector of the sample service. *)
Definition sampleSelector : gmap string string :=
  {[ AppLabel := "web"%string; PodTrafficStatusLabel := Enabled ]}.

(** [sort.Strings]: the strings in ascending order.  Strings that compare
    equal are equal, so every sorting algorithm returns the same list; the
    model inserts each string in turn into the sorted ones. *)
Fixpoint insertString (x : string) (sorted : list string) : list string :=
  match sorted with
  | [] => [x]
  | y :: rest => if String.ltb x y then x :: y :: rest else y :: insertString x rest
  end.

Definition sortStrings (l : list string) : list string :=
  fold_left (fun sorted x => insertString x sorted) l [].

(** [Clusters]: the keys of the weight table, in the order [range] yields
    them, then sorted. *)
Definition Clusters
    (clusterRange : gmap string (gmap string Z) -> list (string * gmap string Z))
    (p : podLabelShifter) : list string :=
  let clusters :=
    fold_left (fun clusters entry => clusters ++ [entry.1])
      (clusterRange (clusterReleaseWeights p)) [] in
  sortStrings clusters.

(** [atMost a b]: [b] is not below [a]. *)
Definition atMost (a b : string) : Prop := String.ltb b a = false.

(** Ascending, without repetition. *)
Definition ascending (l : list string) : Prop :=
  StronglySorted (fun a b => String.ltb a b = true) l.

(** The release labels the loop of [buildClusterReleaseWeights] has
    recorded after the traffic targets [trafficTargets]. *)
Definition recordedTargets (trafficTargets : list TrafficTarget)
    (releaseTT : gmap string TrafficTarget) : gmap string TrafficTarget :=
  fold_left
    (fun releaseTT target =>
       match releaseOf target with
       | Some release => <[ release := target ]> releaseTT
       | None => releaseTT
       end)
    trafficTargets releaseTT.

End Traffic.

(** ** Release conditions *)

Module Release.

Record ReleaseCondition := {
  CondType : string;
  CondStatus : string;
  LastTransitionTime : Z;
  Reason : string;
  Message : string
}.

(** Modelled from the spec: the declaration of [shipper.ReleaseStatus] is
    not part of the sources at hand.  The specification describes a status
    as a phase, the achieved step and the typed conditions. *)
Record ReleaseStatus := {
  Phase : string;
  AchievedStep : Z;
  Conditions : list ReleaseCondition
}.

Definition withConditions (status : ReleaseStatus) (l : list ReleaseCondition)
    : ReleaseStatus :=
  {| Phase := Phase status; AchievedStep := AchievedStep status; Conditions := l |}.

Definition withLastTransitionTime (c : ReleaseCondition) (t : Z) : ReleaseCondition :=
  {| CondType := CondType c; CondStatus := CondStatus c; LastTransitionTime := t;
     Reason := Reason c; Message := Message c |}.

(** The two conditions of a diff are pointers and may be [nil]. *)
Record ReleaseConditionDiff := {
  c1 : option ReleaseCondition;
  c2 : option ReleaseCondition
}.

Definition NewReleaseConditionDiff (a b : option ReleaseCondition) : ReleaseConditionDiff :=
  {| c1 := a; c2 := b |}.

Definition IsEmpty (d : ReleaseConditionDiff) : bool :=
  match c1 d, c2 d with
  | None, None => true
  | None, Some _ | Some _, None => false
  | Some a, Some b =>
      String.eqb (CondType a) (CondType b)
      && String.eqb (CondStatus a) (CondStatus b)
      && String.eqb (Reason a) (Reason b)
      && String.eqb (Message a) (Message b)
  end.

Definition condStr (c : option ReleaseCondition) : string :=
  match c with
  | None => EmptyString
  | Some c =>
      fold_left
        (fun b ch =>
           if Nat.ltb 0 (String.length ch) then
             (if Nat.ltb 0 (String.length b) then b ++ " " ++ ch else b ++ ch)%string
           else b)
        [CondType c; CondStatus c; Reason c; Message c] EmptyString
  end.

Definition DiffString (d : ReleaseConditionDiff) : string :=
  if IsEmpty d then EmptyString
  else "[" ++ condStr (c1 d) ++ "] -> [" ++ condStr (c2 d) ++ "]".

(** [for i := range status.Conditions { c := status.Conditions[i]; if c.Type
    == condType { return &c } }; return nil]: the first condition of the
    type, copied. *)
Fixpoint firstOfType (conditions : list ReleaseCondition) (condType : string)
    : option ReleaseCondition :=
  match conditions with
  | [] => None
  | c :: rest =>
      if String.eqb (CondType c) condType then Some c
      else firstOfType rest condType
  end.

Definition GetReleaseCondition (status : ReleaseStatus) (condType : string)
    : option ReleaseCondition :=
  firstOfType (Conditions status) condType.

Fixpoint filterOutCondition (conditions : list ReleaseCondition) (condType : string)
    : list ReleaseCondition :=
  match conditions with
  | [] => []
  | c :: rest =>
      if String.eqb (CondType c) condType then filterOutCondition rest condType
      else c :: filterOutCondition rest condType
  end.

(** [sort.Slice(conditions, func(i, j) { Type[i] < Type[j] })].  On a short
    slice the library runs an insertion sort: each element in turn moves
    towards the front while it is smaller than its left neighbour.
    [insertBack] works on the sorted prefix read from its end. *)
Definition less (a b : ReleaseCondition) : bool :=
  String.ltb (CondType a) (CondType b).

Fixpoint insertBack (x : ReleaseCondition) (prefixRev : list ReleaseCondition)
    : list ReleaseCondition :=
  match prefixRev with
  | [] => [x]
  | y :: rest => if less x y then y :: insertBack x rest else x :: y :: rest
  end.

Definition sortSlice (conditions : list ReleaseCondition) : list ReleaseCondition :=
  rev (fold_left (fun prefixRev x => insertBack x prefixRev) conditions []).

(** The status is passed by pointer and updated in place; the model
    returns it with the diff ([None] for a [nil] diff).  The diff holds a
    pointer to the function's own [condition], so it sees the transition
    time the function stores in it. *)
Definition SetReleaseCondition (status : ReleaseStatus) (condition : ReleaseCondition)
    : ReleaseStatus * option ReleaseConditionDiff :=
  let currentCond := GetReleaseCondition status (CondType condition) in
  if IsEmpty (NewReleaseConditionDiff currentCond (Some condition)) then (status, None)
  else
    let condition' :=
      match currentCond with
      | Some cur =>
          if String.eqb (CondStatus cur) (CondStatus condition)
          then withLastTransitionTime condition (LastTransitionTime cur)
          else condition
      | None => condition
      end in
    let newConditions := filterOutCondition (Conditions status) (CondType condition') in
    (withConditions status (sortSlice (newConditions ++ [condition'])),
     Some (NewReleaseConditionDiff currentCond (Some condition'))).

(** [RemoveReleaseCondition] receives the status by value: the filtered
    list is stored in the function's copy, and the caller's status is what
    it was. *)
Definition RemoveReleaseCondition (status : ReleaseStatus) (condType : string)
    : ReleaseStatus :=
  let local := withConditions status (filterOutCondition (Conditions status) condType) in
  let _ := local in
  status.

(** A sequence of operations on a status, from the caller's side. *)
Inductive Operation :=
| OpSet (condition : ReleaseCondition)
| OpRemove (condType : string).

Definition applyOperation (status : ReleaseStatus) (o : Operation) : ReleaseStatus :=
  match o with
  | OpSet condition => (SetReleaseCondition status condition).1
  | OpRemove condType => RemoveReleaseCondition status condType
  end.

Definition applyOperations (status : ReleaseStatus) (ops : list Operation) : ReleaseStatus :=
  fold_left applyOperation ops status.

(** At most one condition per type, in ascending order of the types: every
    condition's type is strictly below the types of all that follow it. *)
Definition typeBelow (a b : ReleaseCondition) : Prop :=
  String.ltb (CondType a) (CondType b) = true.

Definition wellOrdered (conditions : list ReleaseCondition) : Prop :=
  StronglySorted typeBelow conditions.

(** [notAbove a b]: the type of [b] is not below the type of [a]. *)
Definition notAbove (a b : ReleaseCondition) : Prop := less b a = false.

(** A status without conditions, and a condition written at a given
    time. *)
Definition emptyStatus : ReleaseStatus :=
  {| Phase := "WaitingForCommand"; AchievedStep := 0; Conditions := [] |}.

Definition conditionAt (condType status reason message : string) (now : Z)
    : ReleaseCondition :=
  {| CondType := condType; CondStatus := status; LastTransitionTime := now;
     Reason := reason; Message := message |}.

(** *** Further functions on conditions *)

(** [metav1.Time{}], the zero time. *)
Definition zeroTime : Z := 0.

(** [NewReleaseCondition]: [now] is the reading of the clock,
    [discardTimestamps] the variable [ConditionsShouldDiscardTimestamps]. *)
Definition NewReleaseCondition (discardTimestamps : bool) (now : Z)
    (condType status reason message : string) : ReleaseCondition :=
  {| CondType := condType;
     CondStatus := status;
     LastTransitionTime := if discardTimestamps then zeroTime else now;
     Reason := reason;
     Message := message |}.

(** Modelled from the spec: the declaration of [shipper.Release] is not part
    of the sources at hand; a release has an identity, labels and a
    status. *)
Record Release := {
  RelNamespace : string;
  RelName : string;
  RelLabels : gmap string string;
  Status : ReleaseStatus
}.

Section Predicates.

(** The constants [shipper.ReleaseConditionTypeScheduled],
    [shipper.ReleaseConditionTypeComplete] and [corev1.ConditionTrue]. *)
Variables ReleaseConditionTypeScheduled ReleaseConditionTypeComplete ConditionTrue : string.

Definition ReleaseScheduled (release : Release) : bool :=
  match GetReleaseCondition (Status release) ReleaseConditionTypeScheduled with
  | Some scheduledCond => String.eqb (CondStatus scheduledCond) ConditionTrue
  | None => false
  end.

Definition ReleaseComplete (release : Release) : bool :=
  match GetReleaseCondition (Status release) ReleaseConditionTypeComplete with
  | Some releasedCond => String.eqb (CondStatus releasedCond) ConditionTrue
  | None => false
  end.

Definition ReleaseProgressing (release : Release) : bool :=
  negb (ReleaseComplete release).

End Predicates.

(** The release after [SetReleaseCondition(&release.Status, condition)]. *)
Definition withStatus (release : Release) (status : ReleaseStatus) : Release :=
  {| RelNamespace := RelNamespace release; RelName := RelName release;
     RelLabels := RelLabels release; Status := status |}.

(** The chunks of [condStr] that are not empty, and their concatenation
    with one space between two of them. *)
Definition isNonEmpty (s : string) : bool := Nat.ltb 0 (String.length s).

Fixpoint joinSpace (chunks : list string) : string :=
  match chunks with
  | [] => EmptyString
  | [ch] => ch
  | ch :: rest => (ch ++ " " ++ joinSpace rest)%string
  end.

(** Two conditions that agree in all but the transition time. *)
Definition sameButTime (a b : ReleaseCondition) : Prop :=
  CondType a = CondType b ∧ CondStatus a = CondStatus b
  ∧ Reason a = Reason b ∧ Message a = Message b.

End Release.

(** ** The target objects of a release *)

Module Targets.

Definition ReleaseLabel : string := Traffic.ReleaseLabel.

Inductive Kind := InstallationTargetKind | TrafficTargetKind | CapacityTargetKind.

Inductive TargetError :=
| ListError (err : string)
| UnexpectedObjectCountFromSelectorError
    (selector : string) (kind : Kind) (expected got : Z).

Section Resolver.

(** The three object types of the API, which the resolver only passes
    on. *)
Variables InstallationTarget TrafficTarget CapacityTarget : Type.

(** The client: one listing per kind, of a namespace under a label
    selector. *)
Record ShipperClient := {
  InstallationTargetsList : string -> string -> string + list InstallationTarget;
  TrafficTargetsList : string -> string -> string + list TrafficTarget;
  CapacityTargetsList : string -> string -> string + list CapacityTarget
}.

(** The four results of the function. *)
Record Resolved := {
  resIT : option InstallationTarget;
  resTT : option TrafficTarget;
  resCT : option CapacityTarget;
  resErr : option TargetError
}.

Definition failWith (err : TargetError) : Resolved :=
  {| resIT := None; resTT := None; resCT := None; resErr := Some err |}.

Definition TargetObjectsForRelease (relName relNamespace : string)
    (shipperClient : ShipperClient) : Resolved :=
  let selector := (ReleaseLabel ++ "=" ++ relName)%string in
  match InstallationTargetsList shipperClient relNamespace selector with
  | inl err => failWith (ListError err)
  | inr itItems =>
      let expectedNumberOfTargetObjects := 1 in
      match itItems with
      | [it] =>
          match TrafficTargetsList shipperClient relNamespace selector with
          | inl err => failWith (ListError err)
          | inr [tt'] =>
              match CapacityTargetsList shipperClient relNamespace selector with
              | inl err => failWith (ListError err)
              | inr [ct] =>
                  {| resIT := Some it; resTT := Some tt'; resCT := Some ct;
                     resErr := None |}
              | inr _ =>
                  failWith (UnexpectedObjectCountFromSelectorError selector
                              CapacityTargetKind expectedNumberOfTargetObjects
                              (Z.of_nat (length itItems)))
              end
          | inr _ =>
              failWith (UnexpectedObjectCountFromSelectorError selector
                          TrafficTargetKind expectedNumberOfTargetObjects
                          (Z.of_nat (length itItems)))
          end
      | _ =>
          failWith (UnexpectedObjectCountFromSelectorError selector
                      InstallationTargetKind expectedNumberOfTargetObjects
                      (Z.of_nat (length itItems)))
      end
  end.

Definition selectorOf (relName : string) : string :=
  (ReleaseLabel ++ "=" ++ relName)%string.

(** The first kind, in the order the function lists them, of which the
    selector does not match exactly one object. *)
Definition firstMiscount (its : list InstallationTarget) (tts : list TrafficTarget)
    (cts : list CapacityTarget) : option Kind :=
  if negb (Nat.eqb (length its) 1) then Some InstallationTargetKind
  else if negb (Nat.eqb (length tts) 1) then Some TrafficTargetKind
  else if negb (Nat.eqb (length cts) 1) then Some CapacityTargetKind
  else None.

End Resolver.

Arguments InstallationTargetsList {_ _ _} _ _ _.
Arguments TrafficTargetsList {_ _ _} _ _ _.
Arguments CapacityTargetsList {_ _ _} _ _ _.
Arguments Build_Resolved {_ _ _} _ _ _ _.
Arguments resIT {_ _ _} _.
Arguments resTT {_ _ _} _.
Arguments resCT {_ _ _} _.
Arguments resErr {_ _ _} _.
Arguments failWith {_ _ _} _.
Arguments TargetObjectsForRelease {_ _ _} _ _ _.
Arguments firstMiscount {_ _ _} _ _ _.

(** A client over three lists of object names, whatever the namespace and
    the selector. *)
Definition sampleClient (its tts cts : list string) : ShipperClient string string string :=
  {| InstallationTargetsList := fun _ _ => inr its;
     TrafficTargetsList := fun _ _ => inr tts;
     CapacityTargetsList := fun _ _ => inr cts |}.

(** *** Filtering the selected clusters *)

Section Filter.

(** [filters.SliceContainsString], which is not part of the sources at
    hand. *)
Variable SliceContainsString : list string -> string -> bool.

(** [for _, selectedCluster := range selectedClusters { if
    !SliceContainsString(clustersToRemove, selectedCluster) { filteredClusters
    = append(filteredClusters, selectedCluster) } }] *)
Definition FilterSelectedClusters (selectedClusters clustersToRemove : list string)
    : list string :=
  fold_left
    (fun filteredClusters selectedCluster =>
       if negb (SliceContainsString clustersToRemove selectedCluster)
       then filteredClusters ++ [selectedCluster]
       else filteredClusters)
    selectedClusters [].

End Filter.

(** A membership test for [SliceContainsString]. *)
Definition containsString (l : list string) (x : string) : bool :=
  existsb (String.eqb x) l.

End Targets.

(** * Properties *)

(** ** The target-object resolver *)

Module TargetsFacts.

Import Targets.

Section Resolver.

Context {InstallationTarget TrafficTarget CapacityTarget : Type}.

Implicit Types client : ShipperClient InstallationTarget TrafficTarget CapacityTarget.


End Resolver.

(** One object of each kind is resolved; with two traffic targets the error
    is the traffic target's, and the count it carries is the number of
    installation targets, as in the source; a failed listing returns its
    error. *)
Example resolver_scenarios :
  TargetObjectsForRelease "r1" "default" (sampleClient ["it-r1"] ["tt-r1"] ["ct-r1"])
  = Build_Resolved (Some "it-r1") (Some "tt-r1") (Some "ct-r1") None
  ∧ TargetObjectsForRelease "r1" "default"
      (sampleClient ["it-r1"] ["tt-r1"; "tt-r1b"] [])
    = failWith (UnexpectedObjectCountFromSelectorError "release=r1" TrafficTargetKind 1 1)
  ∧ TargetObjectsForRelease "r1" "default" (sampleClient [] ["tt-r1"] ["ct-r1"])
    = failWith (UnexpectedObjectCountFromSelectorError "release=r1" InstallationTargetKind 1 0)
  ∧ TargetObjectsForRelease "r1" "default"
      (Build_ShipperClient string string string
         (fun _ _ => inr ["it-r1"]) (fun _ _ => inl "timeout") (fun _ _ => inr []))
    = failWith (ListError "timeout").
Proof. repeat split; reflexivity. Qed.

End TargetsFacts.

(** ** The pod label patch *)

Module PatchFacts.

Import Traffic.

Local Open Scope string_scope.

Lemma append_assoc (a b c : string) : (a ++ b) ++ c = a ++ (b ++ c).
Proof.
  induction a as [|x a IH]; [reflexivity|].
  change ((String x a ++ b) ++ c) with (String x ((a ++ b) ++ c)).
  rewrite IH. reflexivity.
Qed.


(** The patch that enables a pod without the label, byte for byte. *)
Example patch_add_enabled :
  patchPodTrafficStatusLabel {| PodName := "web-1"; PodLabels := {[ "app" := "web" ]} |} Enabled
  = "[{" ++ dquote ++ "op" ++ dquote ++ ":" ++ dquote ++ "add" ++ dquote ++ ","
      ++ dquote ++ "path" ++ dquote ++ ":" ++ dquote ++ "/metadata/labels/traffic-status"
      ++ dquote ++ "," ++ dquote ++ "value" ++ dquote ++ ":" ++ dquote ++ "enabled"
      ++ dquote ++ "}]".
Proof. vm_compute. reflexivity. Qed.

(** The patch that disables a pod that has the label. *)
Example patch_replace_disabled :
  patchPodTrafficStatusLabel
    {| PodName := "web-1"; PodLabels := {[ PodTrafficStatusLabel := Enabled ]} |} Disabled
  = "[{" ++ dquote ++ "op" ++ dquote ++ ":" ++ dquote ++ "replace" ++ dquote ++ ","
      ++ dquote ++ "path" ++ dquote ++ ":" ++ dquote ++ "/metadata/labels/traffic-status"
      ++ dquote ++ "," ++ dquote ++ "value" ++ dquote ++ ":" ++ dquote ++ "disabled"
      ++ dquote ++ "}]".
Proof. vm_compute. reflexivity. Qed.

End PatchFacts.

(** ** Release conditions *)

Module ReleaseFacts.

Import Release.

(** *** The order of the types *)

Lemma ascii_compare_refl (a : ascii) : Ascii.compare a a = Eq.
Proof. unfold Ascii.compare. apply N.compare_refl. Qed.

Lemma ascii_compare_trans (a b c : ascii) :
  Ascii.compare a b = Lt → Ascii.compare b c = Lt → Ascii.compare a c = Lt.
Proof.
  unfold Ascii.compare. rewrite !N.compare_lt_iff. apply N.lt_trans.
Qed.

Lemma string_compare_refl (s : string) : String.compare s s = Eq.
Proof. induction s as [|a s IH]; simpl; [reflexivity|]. by rewrite ascii_compare_refl. Qed.

Lemma string_compare_trans (s t u : string) :
  String.compare s t = Lt → String.compare t u = Lt → String.compare s u = Lt.
Proof.
  revert t u. induction s as [|a s IH]; intros [|b t] [|c u]; simpl; try done.
  destruct (Ascii.compare a b) eqn:Eab; try done;
    destruct (Ascii.compare b c) eqn:Ebc; try done; intros Hst Htu.
  - apply Ascii.compare_eq_iff in Eab, Ebc. subst. rewrite ascii_compare_refl. eauto.
  - apply Ascii.compare_eq_iff in Eab. subst. by rewrite Ebc.
  - apply Ascii.compare_eq_iff in Ebc. subst. by rewrite Eab.
  - by rewrite (ascii_compare_trans a b c).
Qed.

Lemma ltb_irrefl (s : string) : String.ltb s s = false.
Proof. unfold String.ltb. by rewrite string_compare_refl. Qed.

Lemma ltb_trans (s t u : string) :
  String.ltb s t = true → String.ltb t u = true → String.ltb s u = true.
Proof.
  unfold String.ltb.
  destruct (String.compare s t) eqn:E1; try done.
  destruct (String.compare t u) eqn:E2; try done.
  by rewrite (string_compare_trans s t u).
Qed.

Lemma ltb_asym (s t : string) : String.ltb s t = true → String.ltb t s = false.
Proof.
  unfold String.ltb. rewrite (String.compare_antisym s t).
  by destruct (String.compare t s).
Qed.

Lemma ltb_total (s t : string) :
  String.ltb s t = false → String.ltb t s = false → s = t.
Proof.
  unfold String.ltb. rewrite (String.compare_antisym s t).
  destruct (String.compare t s) eqn:E; simpl; try done.
  intros _ _. symmetry. by apply String.compare_eq_iff.
Qed.

Lemma ltb_neq (s t : string) : String.ltb s t = true → s ≠ t.
Proof. intros H ->. by rewrite ltb_irrefl in H. Qed.

Lemma notAbove_trans a b c : notAbove a b → notAbove b c → notAbove a c.
Proof.
  unfold notAbove, less. intros Hab Hbc.
  destruct (String.ltb (CondType c) (CondType a)) eqn:Hca; [|done].
  destruct (String.ltb (CondType a) (CondType b)) eqn:E1.
  - by rewrite (ltb_trans _ _ _ Hca E1) in Hbc.
  - rewrite (ltb_total _ _ E1 Hab) in Hca. by rewrite Hca in Hbc.
Qed.

(** *** The sort *)

Lemma insertBack_perm x l : insertBack x l ≡ₚ x :: l.
Proof.
  induction l as [|y l IH]; simpl; [done|].
  destruct (less x y); [|done]. rewrite IH. apply perm_swap.
Qed.

Lemma insertBack_sorted x l :
  StronglySorted (flip notAbove) l → StronglySorted (flip notAbove) (insertBack x l).
Proof.
  induction 1 as [|y l Hl IH Hy]; simpl.
  - repeat constructor.
  - destruct (less x y) eqn:E.
    + constructor; [done|].
      rewrite insertBack_perm. constructor; [|done].
      unfold flip, notAbove, less in *. by apply ltb_asym.
    + constructor; [by constructor|].
      constructor; [done|].
      eapply Forall_impl; [exact Hy|]. intros z Hz.
      unfold flip in *. by apply notAbove_trans with y.
Qed.

Lemma fold_insertBack_perm l acc :
  fold_left (fun prefixRev x => insertBack x prefixRev) l acc ≡ₚ acc ++ l.
Proof.
  revert acc. induction l as [|x l IH]; intros acc; simpl.
  - by rewrite app_nil_r.
  - rewrite IH, insertBack_perm. simpl. apply Permutation_middle.
Qed.

Lemma fold_insertBack_sorted l acc :
  StronglySorted (flip notAbove) acc →
  StronglySorted (flip notAbove)
    (fold_left (fun prefixRev x => insertBack x prefixRev) l acc).
Proof.
  revert acc. induction l as [|x l IH]; intros acc Hacc; simpl; [done|].
  by apply IH, insertBack_sorted.
Qed.

Lemma sortSlice_perm l : sortSlice l ≡ₚ l.
Proof. unfold sortSlice. by rewrite <- Permutation_rev, fold_insertBack_perm. Qed.

Lemma StronglySorted_rev_flip {A} (R : relation A) l :
  StronglySorted (flip R) l → StronglySorted R (rev l).
Proof.
  induction 1 as [|x l Hl IH Hx]; simpl; [constructor|].
  apply StronglySorted_app_2; [|done|repeat constructor].
  intros a b Ha Hb. apply list_elem_of_singleton in Hb as ->.
  rewrite Forall_forall in Hx. apply Hx.
  apply list_elem_of_In, in_rev, list_elem_of_In. exact Ha.
Qed.

Lemma sortSlice_sorted l : StronglySorted notAbove (sortSlice l).
Proof.
  unfold sortSlice. apply StronglySorted_rev_flip, fold_insertBack_sorted. constructor.
Qed.

(** *** Reading and filtering *)

Lemma Get_Some l T c :
  firstOfType l T = Some c → c ∈ l ∧ CondType c = T.
Proof.
  induction l as [|x l IH]; simpl; [done|].
  destruct (String.eqb_spec (CondType x) T) as [E|E].
  - intros [= <-]. split; [left|done].
  - intros H. destruct (IH H). split; [by right|done].
Qed.

Lemma Get_None l T c :
  firstOfType l T = None → c ∈ l → CondType c ≠ T.
Proof.
  induction l as [|x l IH]; simpl; [by intros _ ?%elem_of_nil|].
  destruct (String.eqb_spec (CondType x) T) as [E|E]; [done|].
  intros H [->|Hc]%elem_of_cons; auto.
Qed.

Lemma Get_unique l T c :
  c ∈ l → CondType c = T → (∀ x, x ∈ l → CondType x = T → x = c) →
  firstOfType l T = Some c.
Proof.
  intros Hc HT Huniq. destruct (firstOfType l T) as [x|] eqn:E.
  - apply Get_Some in E as [Hx HxT]. f_equal. by apply Huniq.
  - by destruct (Get_None _ _ _ E Hc).
Qed.

Lemma filterOut_elem l T x :
  x ∈ filterOutCondition l T ↔ x ∈ l ∧ CondType x ≠ T.
Proof.
  induction l as [|y l IH]; simpl; [set_solver|].
  destruct (String.eqb_spec (CondType y) T) as [E|E].
  - rewrite IH. set_solver.
  - rewrite !elem_of_cons, IH. naive_solver.
Qed.

Lemma filterOut_sorted (R : relation ReleaseCondition) l T :
  StronglySorted R l → StronglySorted R (filterOutCondition l T).
Proof.
  induction 1 as [|x l Hl IH Hx]; simpl; [constructor|].
  destruct (String.eqb (CondType x) T); [done|].
  constructor; [done|].
  rewrite Forall_forall in Hx |- *. intros y [Hy _]%filterOut_elem. auto.
Qed.

Lemma filterOut_NoDup l T :
  NoDup (map CondType l) → NoDup (map CondType (filterOutCondition l T)).
Proof.
  induction l as [|x l IH]; simpl; [done|].
  rewrite NoDup_cons. intros [Hx Hl].
  destruct (String.eqb (CondType x) T); [auto|].
  simpl. rewrite NoDup_cons. split; [|auto].
  rewrite list_elem_of_fmap in Hx |- *. intros (y & Ey & [Hy _]%filterOut_elem).
  apply Hx. eauto.
Qed.

(** *** The invariant *)

Lemma wellOrdered_NoDup l : wellOrdered l → NoDup (map CondType l).
Proof.
  induction 1 as [|x l Hl IH Hx]; simpl; [constructor|].
  rewrite NoDup_cons. split; [|done].
  rewrite list_elem_of_fmap. intros (y & Ey & Hy).
  rewrite Forall_forall in Hx. apply (ltb_neq _ _ (Hx y Hy)). done.
Qed.

Lemma notAbove_NoDup_wellOrdered l :
  StronglySorted notAbove l → NoDup (map CondType l) → wellOrdered l.
Proof.
  induction 1 as [|x l Hl IH Hx]; simpl; [constructor|].
  rewrite NoDup_cons. intros [Hx' Hl']. constructor; [by apply IH|].
  rewrite Forall_forall in Hx |- *. intros y Hy. unfold typeBelow.
  destruct (String.ltb (CondType x) (CondType y)) eqn:E; [done|].
  destruct Hx'. apply list_elem_of_fmap. exists y. split; [|done].
  apply ltb_total; [done|]. apply (Hx y Hy).
Qed.

Lemma wellOrdered_unique l T a b :
  wellOrdered l → a ∈ l → b ∈ l → CondType a = T → CondType b = T → a = b.
Proof.
  intros Hl%wellOrdered_NoDup Ha Hb HTa HTb.
  apply list_elem_of_lookup in Ha as [i Hi], Hb as [j Hj].
  assert (i = j) as ->.
  { eapply NoDup_lookup; [exact Hl| |]; rewrite list_lookup_fmap.
    - by rewrite Hi.
    - rewrite Hj. simpl. congruence. }
  congruence.
Qed.

Lemma appended_NoDup l c :
  NoDup (map CondType l) →
  NoDup (map CondType (filterOutCondition l (CondType c) ++ [c])).
Proof.
  intros Hl. rewrite map_app. apply NoDup_app. repeat split.
  - by apply filterOut_NoDup.
  - intros T (y & -> & [_ Hy]%filterOut_elem)%list_elem_of_fmap HT.
    simpl in HT. apply list_elem_of_singleton in HT. done.
  - simpl. apply NoDup_singleton.
Qed.

Lemma stored_wellOrdered l c :
  wellOrdered l → wellOrdered (sortSlice (filterOutCondition l (CondType c) ++ [c])).
Proof.
  intros Hl. apply notAbove_NoDup_wellOrdered; [apply sortSlice_sorted|].
  rewrite (Permutation_map CondType (sortSlice_perm _)).
  by apply appended_NoDup, wellOrdered_NoDup.
Qed.

Lemma Get_stored l c :
  firstOfType (sortSlice (filterOutCondition l (CondType c) ++ [c])) (CondType c)
  = Some c.
Proof.
  apply Get_unique; [| done |].
  - rewrite sortSlice_perm. set_solver.
  - intros x. rewrite sortSlice_perm, elem_of_app, filterOut_elem, list_elem_of_singleton.
    naive_solver.
Qed.

Lemma IsEmpty_true cur c :
  IsEmpty (NewReleaseConditionDiff cur (Some c)) = true ↔
  ∃ a, cur = Some a ∧ CondType a = CondType c ∧ CondStatus a = CondStatus c
       ∧ Reason a = Reason c ∧ Message a = Message c.
Proof.
  unfold IsEmpty; simpl. destruct cur as [a|]; [|naive_solver].
  rewrite !andb_true_iff, !String.eqb_eq. naive_solver.
Qed.

Lemma Set_wellOrdered status c :
  wellOrdered (Conditions status) →
  wellOrdered (Conditions (SetReleaseCondition status c).1).
Proof.
  intros Hl. unfold SetReleaseCondition.
  destruct (IsEmpty _); [done|]. simpl.
  destruct (GetReleaseCondition _ _) as [cur|]; [|by apply stored_wellOrdered].
  destruct (String.eqb _ _); [|by apply stored_wellOrdered].
  by apply (stored_wellOrdered _ (withLastTransitionTime c _)).
Qed.

(** C6.  Setting a condition that agrees with the stored condition of its
    type in type, status, reason and message changes nothing and returns
    no diff; in particular writing back what was read is a no-op.  When
    the stored condition has the same status, the condition stored after
    the call carries the transition time that was stored before; when the
    status differs, or no condition of the type was stored, the new
    condition is stored with its own transition time. *)
Theorem SetReleaseCondition_transition_time (status : ReleaseStatus) (c : ReleaseCondition) :
  (∀ cur,
      GetReleaseCondition status (CondType c) = Some cur →
      CondStatus cur = CondStatus c → Reason cur = Reason c → Message cur = Message c →
      SetReleaseCondition status c = (status, None))
  ∧ (∀ T cur,
      GetReleaseCondition status T = Some cur →
      SetReleaseCondition status cur = (status, None))
  ∧ (∀ cur,
      GetReleaseCondition status (CondType c) = Some cur →
      CondStatus cur = CondStatus c →
      GetReleaseCondition (SetReleaseCondition status c).1 (CondType c)
      = Some (withLastTransitionTime c (LastTransitionTime cur)))
  ∧ (∀ cur,
      GetReleaseCondition status (CondType c) = Some cur →
      CondStatus cur ≠ CondStatus c →
      GetReleaseCondition (SetReleaseCondition status c).1 (CondType c)
      = Some c)
  ∧ (GetReleaseCondition status (CondType c) = None →
      GetReleaseCondition (SetReleaseCondition status c).1 (CondType c)
      = Some c).
Proof.
  assert (Hsame : ∀ c' cur,
             GetReleaseCondition status (CondType c') = Some cur →
             CondStatus cur = CondStatus c' → Reason cur = Reason c' →
             Message cur = Message c' →
             SetReleaseCondition status c' = (status, None)).
  { intros c' cur Hget Hs Hr Hm. unfold SetReleaseCondition.
    destruct (IsEmpty _) eqn:E; [done|].
    assert (IsEmpty (NewReleaseConditionDiff
                       (GetReleaseCondition status (CondType c'))
                       (Some c')) = true) as E'; [|congruence].
    apply IsEmpty_true. exists cur. by destruct (Get_Some _ _ _ Hget). }
  split; [exact (Hsame c)|]. split.
  { intros T cur Hget. destruct (Get_Some _ _ _ Hget) as [_ <-]. by apply Hsame with cur. }
  split.
  { intros cur Hget Hs. unfold SetReleaseCondition. rewrite Hget.
    destruct (IsEmpty _) eqn:E; simpl.
    - apply IsEmpty_true in E as (a & [= <-] & HT & _ & Hr & Hm).
      rewrite Hget. f_equal. unfold withLastTransitionTime.
      destruct cur, c; simpl in *. subst. reflexivity.
    - rewrite (proj2 (String.eqb_eq _ _) Hs).
      apply (Get_stored _ (withLastTransitionTime c (LastTransitionTime cur))). }
  split.
  { intros cur Hget Hs. unfold SetReleaseCondition. rewrite Hget.
    destruct (IsEmpty _) eqn:E; simpl.
    - apply IsEmpty_true in E as (a & [= <-] & _ & Hs' & _). done.
    - rewrite (proj2 (String.eqb_neq _ _) Hs). apply Get_stored. }
  intros Hget. unfold SetReleaseCondition. rewrite Hget. simpl. apply Get_stored.
Qed.

(** C7, as the claim has it for any status: refuted by a status that holds
    two conditions of one type when a condition of another type is set. *)
Lemma SetReleaseCondition_any_status_counterexample :
  ¬ (∀ status c, wellOrdered (Conditions (SetReleaseCondition status c).1)).
Proof.
  intros H.
  specialize (H {| Phase := "WaitingForCommand"; AchievedStep := 0;
                   Conditions :=
                     [ {| CondType := "Complete"; CondStatus := "True";
                          LastTransitionTime := 1; Reason := ""; Message := "" |};
                       {| CondType := "Complete"; CondStatus := "False";
                          LastTransitionTime := 2; Reason := ""; Message := "" |} ] |}
                {| CondType := "Scheduled"; CondStatus := "True";
                   LastTransitionTime := 3; Reason := ""; Message := "" |}).
  apply wellOrdered_NoDup in H. vm_compute in H.
  apply NoDup_cons in H as [H _]. apply H. left.
Qed.

(** C7.  When the condition list has at most one condition per type and is
    in ascending order of the types, it still has after
    [SetReleaseCondition], after filtering a type out and after
    [RemoveReleaseCondition]; hence it has after every sequence of set and
    remove operations that starts from the empty list.  In such a list no
    type occurs twice. *)
Theorem conditions_wellOrdered :
  (∀ status c,
      wellOrdered (Conditions status) →
      wellOrdered (Conditions (SetReleaseCondition status c).1))
  ∧ (∀ status T,
      wellOrdered (Conditions status) →
      wellOrdered (filterOutCondition (Conditions status) T)
      ∧ wellOrdered (Conditions (RemoveReleaseCondition status T)))
  ∧ (∀ status ops,
      Conditions status = [] →
      wellOrdered (Conditions (applyOperations status ops)))
  ∧ (∀ l, wellOrdered l → NoDup (map CondType l)).
Proof.
  split; [exact Set_wellOrdered|]. split.
  { intros status T Hl. split; [by apply filterOut_sorted|done]. }
  split; [|exact wellOrdered_NoDup].
  intros status ops Hnil.
  assert (Hl : wellOrdered (Conditions status)) by (rewrite Hnil; constructor).
  clear Hnil. revert status Hl. unfold applyOperations.
  induction ops as [|o ops IH]; intros status Hl; simpl; [done|].
  apply IH. destruct o as [c|T]; simpl; [by apply Set_wellOrdered|done].
Qed.

(** Three writes from the empty status: the list is kept in the order of the
    types, a new reason keeps the transition time, a new status replaces
    it. *)
Example conditions_scenario :
  let s1 := (SetReleaseCondition emptyStatus
               (conditionAt "Scheduled" "True" "" "" 10)).1 in
  let s2 := (SetReleaseCondition s1
               (conditionAt "Complete" "False" "InProgress" "" 20)).1 in
  let s3 := (SetReleaseCondition s2
               (conditionAt "Complete" "False" "Waiting" "" 30)).1 in
  let s4 := (SetReleaseCondition s3
               (conditionAt "Complete" "True" "Done" "" 40)).1 in
  Conditions s2 = [conditionAt "Complete" "False" "InProgress" "" 20;
                   conditionAt "Scheduled" "True" "" "" 10]
  ∧ Conditions s3 = [conditionAt "Complete" "False" "Waiting" "" 20;
                     conditionAt "Scheduled" "True" "" "" 10]
  ∧ Conditions s4 = [conditionAt "Complete" "True" "Done" "" 40;
                     conditionAt "Scheduled" "True" "" "" 10]
  ∧ SetReleaseCondition s4 (conditionAt "Complete" "True" "Done" "" 50) = (s4, None)
  ∧ RemoveReleaseCondition s4 "Complete" = s4.
Proof. vm_compute. repeat split; reflexivity. Qed.

(** The text of a diff. *)
Example diff_text :
  DiffString (NewReleaseConditionDiff
                (Some (conditionAt "Complete" "False" "InProgress" "" 20))
                (Some (conditionAt "Complete" "True" "Done" "all clusters" 40)))
  = "[Complete False InProgress] -> [Complete True Done all clusters]".
Proof. vm_compute. reflexivity. Qed.

End ReleaseFacts.

(** ** The weight table *)

Module BuildFacts.

Import Traffic.

Lemma wrap32_add_l a b : GoInt.wrap32 (GoInt.wrap32 a + b) = GoInt.wrap32 (a + b).
Proof. unfold GoInt.wrap32. by rewrite Zplus_mod_idemp_l. Qed.

Lemma hasCluster_false_weight c l : hasCluster c l = false → entriesWeight c l = 0.
Proof.
  induction l as [|e l IH]; simpl; [done|].
  destruct (String.eqb (ClusterName e) c); simpl; [done|]. intros H. by rewrite IH.
Qed.

Lemma tableWeight_add release cr e c r :
  tableWeight (addClusterWeight release cr e) c r
  = if decide (ClusterName e = c ∧ release = r)
    then Some (GoInt.wrap32 (default 0 (tableWeight cr c release) + ClusterWeight e))
    else tableWeight cr c r.
Proof.
  unfold tableWeight, addClusterWeight.
  destruct (decide (ClusterName e = c)) as [<-|Hc].
  - rewrite lookup_insert_eq. simpl.
    destruct (decide (release = r)) as [<-|Hr].
    + rewrite lookup_insert_eq, decide_True by done.
      by destruct (cr !! ClusterName e).
    + rewrite lookup_insert_ne, decide_False by naive_solver.
      by destruct (cr !! ClusterName e).
  - rewrite lookup_insert_ne, decide_False by naive_solver. done.
Qed.

Lemma tableWeight_fold release l cr c r :
  tableWeight (fold_left (addClusterWeight release) l cr) c r
  = if decide (release = r) then
      if hasCluster c l
      then Some (GoInt.wrap32 (default 0 (tableWeight cr c release) + entriesWeight c l))
      else tableWeight cr c release
    else tableWeight cr c r.
Proof.
  revert cr. induction l as [|e l IH]; intros cr; simpl.
  - by destruct (decide (release = r)) as [->|].
  - rewrite IH. destruct (decide (release = r)) as [<-|Hr].
    + rewrite tableWeight_add.
      destruct (String.eqb_spec (ClusterName e) c) as [E|E]; simpl.
      * rewrite decide_True by done. simpl.
        destruct (hasCluster c l) eqn:Hl.
        -- by rewrite wrap32_add_l, Z.add_assoc.
        -- by rewrite (hasCluster_false_weight _ _ Hl), Z.add_0_r.
      * rewrite decide_False by naive_solver. done.
    + rewrite tableWeight_add, decide_False by naive_solver. done.
Qed.

Lemma lookup_add release cr e c :
  addClusterWeight release cr e !! c = None ↔ cr !! c = None ∧ ClusterName e ≠ c.
Proof.
  unfold addClusterWeight. destruct (decide (ClusterName e = c)) as [<-|Hc].
  - rewrite lookup_insert_eq. naive_solver.
  - rewrite lookup_insert_ne by done. naive_solver.
Qed.

Lemma lookup_fold release l cr c :
  fold_left (addClusterWeight release) l cr !! c = None
  ↔ cr !! c = None ∧ hasCluster c l = false.
Proof.
  revert cr. induction l as [|e l IH]; intros cr; simpl; [naive_solver|].
  rewrite IH, lookup_add, orb_false_iff.
  destruct (String.eqb_spec (ClusterName e) c); naive_solver.
Qed.

(** The loop succeeds exactly when every target has a release label, none of
    the labels is known already, and no label occurs twice. *)
Lemma buildLoop_ok_iff tts cr rtt :
  (∃ table, buildLoop tts cr rtt = inr table)
  ↔ (∀ t, t ∈ tts → ∃ r, releaseOf t = Some r ∧ rtt !! r = None)
    ∧ NoDup (map releaseOf tts).
Proof.
  revert cr rtt. induction tts as [|t tts IH]; intros cr rtt; simpl.
  - split; [|eauto]. intros _. split; [by intros ? ?%elem_of_nil|constructor].
  - destruct (releaseOf t) as [r0|] eqn:Er.
    + destruct (rtt !! r0) as [existing|] eqn:Ertt.
      * split; [by intros [? ?]|]. intros [H _].
        destruct (H t) as (r & Hr & Hnone); [left|]. congruence.
      * rewrite IH, NoDup_cons. split.
        -- intros [H Hnd]. split; [|split; [|done]].
           ++ intros t' [->|Ht']%elem_of_cons; [eauto|].
              destruct (H t' Ht') as (r & Hr & Hnone).
              apply lookup_insert_None in Hnone as [? ?]. eauto.
           ++ intros (t' & Et' & Ht')%list_elem_of_fmap.
              destruct (H t' Ht') as (r & Hr & Hnone).
              apply lookup_insert_None in Hnone as [? ?]. congruence.
        -- intros [H [Hnot Hnd]]. split; [|done].
           intros t' Ht'. destruct (H t') as (r & Hr & Hnone); [by right|].
           exists r. split; [done|]. apply lookup_insert_None. split; [done|].
           intros <-. apply Hnot. apply list_elem_of_fmap. exists t'. split; [congruence|done].
    + split; [by intros [? ?]|]. intros [H _].
      destruct (H t) as (r & Hr & _); [left|]. congruence.
Qed.

Lemma buildLoop_table tts cr rtt table :
  buildLoop tts cr rtt = inr table →
  (∀ t c r, t ∈ tts → releaseOf t = Some r →
     tableWeight table c r
     = if hasCluster c (TTClusters t)
       then Some (GoInt.wrap32 (default 0 (tableWeight cr c r)
                                + entriesWeight c (TTClusters t)))
       else tableWeight cr c r)
  ∧ (∀ c r, (∀ t, t ∈ tts → releaseOf t ≠ Some r) →
       tableWeight table c r = tableWeight cr c r)
  ∧ (∀ c, table !! c = None
          ↔ cr !! c = None ∧ ∀ t, t ∈ tts → hasCluster c (TTClusters t) = false).
Proof.
  revert cr rtt. induction tts as [|t tts IH]; intros cr rtt Hok.
  - simpl in Hok. injection Hok as <-. split; [|split].
    + by intros ? ? ? ?%elem_of_nil.
    + done.
    + intros c. split; [|by intros [? _]]. intros ?. split; [done|]. by intros ? ?%elem_of_nil.
  - pose proof (proj1 (buildLoop_ok_iff _ _ _) (ex_intro _ _ Hok)) as [Hlab Hnd].
    simpl in Hok, Hnd. apply NoDup_cons in Hnd as [Hfresh Hnd].
    destruct (releaseOf t) as [r0|] eqn:Er; [|done].
    destruct (rtt !! r0) eqn:Ertt; [done|].
    destruct (IH _ _ Hok) as (IH1 & IH2 & IH3). clear IH.
    assert (Hrest : ∀ t', t' ∈ tts → releaseOf t' ≠ Some r0).
    { intros t' Ht' E. apply Hfresh. apply list_elem_of_fmap. eauto. }
    split; [|split].
    + intros t' c r [->|Ht']%elem_of_cons Hr.
      * assert (r = r0) as -> by congruence.
        rewrite (IH2 c r0 Hrest), tableWeight_fold, decide_True by done. done.
      * rewrite (IH1 t' c r Ht' Hr), tableWeight_fold.
        rewrite decide_False; [done|]. intros <-. by apply (Hrest t').
    + intros c r Hnone. rewrite IH2, tableWeight_fold.
      * rewrite decide_False; [done|]. intros <-. apply (Hnone t); [left|done].
      * intros t' Ht'. apply Hnone. by right.
    + intros c. rewrite IH3, lookup_fold. split.
      * intros [[? ?] ?]. split; [done|]. by intros t' [->|?]%elem_of_cons; auto.
      * intros [? H]. repeat split; [done|apply H; left|intros; apply H; by right].
Qed.

Lemma not_NoDup_labels (l : list (option string)) :
  ¬ NoDup l → ∃ i j x, i ≠ j ∧ l !! i = Some x ∧ l !! j = Some x.
Proof.
  induction l as [|x l IH]; [intros H; destruct H; constructor|].
  rewrite NoDup_cons. intros H.
  destruct (decide (x ∈ l)) as [Hx|Hx].
  - apply list_elem_of_lookup in Hx as [j Hj]. exists 0%nat, (S j), x. done.
  - destruct IH as (i & j & y & Hij & Hi & Hj); [tauto|].
    exists (S i), (S j), y. simpl. repeat split; [lia|done..].
Qed.

Lemma build_cases tts :
  (∃ table, buildClusterReleaseWeights tts = inr table)
  ∨ (∃ err, buildClusterReleaseWeights tts = inl err).
Proof. destruct (buildClusterReleaseWeights tts); eauto. Qed.

Lemma build_ok_iff tts :
  (∃ table, buildClusterReleaseWeights tts = inr table)
  ↔ (∀ t, t ∈ tts → is_Some (releaseOf t)) ∧ NoDup (map releaseOf tts).
Proof.
  unfold buildClusterReleaseWeights. rewrite buildLoop_ok_iff.
  split; intros [H Hnd]; (split; [|done]); intros t Ht.
  - destruct (H t Ht) as (r & -> & _). eauto.
  - destruct (H t Ht) as [r Hr]. exists r. by rewrite lookup_empty.
Qed.

Lemma build_error_iff tts :
  (∃ err, buildClusterReleaseWeights tts = inl err)
  ↔ missingLabel tts ∨ duplicateLabel tts.
Proof.
  split.
  - intros [err Herr].
    destruct (decide (Exists (λ t, releaseOf t = None) tts)) as [Hex|Hall].
    { left. apply Exists_exists in Hex. exact Hex. }
    assert (Hlab : ∀ t, t ∈ tts → is_Some (releaseOf t)).
    { intros t Ht. destruct (releaseOf t) eqn:E; [eauto|].
      destruct Hall. apply Exists_exists. eauto. }
    right. destruct (decide (NoDup (map releaseOf tts))) as [Hnd|Hnd].
    { destruct (proj2 (build_ok_iff tts) (conj Hlab Hnd)) as [table Ht]. congruence. }
    apply not_NoDup_labels in Hnd as (i & j & x & Hij & Hi & Hj).
    rewrite list_lookup_fmap in Hi, Hj.
    destruct (tts !! i) as [ti|] eqn:Eti; [|done].
    destruct (tts !! j) as [tj|] eqn:Etj; [|done].
    simpl in Hi, Hj. injection Hi as Hi. injection Hj as Hj.
    destruct (Hlab ti) as [r Hr]; [by eapply list_elem_of_lookup_2|].
    exists i, j, ti, tj, r. repeat split; try done. congruence.
  - intros Hbad. destruct (build_cases tts) as [Hok|Herr]; [|done].
    apply build_ok_iff in Hok as [Hlab Hnd]. destruct Hbad as [Hm|Hd].
    + destruct Hm as (t & Ht & Hnone). destruct (Hlab t Ht) as [r Hr]. congruence.
    + destruct Hd as (i & j & ti & tj & r & Hij & Hi & Hj & Hri & Hrj).
      destruct Hij. eapply NoDup_lookup; [exact Hnd| |]; rewrite list_lookup_fmap.
      * rewrite Hi. simpl. by rewrite Hri.
      * rewrite Hj. simpl. by rewrite Hrj.
Qed.

(** C4, as the claim has it with the plain sum: refuted by a traffic target
    with two entries for one cluster whose weights add up to [2^32]; the
    table then holds 0. *)
Lemma buildClusterReleaseWeights_sum_counterexample :
  ¬ (∀ tts table t cluster release,
        buildClusterReleaseWeights tts = inr table →
        t ∈ tts → releaseOf t = Some release →
        hasCluster cluster (TTClusters t) = true →
        tableWeight table cluster release = Some (entriesWeight cluster (TTClusters t))).
Proof.
  intros H.
  pose (t := {| TTNamespace := "default"; TTName := "reviewsapi-1";
                TTLabels := {[ ReleaseLabel := "reviewsapi-1" ]};
                TTClusters := [ {| ClusterName := "cluster-1"; ClusterWeight := 2147483648 |};
                                {| ClusterName := "cluster-1"; ClusterWeight := 2147483648 |} ] |}).
  specialize (H [t] _ t "cluster-1" "reviewsapi-1" eq_refl).
  vm_compute in H. discriminate H; [left|reflexivity..].
Qed.

(** C4.  The function fails exactly when some traffic target lacks the
    release label or two traffic targets carry the same one.  Otherwise the
    table holds, for a release and a cluster, the sum modulo [2^32] of the
    weights of the cluster's entries in the release's traffic target, when
    it has such entries, and nothing when it has none; it holds nothing for
    a release without traffic target, and has a cluster exactly when some
    traffic target has an entry for it. *)
Theorem buildClusterReleaseWeights_spec (trafficTargets : list TrafficTarget) :
  ((∃ err, buildClusterReleaseWeights trafficTargets = inl err)
   ↔ missingLabel trafficTargets ∨ duplicateLabel trafficTargets)
  ∧ (∀ table,
      buildClusterReleaseWeights trafficTargets = inr table →
      (∀ target cluster release,
          target ∈ trafficTargets → releaseOf target = Some release →
          tableWeight table cluster release
          = if hasCluster cluster (TTClusters target)
            then Some (GoInt.wrap32 (entriesWeight cluster (TTClusters target)))
            else None)
      ∧ (∀ cluster release,
          (∀ target, target ∈ trafficTargets → releaseOf target ≠ Some release) →
          tableWeight table cluster release = None)
      ∧ (∀ cluster,
          table !! cluster = None
          ↔ ∀ target, target ∈ trafficTargets →
                       hasCluster cluster (TTClusters target) = false)).
Proof.
  split; [apply build_error_iff|].
  intros table Hok. destruct (buildLoop_table _ _ _ _ Hok) as (H1 & H2 & H3).
  split; [|split].
  - intros t c r Ht Hr. rewrite (H1 t c r Ht Hr). done.
  - intros c r Hnone. rewrite (H2 c r Hnone). done.
  - intros c. rewrite H3, lookup_empty. naive_solver.
Qed.

(** C5, as the claim has it with equal results: refuted by two traffic
    targets without release label, where the error names the one that comes
    first. *)
Lemma buildClusterReleaseWeights_order_counterexample :
  ¬ (∀ tts tts', tts ≡ₚ tts' →
       buildClusterReleaseWeights tts = buildClusterReleaseWeights tts').
Proof.
  intros H.
  pose (a := {| TTNamespace := "default"; TTName := "a"; TTLabels := ∅; TTClusters := [] |}).
  pose (b := {| TTNamespace := "default"; TTName := "b"; TTLabels := ∅; TTClusters := [] |}).
  specialize (H [a; b] [b; a] (perm_swap _ _ _)). vm_compute in H. discriminate H.
Qed.

(** C5.  On a permutation of its input the function fails when it fails on
    the input, and otherwise returns the same table. *)
Theorem buildClusterReleaseWeights_permutation (tts tts' : list TrafficTarget) :
  tts ≡ₚ tts' →
  match buildClusterReleaseWeights tts, buildClusterReleaseWeights tts' with
  | inr table, inr table' => table = table'
  | inl _, inl _ => True
  | _, _ => False
  end.
Proof.
  intros Hp.
  assert (Hok : (∃ table, buildClusterReleaseWeights tts = inr table)
                ↔ (∃ table, buildClusterReleaseWeights tts' = inr table)).
  { rewrite !build_ok_iff. setoid_rewrite Hp. done. }
  destruct (buildClusterReleaseWeights tts) as [e|a] eqn:Ea;
    destruct (buildClusterReleaseWeights tts') as [e'|b] eqn:Eb; try done.
  - destruct (proj2 Hok (ex_intro _ b eq_refl)). done.
  - destruct (proj1 Hok (ex_intro _ a eq_refl)). done.
  - destruct (buildLoop_table _ _ _ _ Ea) as (A1 & A2 & A3).
    destruct (buildLoop_table _ _ _ _ Eb) as (B1 & B2 & B3).
    assert (Hw : ∀ c r, tableWeight a c r = tableWeight b c r).
    { intros c r.
      destruct (decide (Exists (λ t, releaseOf t = Some r) tts)) as [Hex|Hno].
      - apply Exists_exists in Hex as (t & Ht & Hr).
        rewrite (A1 t c r Ht Hr), (B1 t c r); [done| |done]. by rewrite <- Hp.
      - assert (∀ t, t ∈ tts → releaseOf t ≠ Some r) as Hnone.
        { intros t Ht Hr. apply Hno, Exists_exists. eauto. }
        rewrite A2, B2; [done| |done]. intros t Ht. apply Hnone. by rewrite Hp. }
    apply map_eq. intros c.
    destruct (a !! c) as [wa|] eqn:Eac; destruct (b !! c) as [wb|] eqn:Ebc; try done.
    + f_equal. apply map_eq. intros r.
      specialize (Hw c r). unfold tableWeight in Hw. by rewrite Eac, Ebc in Hw.
    + apply B3 in Ebc as [_ Hb]. assert (a !! c = None) as E; [|congruence].
      apply A3. split; [done|]. intros t Ht. apply Hb. by rewrite <- Hp.
    + apply A3 in Eac as [_ Ha]. assert (b !! c = None) as E; [|congruence].
      apply B3. split; [done|]. intros t Ht. apply Ha. by rewrite Hp.
Qed.

(** Two traffic targets in either order give the same table. *)
Lemma buildClusterReleaseWeights_permutation_witness :
  match buildClusterReleaseWeights [sampleTarget1; sampleTarget2],
        buildClusterReleaseWeights [sampleTarget2; sampleTarget1] with
  | inr table, inr table' => table = table'
  | inl _, inl _ => True
  | _, _ => False
  end.
Proof.
  apply (buildClusterReleaseWeights_permutation
           [sampleTarget1; sampleTarget2] [sampleTarget2; sampleTarget1]).
  apply perm_swap.
Defined.

(** The table of the source's comment: three releases in one cluster. *)
Example buildClusterReleaseWeights_three_releases :
  buildClusterReleaseWeights [sampleTarget1; sampleTarget2; sampleTarget3]
  = inr {[ "cluster-1" := {[ "reviewsapi-1" := 90; "reviewsapi-2" := 5; "reviewsapi-3" := 5 ]} ]}.
Proof. vm_compute. reflexivity. Qed.

(** Two traffic targets for one release are refused, with both names. *)
Example buildClusterReleaseWeights_duplicate :
  buildClusterReleaseWeights
    [sampleTarget1;
     {| TTNamespace := "default"; TTName := "tt-other";
        TTLabels := {[ ReleaseLabel := "reviewsapi-1" ]}; TTClusters := [] |}]
  = inl (DuplicateRelease "tt-reviewsapi-1" "tt-other" "default" "reviewsapi-1").
Proof. vm_compute. reflexivity. Qed.

End BuildFacts.

(** ** Floating-point facts *)

Module FloatFacts.

Import F64.

(** *** Binary digits *)

Lemma digits2_pos_bounds (p : positive) :
  2 ^ (Zpos (digits2_pos p) - 1) <= Zpos p < 2 ^ Zpos (digits2_pos p).
Proof.
  induction p as [p IH|p IH|]; simpl digits2_pos.
  - rewrite Pos2Z.inj_succ. replace (Z.succ (Zpos (digits2_pos p)) - 1) with (Zpos (digits2_pos p)) by lia.
    rewrite Z.pow_succ_r by lia.
    assert (2 ^ Zpos (digits2_pos p) = 2 * 2 ^ (Zpos (digits2_pos p) - 1)) as E.
    { rewrite <- Z.pow_succ_r by lia. f_equal. lia. }
    lia.
  - rewrite Pos2Z.inj_succ. replace (Z.succ (Zpos (digits2_pos p)) - 1) with (Zpos (digits2_pos p)) by lia.
    rewrite Z.pow_succ_r by lia.
    assert (2 ^ Zpos (digits2_pos p) = 2 * 2 ^ (Zpos (digits2_pos p) - 1)) as E.
    { rewrite <- Z.pow_succ_r by lia. f_equal. lia. }
    lia.
  - simpl. lia.
Qed.

Lemma digits2_pos_le (p : positive) (d : Z) :
  Zpos p < 2 ^ d → Zpos (digits2_pos p) <= d.
Proof.
  intros H. destruct (digits2_pos_bounds p) as [Hlo _].
  destruct (Z_le_gt_dec (Zpos (digits2_pos p)) d) as [|Hgt]; [done|].
  assert (2 ^ d <= 2 ^ (Zpos (digits2_pos p) - 1)).
  { apply Z.pow_le_mono_r; lia. }
  lia.
Qed.

Lemma digits2_pos_gt (p : positive) (d : Z) :
  0 <= d → 2 ^ d <= Zpos p → d < Zpos (digits2_pos p).
Proof.
  intros Hd H. destruct (digits2_pos_bounds p) as [_ Hhi].
  destruct (Z_lt_ge_dec d (Zpos (digits2_pos p))) as [|Hge]; [done|].
  assert (2 ^ Zpos (digits2_pos p) <= 2 ^ d).
  { apply Z.pow_le_mono_r; lia. }
  lia.
Qed.

Lemma digits2_pos_mono (p q : positive) :
  (p <= q)%positive → Zpos (digits2_pos p) <= Zpos (digits2_pos q).
Proof.
  intros H. apply digits2_pos_le.
  destruct (digits2_pos_bounds q) as [_ Hhi]. lia.
Qed.

Lemma iter_xO_value (p k : positive) : Zpos (Pos.iter xO p k) = Zpos p * 2 ^ Zpos k.
Proof.
  induction k as [|k IH] using Pos.peano_ind.
  - simpl. lia.
  - rewrite Pos.iter_succ, Pos2Z.inj_xO, IH, Pos2Z.inj_succ, Z.pow_succ_r by lia. lia.
Qed.

Lemma iter_xO_digits (p k : positive) :
  digits2_pos (Pos.iter xO p k) = (digits2_pos p + k)%positive.
Proof.
  induction k as [|k IH] using Pos.peano_ind.
  - simpl. lia.
  - rewrite Pos.iter_succ. simpl. rewrite IH. lia.
Qed.

(** *** Conversions from integers *)

Lemma binary_round_aux_signed sx mx ex lx :
  signed sx (binary_round_aux prec emax sx mx ex lx).
Proof.
  unfold binary_round_aux.
  destruct (shr_fexp _ _ _ _ _) as [mrs' e'].
  destruct (shr_fexp _ _ _ _ _) as [mrs'' e''].
  destruct (shr_m mrs''); simpl; [done| |done].
  destruct (Z.leb _ _); done.
Qed.

Lemma shr_exponent mrs e n : (shr mrs e n).2 = e + Z.max 0 n.
Proof. destruct n; simpl; lia. Qed.

Lemma binary_round_aux_exponent sx mx ex lx s m e :
  binary_round_aux prec emax sx mx ex lx = S754_finite s m e →
  Z.max ex (fexp prec emax (Zdigits2 mx + ex)) <= e.
Proof.
  unfold binary_round_aux, shr_fexp.
  pose proof (shr_exponent (shr_record_of_loc mx lx) ex
                (fexp prec emax (Zdigits2 mx + ex) - ex)) as H1.
  destruct (shr _ _ _) as [mrs' e']. simpl in H1.
  pose proof (shr_exponent
                (shr_record_of_loc (round_nearest_even (shr_m mrs') (loc_of_shr_record mrs')) loc_Exact)
                e'
                (fexp prec emax (Zdigits2 (round_nearest_even (shr_m mrs') (loc_of_shr_record mrs')) + e') - e')) as H2.
  destruct (shr _ _ _) as [mrs'' e'']. simpl in H2.
  destruct (shr_m mrs''); try discriminate.
  destruct (Z.leb _ _); [|discriminate]. intros [= _ _ <-]. lia.
Qed.

Lemma binary_round_aux_canonical sx m e :
  Zpos (digits2_pos m) = 53 → -1074 <= e <= 971 →
  binary_round_aux prec emax sx (Zpos m) e loc_Exact = S754_finite sx m e.
Proof.
  intros Hd He. unfold binary_round_aux, shr_fexp, fexp, emin, prec, emax. simpl Zdigits2.
  assert (E : Z.max (53 + e - 53) (3 - 1024 - 53) - e = 0) by lia.
  rewrite Hd, E. simpl. rewrite Hd, E. simpl.
  destruct (Z.leb_spec e (1024 - 53)); [done|lia].
Qed.

Lemma of_int_exact (p : positive) :
  Zpos p < 2 ^ 53 →
  of_int (Zpos p) = S754_finite false (normal p) (Zpos (digits2_pos p) - 53)
  ∧ Zpos (normal p) = Zpos p * 2 ^ (53 - Zpos (digits2_pos p)).
Proof.
  intros Hp. pose proof (digits2_pos_le p 53 Hp) as Hd.
  unfold of_int, binary_normalize, binary_round, shl_align, fexp, emin, normal, prec, emax.
  replace (Z.max (Zpos (digits2_pos p) + 0 - 53) (3 - 1024 - 53))
    with (Zpos (digits2_pos p) - 53) by lia.
  rewrite Z.sub_0_r.
  destruct (Zpos (digits2_pos p) - 53) as [|k|k] eqn:Ek; [| exfalso; lia |].
  - split.
    + rewrite binary_round_aux_canonical; [done|lia|lia].
    + replace (53 - Zpos (digits2_pos p)) with 0 by lia. lia.
  - split.
    + rewrite binary_round_aux_canonical; [done| |lia].
      rewrite iter_xO_digits. lia.
    + rewrite iter_xO_value. f_equal. f_equal. lia.
Qed.

Lemma of_int_zero : of_int 0 = zero.
Proof. reflexivity. Qed.

Lemma trunc_exact (p : positive) :
  Zpos p < 2 ^ 53 → trunc (of_int (Zpos p)) = Some (Zpos p).
Proof.
  intros Hp. destruct (of_int_exact p Hp) as [-> Hm]. simpl.
  pose proof (digits2_pos_le p 53 Hp) as Hd. f_equal.
  destruct (Zpos (digits2_pos p) - 53) as [|k|k] eqn:Ek; [|exfalso; lia|].
  - rewrite Hm. replace (53 - Zpos (digits2_pos p)) with 0 by lia. lia.
  - rewrite Hm. replace (- Z.neg k) with (53 - Zpos (digits2_pos p)) by lia.
    apply Z.div_mul. apply Z.pow_nonzero; lia.
Qed.

Lemma to_int_of_int (n : Z) : 0 <= n < 2 ^ 53 → to_int (of_int n) = n.
Proof.
  intros Hn. destruct n as [|p|p]; [reflexivity| |lia].
  unfold to_int. rewrite trunc_exact by lia.
  destruct (Z.leb_spec (- 2 ^ 63) (Zpos p)); [|lia].
  destruct (Z.ltb_spec (Zpos p) (2 ^ 63)); [done|]. lia.
Qed.

Lemma ltb_exact (p q : positive) :
  Zpos p < 2 ^ 53 → Zpos q < 2 ^ 53 → Zpos p < Zpos q →
  ltb (of_int (Zpos p)) (of_int (Zpos q)) = true.
Proof.
  intros Hp Hq Hpq.
  destruct (of_int_exact p Hp) as [-> Hmp]. destruct (of_int_exact q Hq) as [-> Hmq].
  unfold ltb, SFltb, SFcompare.
  pose proof (digits2_pos_mono p q ltac:(lia)) as Hd.
  destruct (Z.compare_spec (Zpos (digits2_pos p) - 53) (Zpos (digits2_pos q) - 53)) as [E|E|E];
    [|done|lia].
  assert (Zpos (normal p) < Zpos (normal q)) as Hlt.
  { rewrite Hmp, Hmq. replace (Zpos (digits2_pos q)) with (Zpos (digits2_pos p)) by lia.
    apply Z.mul_lt_mono_pos_r; [|done]. apply Z.pow_pos_nonneg; [lia|].
    pose proof (digits2_pos_le p 53 Hp). lia. }
  rewrite Pos.compare_cont_spec. simpl.
  by rewrite (proj2 (Pos.compare_lt_iff _ _) Hlt).
Qed.

Lemma of_int_large (p : positive) : 2 ^ 53 <= Zpos p → large (of_int (Zpos p)).
Proof.
  intros Hp. pose proof (digits2_pos_gt p 53 ltac:(lia) Hp) as Hd.
  unfold of_int, binary_normalize, binary_round, shl_align.
  assert (E : fexp prec emax (Zpos (digits2_pos p) + 0) = Zpos (digits2_pos p) - 53).
  { unfold fexp, emin, prec, emax. lia. }
  rewrite E.
  destruct (Zpos (digits2_pos p) - 53 - 0) as [|k|k] eqn:Ek; [exfalso; lia| |exfalso; lia].
  pose proof (binary_round_aux_signed false (Zpos p) 0 loc_Exact) as Hs.
  pose proof (binary_round_aux_exponent false (Zpos p) 0 loc_Exact) as He.
  destruct (binary_round_aux prec emax false (Zpos p) 0 loc_Exact) as [s|s| |s m e];
    simpl in *; try done.
  split; [done|]. specialize (He s m e eq_refl). rewrite E in He. lia.
Qed.

Lemma of_int_negative (p : positive) : signed true (of_int (Zneg p)).
Proof.
  unfold of_int, binary_normalize, binary_round.
  destruct (shl_align _ _ _) as [mz ez]. apply binary_round_aux_signed.
Qed.

Lemma to_int_negative (f : float64) : signed true f → to_int f <= 0.
Proof.
  unfold to_int, GoInt.min_int64.
  destruct f as [s|s| |s m e]; simpl; intros Hs; try lia.
  subst s.
  assert (0 <= match e with
               | 0 => Zpos m
               | Zpos _ => Zpos m * 2 ^ e
               | Zneg _ => Zpos m / 2 ^ (- e)
               end) as Ha.
  { destruct e; try lia;
      try (apply Z.mul_nonneg_nonneg; [lia|]; apply Z.pow_nonneg; lia);
      try (apply Z.div_pos; [lia|]; apply Z.pow_pos_nonneg; lia). }
  destruct (_ && _); lia.
Qed.

Lemma Min_finite m e y :
  Min (S754_finite false m e) y
  = if is_neg_inf y then S754_infinity true
    else if is_nan y then S754_nan
    else if ltb (S754_finite false m e) y then S754_finite false m e else y.
Proof. reflexivity. Qed.

(** The clamp [int(math.Min(float64(n), float64(m)))] never exceeds
    [n]. *)
Lemma clamp_le (n m : Z) : 0 <= n < 2 ^ 53 → to_int (Min (of_int n) (of_int m)) <= n.
Proof.
  intros Hn.
  assert (Hx : of_int n = zero ∧ n = 0
               ∨ ∃ p, n = Zpos p ∧ of_int n
                      = S754_finite false (normal p) (Zpos (digits2_pos p) - 53)).
  { destruct n as [|p|p]; [left; split; reflexivity| |exfalso; lia].
    right. exists p. split; [done|]. apply of_int_exact; lia. }
  assert (Hd : ∀ p, Zpos p < 2 ^ 53 → Zpos (digits2_pos p) - 53 <= 0).
  { intros p Hp. pose proof (digits2_pos_le p 53 Hp). lia. }
  destruct m as [|q|q].
  - (* the target is 0 *)
    rewrite of_int_zero. destruct Hx as [[-> ->]|(p & -> & ->)]; [done|].
    unfold Min, to_int; simpl. lia.
  - destruct (Z_lt_ge_dec (Zpos q) (2 ^ 53)) as [Hq|Hq].
    + (* both are exact *)
      destruct Hx as [[-> ->]|(p & -> & Ep)].
      * destruct (of_int_exact q Hq) as [-> _]. unfold Min, to_int; simpl. lia.
      * pose proof (to_int_of_int (Zpos p) ltac:(lia)) as Tp.
        pose proof (to_int_of_int (Zpos q) ltac:(lia)) as Tq.
        destruct (Z_lt_ge_dec (Zpos p) (Zpos q)) as [Hlt|Hge].
        -- pose proof (ltb_exact p q ltac:(lia) Hq Hlt) as Hltb.
           destruct (of_int_exact q Hq) as [Eq _].
           rewrite Ep, Eq in *. rewrite Min_finite. cbn [is_neg_inf is_nan].
           rewrite Hltb. lia.
        -- destruct (of_int_exact q Hq) as [Eq _].
           rewrite Ep, Eq in *. rewrite Min_finite. cbn [is_neg_inf is_nan].
           destruct (ltb _ _); lia.
    + (* the target is too large for an exact conversion *)
      pose proof (of_int_large q ltac:(lia)) as Hl.
      destruct Hx as [[-> ->]|(p & -> & Ep)].
      * destruct (of_int (Zpos q)) as [s|s| |s m e]; simpl in Hl; try subst s;
          try (unfold Min, to_int, GoInt.min_int64; simpl; lia).
        destruct Hl as [-> _]. unfold Min, to_int; simpl. lia.
      * pose proof (to_int_of_int (Zpos p) ltac:(lia)) as Tp.
        pose proof (Hd p ltac:(lia)) as Hdp.
        rewrite Ep in *.
        destruct (of_int (Zpos q)) as [s|s| |s m e]; simpl in Hl; try subst s;
          try (unfold Min; simpl; unfold to_int, GoInt.min_int64; simpl; lia).
        -- unfold Min. simpl. lia.
        -- destruct Hl as [-> He]. unfold Min, ltb, eqb, SFltb, SFeqb. simpl.
           destruct (Z.compare_spec (Zpos (digits2_pos p) - 53) e); [lia| |lia].
           lia.
  - (* the target is negative *)
    pose proof (of_int_negative q) as Hs. pose proof (to_int_negative _ Hs) as Ht.
    destruct Hx as [[-> ->]|(p & -> & ->)];
      destruct (of_int (Zneg q)) as [s|s| |s m e]; simpl in Hs; try subst s;
      unfold Min; simpl; unfold to_int, GoInt.min_int64 in *; simpl in *; lia.
Qed.

(** With a target of 0 the clamp is 0. *)
Lemma clamp_zero (n : Z) : 0 <= n < 2 ^ 53 → to_int (Min (of_int n) (of_int 0)) = 0.
Proof.
  intros Hn. rewrite of_int_zero. destruct n as [|p|p]; [done| |lia].
  destruct (of_int_exact p ltac:(lia)) as [-> _]. reflexivity.
Qed.

End FloatFacts.

(** ** The pod label shifter *)

Module SyncFacts.

Import F64 Traffic FloatFacts.

(** *** The pod target *)

Lemma wrap64_small (n : Z) : 0 <= n < 2 ^ 53 → GoInt.wrap64 n = n.
Proof. intros H. unfold GoInt.wrap64. apply Z.mod_small. lia. Qed.

Lemma desired_zero (total : Z) :
  0 <= total < 2 ^ 53 → CalculateDesiredReplicaCount total zero = 0.
Proof.
  intros H. unfold CalculateDesiredReplicaCount.
  destruct total as [|q|q]; [reflexivity| |lia].
  destruct (of_int_exact q ltac:(lia)) as [-> _]. reflexivity.
Qed.

Lemma target_zero (releasePods releaseWeight totalPods : Z) :
  0 <= releasePods < 2 ^ 53 → 0 <= totalPods < 2 ^ 53 →
  calculateReleasePodTarget releasePods releaseWeight totalPods 0 = 0.
Proof.
  intros Hn Ht. unfold calculateReleasePodTarget, targetPercent. simpl.
  rewrite wrap64_small, desired_zero by done. by apply clamp_zero.
Qed.

Lemma target_le (releasePods releaseWeight totalPods totalWeight : Z) :
  0 <= releasePods < 2 ^ 53 →
  calculateReleasePodTarget releasePods releaseWeight totalPods totalWeight <= releasePods.
Proof. intros Hn. unfold calculateReleasePodTarget. by apply clamp_le. Qed.

(** *** Traffic pods and idle pods *)

Lemma partition_pods sel (pods : list Pod) :
  List.partition (fun pod => getsTraffic pod sel) pods
  = (trafficPodsOf sel pods, idlePodsOf sel pods).
Proof. apply partition_as_filter. Qed.

Lemma traffic_idle_length sel (pods : list Pod) :
  Z.of_nat (length (trafficPodsOf sel pods)) + Z.of_nat (length (idlePodsOf sel pods))
  = Z.of_nat (length pods).
Proof.
  unfold trafficPodsOf, idlePodsOf.
  pose proof (filter_length (fun pod => getsTraffic pod sel) pods). lia.
Qed.

Section Run.

Variable p : podLabelShifter.
Variable cluster : string.
Variable clientset : Clientset.

(** *** The loops over the pods *)

Lemma patchFailureOf_cons pod rest (failed : list SyncError) :
  Forall (patchFailureOf cluster (namespace p) rest) failed →
  Forall (patchFailureOf cluster (namespace p) (pod :: rest)) failed.
Proof.
  intros H. eapply Forall_impl; [exact H|].
  intros e (pod' & err & Hin & ->). exists pod', err. split; [by right|done].
Qed.

Lemma shiftPods_spec current intended n pods errs sent shifted :
  (shiftPods p cluster clientset current intended n pods errs sent shifted).1
  = sent ++ map (patchRequest (namespace p) intended)
                (List.filter (needsPatch current) (take n pods))
  ∧ match (shiftPods p cluster clientset current intended n pods errs sent shifted).2 with
    | None => (length pods < n)%nat
    | Some (errs', shifted') =>
        (n <= length pods)%nat
        ∧ ∃ failed,
            errs' = errs ++ failed
            ∧ Forall (patchFailureOf cluster (namespace p) pods) failed
            ∧ shifted' = shifted + Z.of_nat n - Z.of_nat (length failed)
            ∧ (length failed <= n)%nat
            ∧ ((∀ s c, PodsPatch clientset s c = None) → failed = [])
    end.
Proof.
  revert pods errs sent shifted.
  induction n as [|n IH]; intros pods errs sent shifted; simpl.
  - rewrite app_nil_r. split; [done|]. split; [lia|].
    exists []. rewrite app_nil_r.
    split; [done|]. split; [constructor|]. split; [simpl; lia|]. split; [simpl; lia|done].
  - destruct pods as [|pod rest]; simpl; [split; [by rewrite app_nil_r|lia]|].
    destruct (needsPatch current pod) eqn:Hneeds; simpl.
    + destruct (PodsPatch clientset sent _) as [err|] eqn:Hpatch.
      * destruct (IH rest
                    (errs ++ [TargetClusterTrafficModifyingLabelError cluster (namespace p)
                                (PodName pod) err])
                    (sent ++ [patchRequest (namespace p) intended pod]) shifted)
          as [Hsent Hrest].
        split; [by rewrite Hsent, <- app_assoc|].
        destruct (shiftPods _ _ _ _ _ _ _ _ _ _).2 as [[errs' shifted']|]; [|lia].
        destruct Hrest as (Hn & failed & -> & Hf & -> & Hlen & Hnone).
        split; [lia|].
        exists (TargetClusterTrafficModifyingLabelError cluster (namespace p)
                  (PodName pod) err :: failed).
        rewrite <- app_assoc. simpl.
        split; [done|]. split.
        { constructor; [|by apply patchFailureOf_cons]. exists pod, err. split; [left|done]. }
        split; [lia|]. split; [lia|].
        intros Hall. rewrite Hall in Hpatch. done.
      * destruct (IH rest errs (sent ++ [patchRequest (namespace p) intended pod])
                    (shifted + 1)) as [Hsent Hrest].
        split; [by rewrite Hsent, <- app_assoc|].
        destruct (shiftPods _ _ _ _ _ _ _ _ _ _).2 as [[errs' shifted']|]; [|lia].
        destruct Hrest as (Hn & failed & -> & Hf & -> & Hlen & Hnone).
        split; [lia|]. exists failed.
        split; [done|]. split; [by apply patchFailureOf_cons|].
        split; [lia|]. split; [lia|done].
    + destruct (IH rest errs sent (shifted + 1)) as [Hsent Hrest].
      split; [done|].
      destruct (shiftPods _ _ _ _ _ _ _ _ _ _).2 as [[errs' shifted']|]; [|lia].
      destruct Hrest as (Hn & failed & -> & Hf & -> & Hlen & Hnone).
      split; [lia|]. exists failed.
      split; [done|]. split; [by apply patchFailureOf_cons|].
      split; [lia|]. split; [lia|done].
Qed.

(** *** One release *)

(** What one pass of the loop over the releases does, by the four cases of
    the source: at the target, above it, below it without enough idle pods,
    below it. *)
Lemma patchFailureOf_filter (f : Pod → bool) pods (failed : list SyncError) :
  Forall (patchFailureOf cluster (namespace p) (List.filter f pods)) failed →
  Forall (patchFailureOf cluster (namespace p) pods) failed.
Proof.
  intros H. eapply Forall_impl; [exact H|].
  intros e (pod & err & Hin & ->). exists pod, err. split; [|done].
  apply list_elem_of_In. apply list_elem_of_In, filter_In in Hin. tauto.
Qed.

Lemma patchFailureOf_not_math pods (failed : list SyncError) :
  Forall (patchFailureOf cluster (namespace p) pods) failed →
  Forall (fun e => isMathError e = false) failed.
Proof. intros H. eapply Forall_impl; [exact H|]. by intros e (pod & err & _ & ->). Qed.

Lemma syncReleasePods_spec sel totalPods totalWeight release weight pods st :
  let target :=
    calculateReleasePodTarget (Z.of_nat (length pods)) weight totalPods totalWeight in
  let nTraffic := Z.of_nat (length (trafficPodsOf sel pods)) in
  let nIdle := Z.of_nat (length (idlePodsOf sel pods)) in
  match syncReleasePods p cluster clientset sel totalPods totalWeight release weight pods st with
  | Next st' =>
      (nTraffic = target
       ∧ st' = {| achievedWeights := <[release := weight]> (achievedWeights st);
                  errors := errors st; calls := calls st |})
      ∨ (target < nTraffic
         ∧ ∃ failed,
             errors st' = errors st ++ failed
             ∧ Forall (patchFailureOf cluster (namespace p) pods) failed
             ∧ Z.of_nat (length failed) <= nTraffic - target
             ∧ achievedWeights st'
               = <[release := proportionWeight (target + Z.of_nat (length failed))
                                totalPods totalWeight]> (achievedWeights st)
             ∧ calls st'
               = calls st ++ map (patchRequest (namespace p) Disabled)
                               (List.filter (needsPatch Enabled)
                                  (take (Z.to_nat (nTraffic - target))
                                     (trafficPodsOf sel pods))))
      ∨ (nTraffic < target ∧ nIdle < target - nTraffic
         ∧ st' = {| achievedWeights := achievedWeights st;
                    errors := errors st
                              ++ [TargetClusterMathError release nIdle (target - nTraffic)];
                    calls := calls st |})
      ∨ (nTraffic < target ∧ target - nTraffic <= nIdle
         ∧ ∃ failed,
             errors st' = errors st ++ failed
             ∧ Forall (patchFailureOf cluster (namespace p) pods) failed
             ∧ Z.of_nat (length failed) <= target - nTraffic
             ∧ achievedWeights st'
               = <[release := proportionWeight (target - Z.of_nat (length failed))
                                totalPods totalWeight]> (achievedWeights st)
             ∧ calls st'
               = calls st ++ map (patchRequest (namespace p) Enabled)
                               (List.filter (needsPatch Disabled)
                                  (take (Z.to_nat (target - nTraffic))
                                     (idlePodsOf sel pods))))
  | Panic sent =>
      target < 0
      ∧ sent = calls st ++ map (patchRequest (namespace p) Disabled)
                             (List.filter (needsPatch Enabled) (trafficPodsOf sel pods))
  end.
Proof.
  intros target nTraffic nIdle. unfold syncReleasePods. rewrite partition_pods.
  fold target nTraffic nIdle.
  destruct (Z.eqb_spec nTraffic target) as [E|E]; [by left|].
  destruct (Z.ltb_spec target nTraffic) as [Habove|Hbelow].
  - pose proof (shiftPods_spec Enabled Disabled (Z.to_nat (nTraffic - target))
                  (trafficPodsOf sel pods) (errors st) (calls st) 0) as [Hsent Hres].
    destruct (shiftPods _ _ _ _ _ _ _ _ _ _) as [sent [[errs removed]|]]; simpl in *.
    + right; left. split; [done|].
      destruct Hres as (Hn & failed & -> & Hf & -> & Hlen & Hnone).
      exists failed. repeat split; try done; [by eapply patchFailureOf_filter|lia|].
      f_equal. f_equal. unfold nTraffic in *. lia.
    + split; [unfold nTraffic in *; lia|]. rewrite Hsent. f_equal. f_equal. f_equal.
      apply take_ge. lia.
  - destruct (Z.ltb_spec nIdle (target - nTraffic)) as [Hshort|Henough].
    + right; right; left. repeat split; [lia|done].
    + pose proof (shiftPods_spec Disabled Enabled (Z.to_nat (target - nTraffic))
                    (idlePodsOf sel pods) (errors st) (calls st) 0) as [Hsent Hres].
      destruct (shiftPods _ _ _ _ _ _ _ _ _ _) as [sent [[errs added]|]]; simpl in *.
      * right; right; right. split; [lia|]. split; [done|].
        destruct Hres as (Hn & failed & -> & Hf & -> & Hlen & Hnone).
        exists failed. repeat split; try done; [by eapply patchFailureOf_filter|lia|].
        f_equal. f_equal. unfold nTraffic in *. lia.
      * unfold nIdle, nTraffic in *. lia.
Qed.

(** *** The loop over the releases *)

Variable informer : PodInformer.

Local Abbreviation listing release :=
  (PodsList informer (namespace p) {[ ReleaseLabel := release ]}).

Lemma feasible_length ns selector pods :
  feasible informer → PodsList informer ns selector = inr pods →
  0 <= Z.of_nat (length pods) < 2 ^ 53.
Proof. intros Hf Hl. specialize (Hf _ _ _ Hl). lia. Qed.

(** With feasible pod lists the target is within the release's pods, so the
    pods that are missing are never more than the idle pods. *)
Lemma missing_le_idle sel release weight pods totalPods totalWeight :
  feasible informer → listing release = inr pods →
  calculateReleasePodTarget (Z.of_nat (length pods)) weight totalPods totalWeight
  - Z.of_nat (length (trafficPodsOf sel pods))
  <= Z.of_nat (length (idlePodsOf sel pods)).
Proof.
  intros Hf Hl. pose proof (feasible_length _ _ _ Hf Hl) as Hn.
  pose proof (target_le _ weight totalPods totalWeight Hn).
  pose proof (traffic_idle_length sel pods). lia.
Qed.

Lemma syncReleases_no_math_error sel totalPods totalWeight releases st w errs sent :
  feasible informer →
  Forall (fun e => isMathError e = false) (errors st) →
  syncReleases p cluster clientset informer sel totalPods totalWeight releases st
  = (Returned w errs, sent) →
  Forall (fun e => isMathError e = false) errs.
Proof.
  intros Hf. revert st. induction releases as [|[release weight] rest IH]; intros st Hst; simpl.
  - by intros [= _ <- _].
  - destruct (listing release) as [err|pods] eqn:Hl; [done|].
    pose proof (syncReleasePods_spec sel totalPods totalWeight release weight pods st) as Hstep.
    pose proof (missing_le_idle sel release weight pods totalPods totalWeight Hf Hl) as Hm.
    destruct (syncReleasePods _ _ _ _ _ _ _ _ _ _) as [st'|?]; [|done].
    apply IH. simpl in Hstep.
    destruct Hstep as [[_ ->]|[(_ & failed & -> & Hfailed%patchFailureOf_not_math & _)|[(_ & Hshort & _)|(_ & _ & failed & -> & Hfailed%patchFailureOf_not_math & _)]]];
      simpl; try done; try (by apply Forall_app).
    lia.
Qed.

Lemma needsPatch_label current pod :
  needsPatch current pod = true
  ↔ PodLabels pod !! PodTrafficStatusLabel = None
    ∨ PodLabels pod !! PodTrafficStatusLabel = Some current.
Proof.
  unfold needsPatch. destruct (PodLabels pod !! PodTrafficStatusLabel) as [v|]; [|naive_solver].
  rewrite String.eqb_eq. naive_solver.
Qed.

Lemma minimal_requests current intended (pods : list Pod) :
  (current = Enabled ∧ intended = Disabled) ∨ (current = Disabled ∧ intended = Enabled) →
  Forall (minimalRequest (namespace p))
    (map (patchRequest (namespace p) intended) (List.filter (needsPatch current) pods)).
Proof.
  intros Hci. apply Forall_forall. intros call (pod & -> & Hpod)%list_elem_of_fmap.
  apply list_elem_of_In, filter_In in Hpod as [_ Hneeds]. apply needsPatch_label in Hneeds.
  exists pod, intended. split; [done|]. naive_solver.
Qed.

Lemma syncReleases_minimal sel totalPods totalWeight releases st :
  Forall (minimalRequest (namespace p)) (calls st) →
  Forall (minimalRequest (namespace p))
    (syncReleases p cluster clientset informer sel totalPods totalWeight releases st).2.
Proof.
  revert st. induction releases as [|[release weight] rest IH]; intros st Hst; simpl; [done|].
  destruct (listing release) as [err|pods] eqn:Hl; [done|].
  pose proof (syncReleasePods_spec sel totalPods totalWeight release weight pods st) as Hstep.
  destruct (syncReleasePods _ _ _ _ _ _ _ _ _ _) as [st'|sent]; simpl in Hstep.
  - apply IH.
    destruct Hstep as [[_ ->]|[(_ & failed & _ & _ & _ & _ & ->)|[(_ & _ & ->)|(_ & _ & failed & _ & _ & _ & _ & ->)]]];
      simpl; try done; apply Forall_app; (split; [done|]); apply minimal_requests; auto.
  - simpl. destruct Hstep as [_ ->]. apply Forall_app. split; [done|].
    apply minimal_requests; auto.
Qed.

Lemma syncReleases_settled sel totalPods totalWeight releases st :
  (∀ release weight pods,
      (release, weight) ∈ releases → listing release = inr pods →
      Z.of_nat (length (trafficPodsOf sel pods))
      = calculateReleasePodTarget (Z.of_nat (length pods)) weight totalPods totalWeight) →
  (syncReleases p cluster clientset informer sel totalPods totalWeight releases st).2
  = calls st
  ∧ ∀ w errs,
      (syncReleases p cluster clientset informer sel totalPods totalWeight releases st).1
      = Returned w errs →
      errs = errors st.
Proof.
  revert st. induction releases as [|[release weight] rest IH]; intros st Hsettled; simpl.
  - split; [done|]. by intros w errs [= <- <-].
  - destruct (listing release) as [err|pods] eqn:Hl; [done|].
    pose proof (syncReleasePods_spec sel totalPods totalWeight release weight pods st) as Hstep.
    pose proof (Hsettled release weight pods ltac:(left) Hl) as Hat.
    destruct (syncReleasePods _ _ _ _ _ _ _ _ _ _) as [st'|sent]; simpl in Hstep; [|lia].
    destruct Hstep as [[_ ->]|[(? & _)|[(? & _)|(? & _)]]]; try lia.
    apply (IH {| achievedWeights := <[release:=weight]> (achievedWeights st);
                 errors := errors st; calls := calls st |}).
    intros r w' ps Hin. apply Hsettled. by right.
Qed.

Lemma take_all {A} (l : list A) (n : Z) :
  Z.of_nat (length l) <= n → take (Z.to_nat n) l = l.
Proof. intros H. apply take_ge. lia. Qed.

Lemma syncReleases_drain sel totalPods releases st :
  feasible informer → 0 <= totalPods < 2 ^ 53 →
  (syncReleases p cluster clientset informer sel totalPods 0 releases st).2
  = calls st ++ drainAll (namespace p) sel informer releases.
Proof.
  intros Hf Ht. revert st.
  induction releases as [|[release weight] rest IH]; intros st; simpl.
  - by rewrite app_nil_r.
  - destruct (listing release) as [err|pods] eqn:Hl; [by rewrite app_nil_r|].
    pose proof (syncReleasePods_spec sel totalPods 0 release weight pods st) as Hstep.
    rewrite (target_zero _ weight totalPods (feasible_length _ _ _ Hf Hl) Ht) in Hstep.
    destruct (syncReleasePods _ _ _ _ _ _ _ _ _ _) as [st'|sent]; simpl in Hstep; [|lia].
    rewrite IH, app_assoc. f_equal. unfold drainRequests.
    destruct Hstep as [[Hnone ->]|[(_ & failed & _ & _ & _ & _ & ->)|[(? & _)|(? & _)]]];
      try lia; simpl.
    + destruct (trafficPodsOf sel pods); [by rewrite app_nil_r|done].
    + rewrite Z.sub_0_r, take_all by lia. done.
Qed.

Lemma filter_none {A} (f : A → bool) (l : list A) :
  (∀ x, x ∈ l → f x = false) → List.filter f l = [].
Proof.
  induction l as [|x l IH]; intros H; simpl; [done|].
  rewrite (H x) by left. apply IH. intros y Hy. apply H. by right.
Qed.

Lemma drainAll_nil sel releases :
  (∀ release weight pods pod,
      (release, weight) ∈ releases → listing release = inr pods →
      pod ∈ trafficPodsOf sel pods → needsPatch Enabled pod = false) →
  drainAll (namespace p) sel informer releases = [].
Proof.
  induction releases as [|[release weight] rest IH]; intros Hnone; simpl; [done|].
  destruct (listing release) as [err|pods] eqn:Hl; [done|].
  rewrite IH by (intros r w' ps pod Hin; apply (Hnone r w' ps pod); by right).
  rewrite app_nil_r. unfold drainRequests.
  rewrite filter_none; [done|].
  intros pod Hpod. by apply (Hnone release weight pods pod); [left|..].
Qed.

Lemma syncReleases_reported sel totalPods totalWeight releases st w errs sent :
  feasible informer → NoDup releases.*1 →
  syncReleases p cluster clientset informer sel totalPods totalWeight releases st
  = (Returned w errs, sent) →
  (∃ more, errs = errors st ++ more)
  ∧ (∀ release, release ∉ releases.*1 → w !! release = achievedWeights st !! release)
  ∧ (∀ release weight,
        (release, weight) ∈ releases →
        ∃ pods before failed after,
          listing release = inr pods
          ∧ errs = before ++ failed ++ after
          ∧ Forall (patchFailureOf cluster (namespace p) pods) failed
          ∧ w !! release
            = Some (reportedWeight weight
                      (Z.of_nat (length (trafficPodsOf sel pods)))
                      (calculateReleasePodTarget (Z.of_nat (length pods)) weight
                         totalPods totalWeight)
                      (Z.of_nat (length failed)) totalPods totalWeight)).
Proof.
  intros Hf. revert st.
  induction releases as [|[release weight] rest IH]; intros st Hnd; simpl.
  - intros [= <- <- _]. split; [exists []; by rewrite app_nil_r|].
    split; [done|]. by intros ? ? ?%elem_of_nil.
  - destruct (listing release) as [err|pods] eqn:Hl; [done|].
    pose proof (syncReleasePods_spec sel totalPods totalWeight release weight pods st) as Hstep.
    pose proof (missing_le_idle sel release weight pods totalPods totalWeight Hf Hl) as Hm.
    destruct (syncReleasePods _ _ _ _ _ _ _ _ _ _) as [st'|?]; [|done].
    simpl in Hstep, Hnd. apply NoDup_cons in Hnd as [Hfresh Hnd]. intros Hrun.
    destruct (IH st' Hnd Hrun) as ((more & ->) & Hother & Hrest). clear IH.
    set (nTraffic := Z.of_nat (length (trafficPodsOf sel pods))) in *.
    set (target := calculateReleasePodTarget (Z.of_nat (length pods)) weight
                     totalPods totalWeight) in *.
    assert (Hst' : ∃ failed : list SyncError,
               errors st' = errors st ++ failed
               ∧ Forall (patchFailureOf cluster (namespace p) pods) failed
               ∧ achievedWeights st'
                 = <[release := reportedWeight weight nTraffic target
                                  (Z.of_nat (length failed)) totalPods totalWeight]>
                     (achievedWeights st)).
    { unfold reportedWeight.
      destruct Hstep as [[Hat ->]|[(Hab & failed & He & Hpf & _ & Hw & _)|[(_ & Hshort & _)|(Hbe & _ & failed & He & Hpf & _ & Hw & _)]]].
      - exists []. simpl. rewrite app_nil_r. split; [done|]. split; [constructor|].
        by rewrite (proj2 (Z.eqb_eq _ _) Hat).
      - exists failed. split; [done|]. split; [done|]. rewrite Hw.
        rewrite (proj2 (Z.eqb_neq _ _)) by lia. by rewrite (proj2 (Z.ltb_lt _ _)) by lia.
      - lia.
      - exists failed. split; [done|]. split; [done|]. rewrite Hw.
        rewrite (proj2 (Z.eqb_neq _ _)) by lia. by rewrite (proj2 (Z.ltb_ge _ _)) by lia. }
    destruct Hst' as (failed & He & Hpf & Hw).
    split; [|split].
    + exists (failed ++ more). rewrite He. by rewrite app_assoc.
    + intros r Hr. apply not_elem_of_cons in Hr as [Hne Hr].
      rewrite (Hother r Hr), Hw. by rewrite lookup_insert_ne.
    + intros r w' [[= -> ->]|Hin]%elem_of_cons.
      * exists pods, (errors st), failed, more. split; [done|]. split.
        -- rewrite He. by rewrite app_assoc.
        -- split; [done|]. rewrite (Hother release Hfresh), Hw. by rewrite lookup_insert_eq.
      * destruct (Hrest r w' Hin) as (ps & before & fl & after & Hps & Herrs & Hfl & Hwr).
        exists ps, before, fl, after. done.
Qed.

(** *** The run *)

Variable mapRange : gmap string Z → list (string * Z).

Lemma SyncCluster_ready rw sel pods :
  ready p cluster clientset informer rw sel pods →
  SyncCluster p cluster clientset informer mapRange
  = syncReleases p cluster clientset informer sel (Z.of_nat (length pods))
      (sumWeights (mapRange rw)) (mapRange rw)
      {| achievedWeights := ∅; errors := []; calls := [] |}.
Proof.
  intros (Hrw & (svc & Hsvc & Hsel) & Hpods). unfold SyncCluster.
  by rewrite Hrw, Hsvc, Hsel, Hpods.
Qed.

Lemma SyncCluster_cases :
  (∃ rw sel pods, ready p cluster clientset informer rw sel pods)
  ∨ (∃ err, SyncCluster p cluster clientset informer mapRange = (Failed err, [])).
Proof.
  unfold SyncCluster, ready.
  destruct (clusterReleaseWeights p !! cluster) as [rw|]; [|eauto].
  destruct (ServicesList clientset (namespace p) (serviceSelector p)) as [err|[|svc [|? ?]]];
    [eauto|eauto| |eauto].
  destruct (ServiceSelector svc) as [sel|] eqn:Hsel; [|eauto].
  destruct (PodsList informer (namespace p) {[ AppLabel := appName p ]}) as [err|pods];
    [eauto|].
  left. exists rw, sel, pods. eauto.
Qed.

End Run.

(** An informer over a cache of fewer than [2^53] pods is feasible. *)
Lemma cacheInformer_feasible (pods : list Pod) :
  Z.of_nat (length pods) < 2 ^ 53 → feasible (cacheInformer pods).
Proof.
  intros H ns selector listed [= <-].
  pose proof (filter_length_le (fun pod => getsTraffic pod selector) pods). lia.
Qed.

(** C1, as the claim has it: refuted by the sample cluster with both weights
    at 0, where the eight pods of the release that carry traffic are
    patched. *)
Lemma zero_total_weight_counterexample :
  ¬ (∀ p cluster clientset informer mapRange releaseWeights,
        clusterReleaseWeights p !! cluster = Some releaseWeights →
        sumWeights (mapRange releaseWeights) = 0 →
        (SyncCluster p cluster clientset informer mapRange).2 = []).
Proof.
  intros H.
  specialize (H (sampleShifter {[ "R" := 0; "R2" := 0 ]}) "c1" sampleClientset
                (cacheInformer shrinkPods) map_to_list {[ "R" := 0; "R2" := 0 ]}
                eq_refl eq_refl).
  vm_compute in H. discriminate H.
Qed.

(** C1.  When the weights of the cluster's releases sum to 0, the target
    percent of every release is 0 and so is its pod target, and the patch
    requests of the run are the drain requests of the releases in turn: for
    each traffic pod of the release whose label is absent or [Enabled], the
    patch to [Disabled].  No request is sent when no release has such a
    pod. *)
Theorem zero_total_weight_drains p cluster clientset informer mapRange
    releaseWeights trafficSelector pods :
  feasible informer →
  ready p cluster clientset informer releaseWeights trafficSelector pods →
  sumWeights (mapRange releaseWeights) = 0 →
  (∀ weight, targetPercent weight (sumWeights (mapRange releaseWeights)) = zero)
  ∧ (∀ release weight releasePods,
        PodsList informer (namespace p) {[ ReleaseLabel := release ]} = inr releasePods →
        calculateReleasePodTarget (Z.of_nat (length releasePods)) weight
          (Z.of_nat (length pods)) (sumWeights (mapRange releaseWeights)) = 0)
  ∧ (SyncCluster p cluster clientset informer mapRange).2
    = drainAll (namespace p) trafficSelector informer (mapRange releaseWeights)
  ∧ ((∀ release weight releasePods pod,
         (release, weight) ∈ mapRange releaseWeights →
         PodsList informer (namespace p) {[ ReleaseLabel := release ]} = inr releasePods →
         pod ∈ trafficPodsOf trafficSelector releasePods →
         needsPatch Enabled pod = false) →
     (SyncCluster p cluster clientset informer mapRange).2 = []).
Proof.
  intros Hf Hready Hsum. rewrite (SyncCluster_ready _ _ _ _ _ _ _ _ Hready), Hsum.
  destruct Hready as (_ & _ & Hpods).
  pose proof (feasible_length _ _ _ _ Hf Hpods) as Ht.
  assert (Hcalls := syncReleases_drain p cluster clientset informer trafficSelector
                      (Z.of_nat (length pods)) (mapRange releaseWeights)
                      {| achievedWeights := ∅; errors := []; calls := [] |} Hf Ht).
  simpl in Hcalls.
  split; [done|]. split; [|split; [done|]].
  - intros release weight releasePods Hl.
    apply target_zero; [by eapply feasible_length|done].
  - intros Hnone. rewrite Hcalls. by apply (drainAll_nil p informer).
Qed.

(** In the sample cluster with both weights at 0 the requests are the drain
    requests. *)
Lemma zero_total_weight_drains_witness :
  (SyncCluster (sampleShifter {[ "R" := 0; "R2" := 0 ]}) "c1" sampleClientset
     (cacheInformer shrinkPods) map_to_list).2
  = drainAll "default" {[ AppLabel := "web"; PodTrafficStatusLabel := Enabled ]}
      (cacheInformer shrinkPods) (map_to_list {[ "R" := 0; "R2" := 0 ]}).
Proof.
  apply (zero_total_weight_drains (sampleShifter {[ "R" := 0; "R2" := 0 ]}) "c1"
           sampleClientset (cacheInformer shrinkPods) map_to_list
           {[ "R" := 0; "R2" := 0 ]}
           {[ AppLabel := "web"; PodTrafficStatusLabel := Enabled ]}
           (List.filter (fun pod => getsTraffic pod {[ AppLabel := "web" ]}) shrinkPods)).
  - intros ns selector listed [= <-].
    pose proof (filter_length_le (fun pod => getsTraffic pod selector) shrinkPods).
    simpl in *. lia.
  - split; [reflexivity|]. split; [|reflexivity]. exists sampleService. split; reflexivity.
  - vm_compute. reflexivity.
Defined.




(** The shrink scenario: of the eight enabled pods of release [R] the first
    three are disabled, and both releases are reported at 50. *)
Example shrink_scenario :
  SyncCluster (sampleShifter {[ "R" := 50; "R2" := 50 ]}) "c1" sampleClientset
    (cacheInformer shrinkPods) map_to_list
  = (Returned {[ "R" := 50; "R2" := 50 ]} [],
     map (patchRequest "default" Disabled)
       [samplePod "pod-0" "R" Enabled; samplePod "pod-1" "R" Enabled;
        samplePod "pod-3" "R" Enabled]).
Proof. vm_compute. reflexivity. Qed.

(** C10.  With pod lists of feasible length, the pod target of a release is
    at most the number of its pods, its pods are its traffic pods and its
    idle pods, and the pods missing from the target are never more than the
    idle pods; so no run returns a math error. *)
Theorem math_error_unreachable p cluster clientset informer mapRange :
  feasible informer →
  (∀ trafficSelector release weight releasePods totalPods totalWeight,
      PodsList informer (namespace p) {[ ReleaseLabel := release ]} = inr releasePods →
      calculateReleasePodTarget (Z.of_nat (length releasePods)) weight totalPods totalWeight
      <= Z.of_nat (length releasePods)
      ∧ Z.of_nat (length (trafficPodsOf trafficSelector releasePods))
        + Z.of_nat (length (idlePodsOf trafficSelector releasePods))
        = Z.of_nat (length releasePods)
      ∧ ¬ (Z.of_nat (length (idlePodsOf trafficSelector releasePods))
           < calculateReleasePodTarget (Z.of_nat (length releasePods)) weight
               totalPods totalWeight
             - Z.of_nat (length (trafficPodsOf trafficSelector releasePods))))
  ∧ (∀ weights errs sent,
        SyncCluster p cluster clientset informer mapRange = (Returned weights errs, sent) →
        Forall (fun e => isMathError e = false) errs).
Proof.
  intros Hf. split.
  - intros sel release weight releasePods totalPods totalWeight Hl.
    pose proof (feasible_length _ _ _ _ Hf Hl) as Hn.
    pose proof (target_le _ weight totalPods totalWeight Hn).
    pose proof (traffic_idle_length sel releasePods). lia.
  - intros weights errs sent Hrun.
    destruct (SyncCluster_cases p cluster clientset informer mapRange)
      as [(rw & sel & pods & Hready)|[err Herr]]; [|congruence].
    rewrite (SyncCluster_ready _ _ _ _ _ _ _ _ Hready) in Hrun.
    eapply syncReleases_no_math_error; [exact Hf| |exact Hrun]. constructor.
Qed.

(** The run on the sample cluster returns no math error. *)
Lemma math_error_unreachable_witness :
  Forall (fun e => isMathError e = false) (@nil SyncError)
  ∧ SyncCluster (sampleShifter {[ "R" := 50; "R2" := 50 ]}) "c1" sampleClientset
      (cacheInformer shrinkPods) map_to_list
    = (Returned {[ "R" := 50; "R2" := 50 ]} [],
       map (patchRequest "default" Disabled)
         [samplePod "pod-0" "R" Enabled; samplePod "pod-1" "R" Enabled;
          samplePod "pod-3" "R" Enabled]).
Proof.
  assert (Hrun : SyncCluster (sampleShifter {[ "R" := 50; "R2" := 50 ]}) "c1"
                   sampleClientset (cacheInformer shrinkPods) map_to_list
                 = (Returned {[ "R" := 50; "R2" := 50 ]} [],
                    map (patchRequest "default" Disabled)
                      [samplePod "pod-0" "R" Enabled; samplePod "pod-1" "R" Enabled;
                       samplePod "pod-3" "R" Enabled]))
    by (vm_compute; reflexivity).
  split; [|exact Hrun].
  refine (proj2 (math_error_unreachable (sampleShifter {[ "R" := 50; "R2" := 50 ]}) "c1"
                   sampleClientset (cacheInformer shrinkPods) map_to_list _) _ _ _ Hrun).
  intros ns selector listed [= <-].
  pose proof (filter_length_le (fun pod => getsTraffic pod selector) shrinkPods).
  simpl in *. lia.
Defined.

(** ** A run after a run *)

(** *** Labels *)

Lemma status_label_not_app : PodTrafficStatusLabel ≠ AppLabel.
Proof. discriminate. Qed.

Lemma status_label_not_release : PodTrafficStatusLabel ≠ ReleaseLabel.
Proof. discriminate. Qed.

Lemma getsTraffic_singleton pod key value :
  getsTraffic pod {[ key := value ]}
  = match PodLabels pod !! key with
    | Some podValue => String.eqb podValue value
    | None => false
    end.
Proof.
  unfold getsTraffic. rewrite map_to_list_singleton. simpl.
  destruct (PodLabels pod !! key); [by rewrite andb_true_r|done].
Qed.

Lemma relabel_other value pod key :
  key ≠ PodTrafficStatusLabel → PodLabels (relabel value pod) !! key = PodLabels pod !! key.
Proof. intros H. simpl. by rewrite lookup_insert_ne. Qed.

Lemma servedPod_cases ns sent pod :
  servedPod ns sent pod = pod
  ∨ servedPod ns sent pod = relabel Disabled pod
  ∨ servedPod ns sent pod = relabel Enabled pod.
Proof. unfold servedPod. repeat case_bool_decide; auto. Qed.

Lemma servedPod_name ns sent pod : PodName (servedPod ns sent pod) = PodName pod.
Proof. destruct (servedPod_cases ns sent pod) as [->|[->| ->]]; done. Qed.

Lemma servedPod_other ns sent pod key :
  key ≠ PodTrafficStatusLabel →
  PodLabels (servedPod ns sent pod) !! key = PodLabels pod !! key.
Proof.
  intros H. destruct (servedPod_cases ns sent pod) as [->|[->| ->]];
    [done|by apply relabel_other..].
Qed.

Lemma served_listing ns sent pods key value :
  key ≠ PodTrafficStatusLabel →
  List.filter (fun pod => getsTraffic pod {[ key := value ]}) (served ns sent pods)
  = served ns sent (List.filter (fun pod => getsTraffic pod {[ key := value ]}) pods).
Proof.
  intros H. unfold served. induction pods as [|pod rest IH]; simpl; [done|].
  rewrite !getsTraffic_singleton, servedPod_other by done.
  destruct (PodLabels pod !! key) as [v|]; [|done].
  destruct (String.eqb v value); simpl; by rewrite IH.
Qed.

(** *** Shifting a prefix of one side *)

Lemma mapFirst_length k side g pods : length (mapFirst k side g pods) = length pods.
Proof.
  revert k. induction pods as [|pod rest IH]; intros k; simpl; [done|].
  destruct (side pod); [destruct k|]; simpl; by rewrite ?IH.
Qed.

Lemma filter_mapFirst k (side : Pod → bool) g pods :
  List.filter side (mapFirst k side g pods)
  = List.filter side (map g (take k (List.filter side pods)))
    ++ drop k (List.filter side pods).
Proof.
  revert k. induction pods as [|pod rest IH]; intros k; simpl; [by destruct k|].
  destruct (side pod) eqn:Hside.
  - destruct k as [|k]; simpl.
    + by rewrite Hside.
    + rewrite IH. by destruct (side (g pod)).
  - simpl. rewrite Hside. apply IH.
Qed.

Lemma mapFirst_members k (side : Pod → bool) g pods :
  NoDup pods →
  map (fun pod => if bool_decide (pod ∈ take k (List.filter side pods)) then g pod else pod)
      pods
  = mapFirst k side g pods.
Proof.
  revert k. induction pods as [|pod rest IH]; intros k Hnd; simpl; [done|].
  apply NoDup_cons in Hnd as [Hfresh Hnd].
  assert (Hsub : ∀ j x, x ∈ take j (List.filter side rest) → x ∈ rest).
  { intros j x Hx%subseteq_take. apply list_elem_of_In, filter_In in Hx as [Hx _].
    by apply list_elem_of_In. }
  destruct (side pod) eqn:Hside.
  - destruct k as [|k]; simpl.
    + f_equal. apply map_id.
    + rewrite bool_decide_eq_true_2 by left. f_equal. rewrite <- IH by done.
      apply map_ext_in. intros x Hx%list_elem_of_In.
      assert (x ≠ pod) by (by intros ->).
      destruct (bool_decide_reflect (x ∈ take k (List.filter side rest))) as [Hin|Hin].
      * rewrite bool_decide_eq_true_2; [done|]. by right.
      * rewrite bool_decide_eq_false_2; [done|]. intros [?|?]%elem_of_cons; done.
  - rewrite bool_decide_eq_false_2 by (intros Hin; apply Hfresh; eauto).
    f_equal. by apply IH.
Qed.

(** *** The pods after a shift *)

Lemma needsPatch_relabel current intended pod :
  intended ≠ current → needsPatch current (relabel intended pod) = false.
Proof.
  intros H. unfold needsPatch, relabel. simpl. rewrite lookup_insert_eq.
  by apply String.eqb_neq.
Qed.

Lemma needsPatch_shiftIf current intended pod :
  intended ≠ current → needsPatch current (shiftIf current intended pod) = false.
Proof.
  intros H. unfold shiftIf. destruct (needsPatch current pod) eqn:E; [|done].
  by apply needsPatch_relabel.
Qed.

Lemma filter_needs_shifted current intended (side : Pod → bool) (l : list Pod) :
  intended ≠ current →
  List.filter (needsPatch current) (List.filter side (map (shiftIf current intended) l)) = [].
Proof.
  intros H. apply filter_none. intros pod Hpod.
  apply list_elem_of_In, filter_In in Hpod as [Hpod _].
  apply in_map_iff in Hpod as (x & <- & _). by apply needsPatch_shiftIf.
Qed.

(** *** Requests and the pods they name *)

Lemma elem_of_List_filter {A} (f : A → bool) (l : list A) (x : A) :
  x ∈ List.filter f l ↔ x ∈ l ∧ f x = true.
Proof. rewrite !list_elem_of_In. apply filter_In. Qed.

Lemma patch_value_inj pod v v0 :
  (v = Enabled ∨ v = Disabled) → (v0 = Enabled ∨ v0 = Disabled) →
  patchPodTrafficStatusLabel pod v = patchPodTrafficStatusLabel pod v0 → v = v0.
Proof.
  unfold patchPodTrafficStatusLabel, patchList.
  destruct (PodLabels pod !! PodTrafficStatusLabel);
    (intros [-> | ->] [-> | ->] H; [reflexivity|exfalso|exfalso|reflexivity];
     vm_compute in H; discriminate H).
Qed.

Lemma NoDup_List_filter {A} (f : A → bool) (l : list A) :
  NoDup l → NoDup (List.filter f l).
Proof.
  induction 1 as [|x l Hx Hnd IH]; simpl; [constructor|].
  destruct (f x); [|done]. constructor; [|done].
  rewrite elem_of_List_filter. tauto.
Qed.

Lemma NoDup_uniqueNames pods : NoDup (map PodName pods) → uniqueNames pods.
Proof.
  induction pods as [|pod rest IH]; intros Hnd x y Hx Hy Hn; [by apply elem_of_nil in Hx|].
  simpl in Hnd. apply NoDup_cons in Hnd as [Hfresh Hnd].
  apply elem_of_cons in Hx as [->|Hx]; apply elem_of_cons in Hy as [->|Hy]; try done.
  - exfalso. apply Hfresh. rewrite Hn. by apply (list_elem_of_fmap_2 PodName).
  - exfalso. apply Hfresh. rewrite <- Hn. by apply (list_elem_of_fmap_2 PodName).
  - by apply IH.
Qed.

Lemma NoDup_names_pods pods : NoDup (map PodName pods) → NoDup pods.
Proof. apply (NoDup_fmap_1 PodName). Qed.

Lemma patchRequest_in_map ns v v0 pod (l pods : list Pod) :
  uniqueNames pods → pod ∈ pods → l ⊆ pods →
  (v = Enabled ∨ v = Disabled) → (v0 = Enabled ∨ v0 = Disabled) →
  patchRequest ns v pod ∈ map (patchRequest ns v0) l ↔ v = v0 ∧ pod ∈ l.
Proof.
  intros Hu Hpod Hl Hv Hv0. split.
  - intros (x & Heq & Hx)%list_elem_of_fmap.
    assert (Hname : PodName pod = PodName x) by exact (f_equal CallPod Heq).
    assert (Hpatch : patchPodTrafficStatusLabel pod v = patchPodTrafficStatusLabel x v0)
      by exact (f_equal CallPatch Heq).
    assert (x = pod) as -> by (apply Hu; auto).
    split; [exact (patch_value_inj _ _ _ Hv Hv0 Hpatch)|exact Hx].
  - intros [-> Hin]. exact (list_elem_of_fmap_2 (patchRequest ns v0) _ _ Hin).
Qed.

Lemma shifted_from ns v current (l pods : list Pod) call :
  l ⊆ pods → (v = Enabled ∨ v = Disabled) →
  call ∈ map (patchRequest ns v) (List.filter (needsPatch current) l) →
  ∃ pod v, pod ∈ pods ∧ (v = Enabled ∨ v = Disabled) ∧ call = patchRequest ns v pod.
Proof.
  intros Hl Hv (x & -> & Hx)%list_elem_of_fmap.
  apply elem_of_List_filter in Hx as [Hx _]. exists x, v. auto.
Qed.

Lemma trafficPodsOf_subseteq sel pods : trafficPodsOf sel pods ⊆ pods.
Proof. intros x Hx. by apply elem_of_List_filter in Hx as [Hx _]. Qed.

Lemma idlePodsOf_subseteq sel pods : idlePodsOf sel pods ⊆ pods.
Proof. intros x Hx. by apply elem_of_List_filter in Hx as [Hx _]. Qed.

Lemma stepRequests_from ns sel target pods call :
  call ∈ stepRequests ns sel target pods →
  ∃ pod v, pod ∈ pods ∧ (v = Enabled ∨ v = Disabled) ∧ call = patchRequest ns v pod.
Proof.
  unfold stepRequests.
  destruct (_ =? _); [by intros ?%elem_of_nil|].
  destruct (_ <? _).
  - apply shifted_from; [|auto].
    etrans; [apply subseteq_take|apply trafficPodsOf_subseteq].
  - destruct (_ <? _); [by intros ?%elem_of_nil|].
    apply shifted_from; [|auto].
    etrans; [apply subseteq_take|apply idlePodsOf_subseteq].
Qed.

(** *** One release, once its requests are served *)

Lemma served_none ns sent (pods : list Pod) :
  (∀ pod v, pod ∈ pods → (v = Enabled ∨ v = Disabled) → patchRequest ns v pod ∉ sent) →
  served ns sent pods = pods.
Proof.
  intros Hnone. unfold served. rewrite <- (map_id pods) at 2.
  apply map_ext_in. intros pod Hpod%list_elem_of_In. unfold servedPod.
  rewrite !bool_decide_eq_false_2; [done|apply Hnone; auto..].
Qed.

Lemma served_members ns sent current intended (l pods : list Pod) :
  (current = Enabled ∧ intended = Disabled) ∨ (current = Disabled ∧ intended = Enabled) →
  (∀ pod v, pod ∈ pods → (v = Enabled ∨ v = Disabled) →
     patchRequest ns v pod ∈ sent
     ↔ v = intended ∧ pod ∈ l ∧ needsPatch current pod = true) →
  served ns sent pods
  = map (fun pod => if bool_decide (pod ∈ l) then shiftIf current intended pod else pod) pods.
Proof.
  intros Hci Hsent. unfold served. apply map_ext_in. intros pod Hpod%list_elem_of_In.
  unfold servedPod, shiftIf.
  pose proof (Hsent pod Disabled Hpod (or_intror eq_refl)) as HD.
  pose proof (Hsent pod Enabled Hpod (or_introl eq_refl)) as HE.
  assert (Hne : Enabled ≠ Disabled) by discriminate.
  destruct Hci as [[-> ->]|[-> ->]].
  - destruct (bool_decide_reflect (patchRequest ns Disabled pod ∈ sent)) as [Hin|Hin].
    + apply HD in Hin as (_ & Hl & ->). by rewrite bool_decide_eq_true_2.
    + rewrite (bool_decide_eq_false_2 (patchRequest ns Enabled pod ∈ sent))
        by (intros (? & _)%HE; done).
      destruct (bool_decide_reflect (pod ∈ l)) as [Hl|Hl]; [|done].
      destruct (needsPatch Enabled pod) eqn:Hneeds; [|done].
      exfalso. apply Hin, HD. done.
  - rewrite (bool_decide_eq_false_2 (patchRequest ns Disabled pod ∈ sent))
      by (intros (? & _)%HD; done).
    destruct (bool_decide_reflect (patchRequest ns Enabled pod ∈ sent)) as [Hin|Hin].
    + apply HE in Hin as (_ & Hl & ->). by rewrite bool_decide_eq_true_2.
    + destruct (bool_decide_reflect (pod ∈ l)) as [Hl|Hl]; [|done].
      destruct (needsPatch Disabled pod) eqn:Hneeds; [|done].
      exfalso. apply Hin, HE. done.
Qed.

Lemma stepRequests_nil_shrink ns sel target (pods front back : list Pod) :
  trafficPodsOf sel pods = front ++ back →
  Z.of_nat (length back) = target →
  List.filter (needsPatch Enabled) front = [] →
  stepRequests ns sel target pods = [].
Proof.
  intros Htraffic Hback Hfront. unfold stepRequests. rewrite Htraffic, length_app.
  destruct (Z.eqb_spec (Z.of_nat (length front + length back)) target) as [E|E]; [done|].
  destruct (Z.ltb_spec target (Z.of_nat (length front + length back))) as [Hlt|Hge]; [|lia].
  rewrite take_app_length' by lia. by rewrite Hfront.
Qed.

Lemma stepRequests_nil_grow ns sel target (pods front back : list Pod) :
  idlePodsOf sel pods = front ++ back →
  Z.of_nat (length pods) - Z.of_nat (length back) = target →
  List.filter (needsPatch Disabled) front = [] →
  stepRequests ns sel target pods = [].
Proof.
  intros Hidle Hback Hfront. unfold stepRequests.
  pose proof (traffic_idle_length sel pods) as Hlen.
  rewrite Hidle, length_app in Hlen. rewrite Hidle, length_app.
  destruct (Z.eqb_spec (Z.of_nat (length (trafficPodsOf sel pods))) target) as [E|E]; [done|].
  destruct (Z.ltb_spec target (Z.of_nat (length (trafficPodsOf sel pods)))) as [Hlt|Hge];
    [lia|].
  destruct (Z.ltb_spec (Z.of_nat (length front + length back))
              (target - Z.of_nat (length (trafficPodsOf sel pods)))) as [Hshort|Henough];
    [lia|].
  rewrite take_app_length' by lia. by rewrite Hfront.
Qed.

Lemma stepRequests_served ns sel target sent (pods : list Pod) :
  NoDup pods → uniqueNames pods →
  (∀ pod v, pod ∈ pods → (v = Enabled ∨ v = Disabled) →
     patchRequest ns v pod ∈ sent
     ↔ patchRequest ns v pod ∈ stepRequests ns sel target pods) →
  0 <= target →
  stepRequests ns sel target (served ns sent pods) = [].
Proof.
  intros Hnd Hu Hsent Htarget.
  pose proof (traffic_idle_length sel pods) as Hlen.
  assert (Hquiet : stepRequests ns sel target pods = [] →
                   stepRequests ns sel target (served ns sent pods) = []).
  { intros Hnil. rewrite served_none; [done|].
    intros pod v Hpod Hv Hin%Hsent; [|done..]. rewrite Hnil in Hin.
    by apply elem_of_nil in Hin. }
  unfold stepRequests in Hsent, Hquiet.
  destruct (Z.eqb_spec (Z.of_nat (length (trafficPodsOf sel pods))) target) as [E|E];
    [by apply Hquiet|].
  destruct (Z.ltb_spec target (Z.of_nat (length (trafficPodsOf sel pods)))) as [Hlt|Hge].
  - clear Hquiet.
    set (excess := Z.to_nat (Z.of_nat (length (trafficPodsOf sel pods)) - target)) in *.
    rewrite (served_members ns sent Enabled Disabled (take excess (trafficPodsOf sel pods)));
      [|by left|].
    2:{ intros pod v Hpod Hv. rewrite (Hsent pod v Hpod Hv).
        rewrite (patchRequest_in_map ns v Disabled pod _ pods Hu Hpod); [|..|done|by right].
        - rewrite elem_of_List_filter. tauto.
        - intros x [Hx%subseteq_take%trafficPodsOf_subseteq _]%elem_of_List_filter. done. }
    unfold trafficPodsOf at 1. rewrite mapFirst_members by done.
    eapply stepRequests_nil_shrink.
    + unfold trafficPodsOf. apply filter_mapFirst.
    + rewrite length_drop. fold (trafficPodsOf sel pods). lia.
    + apply filter_needs_shifted. discriminate.
  - destruct (Z.ltb_spec (Z.of_nat (length (idlePodsOf sel pods)))
                (target - Z.of_nat (length (trafficPodsOf sel pods)))) as [Hshort|Henough];
      [by apply Hquiet|].
    clear Hquiet.
    set (missing := Z.to_nat (target - Z.of_nat (length (trafficPodsOf sel pods)))) in *.
    rewrite (served_members ns sent Disabled Enabled (take missing (idlePodsOf sel pods)));
      [|by right|].
    2:{ intros pod v Hpod Hv. rewrite (Hsent pod v Hpod Hv).
        rewrite (patchRequest_in_map ns v Enabled pod _ pods Hu Hpod); [|..|done|by left].
        - rewrite elem_of_List_filter. tauto.
        - intros x [Hx%subseteq_take%idlePodsOf_subseteq _]%elem_of_List_filter. done. }
    unfold idlePodsOf at 1. rewrite mapFirst_members by done.
    eapply stepRequests_nil_grow.
    + unfold idlePodsOf. apply filter_mapFirst.
    + rewrite mapFirst_length, length_drop. fold (idlePodsOf sel pods). lia.
    + apply filter_needs_shifted. discriminate.
Qed.

(** *** The requests of the loop over the releases *)

Lemma syncReleasePods_calls p cluster clientset sel totalPods totalWeight release weight
    pods st :
  let target :=
    calculateReleasePodTarget (Z.of_nat (length pods)) weight totalPods totalWeight in
  match syncReleasePods p cluster clientset sel totalPods totalWeight release weight pods st with
  | Next st' =>
      0 <= target ∧ calls st' = calls st ++ stepRequests (namespace p) sel target pods
  | Panic _ => target < 0
  end.
Proof.
  intros target. unfold syncReleasePods, stepRequests. rewrite partition_pods.
  fold target.
  set (nTraffic := Z.of_nat (length (trafficPodsOf sel pods))).
  set (nIdle := Z.of_nat (length (idlePodsOf sel pods))).
  destruct (Z.eqb_spec nTraffic target) as [E|E];
    [split; [lia|by rewrite app_nil_r]|].
  destruct (Z.ltb_spec target nTraffic) as [Habove|Hbelow].
  - pose proof (shiftPods_spec p cluster clientset Enabled Disabled
                  (Z.to_nat (nTraffic - target))
                  (trafficPodsOf sel pods) (errors st) (calls st) 0) as [Hsent Hres].
    destruct (shiftPods _ _ _ _ _ _ _ _ _ _) as [sent [[errs removed]|]]; simpl in *.
    + destruct Hres as (Hn & _). split; [unfold nTraffic in *; lia|done].
    + unfold nTraffic in *. lia.
  - destruct (Z.ltb_spec nIdle (target - nTraffic)) as [Hshort|Henough].
    + split; [lia|by rewrite app_nil_r].
    + pose proof (shiftPods_spec p cluster clientset Disabled Enabled
                    (Z.to_nat (target - nTraffic))
                    (idlePodsOf sel pods) (errors st) (calls st) 0) as [Hsent Hres].
      destruct (shiftPods _ _ _ _ _ _ _ _ _ _) as [sent [[errs added]|]]; simpl in *.
      * split; [lia|done].
      * unfold nIdle, nTraffic in *. lia.
Qed.

Lemma syncReleases_calls p cluster clientset sel totalPods totalWeight pods releases st
    w errs sent :
  syncReleases p cluster clientset (cacheInformer pods) sel totalPods totalWeight releases st
  = (Returned w errs, sent) →
  sent = calls st ++ runRequests (namespace p) sel totalPods totalWeight pods releases
  ∧ Forall (fun rw => 0 <= targetOf totalPods totalWeight pods rw) releases.
Proof.
  revert st. induction releases as [|[release weight] rest IH]; intros st; simpl.
  - intros [= _ _ <-]. by rewrite app_nil_r.
  - pose proof (syncReleasePods_calls p cluster clientset sel totalPods totalWeight
                  release weight (releasePodsOf release pods) st) as Hstep.
    fold (releasePodsOf release pods).
    destruct (syncReleasePods _ _ _ _ _ _ _ _ _ _) as [st'|?]; [|done].
    destruct Hstep as [Htarget Hcalls]. intros [-> Hrest]%IH.
    split; [by rewrite Hcalls, <- app_assoc|]. by constructor.
Qed.

Lemma syncReleases_quiet p cluster clientset sel totalPods totalWeight pods releases st :
  Forall (fun rw =>
            0 <= targetOf totalPods totalWeight pods rw
            ∧ stepRequests (namespace p) sel (targetOf totalPods totalWeight pods rw)
                (releasePodsOf rw.1 pods) = []) releases →
  ∃ w errs,
    syncReleases p cluster clientset (cacheInformer pods) sel totalPods totalWeight
      releases st = (Returned w errs, calls st).
Proof.
  revert st. induction releases as [|[release weight] rest IH]; intros st Hall; simpl;
    [by eauto|].
  apply Forall_cons in Hall as [[Htarget Hnil] Hall].
  pose proof (syncReleasePods_calls p cluster clientset sel totalPods totalWeight
                release weight (releasePodsOf release pods) st) as Hstep.
  fold (releasePodsOf release pods).
  unfold targetOf in Htarget, Hnil. simpl in Htarget, Hnil.
  destruct (syncReleasePods _ _ _ _ _ _ _ _ _ _) as [st'|?]; [|simpl in Hstep; lia].
  destruct Hstep as [_ Hcalls]. destruct (IH st' Hall) as (w & errs & ->).
  exists w, errs. rewrite Hcalls. simpl. rewrite Hnil. by rewrite app_nil_r.
Qed.

(** *** The requests of a run and the pods of a release *)

Lemma releasePodsOf_elem release pods pod :
  pod ∈ releasePodsOf release pods
  ↔ pod ∈ pods ∧ PodLabels pod !! ReleaseLabel = Some release.
Proof.
  unfold releasePodsOf. rewrite elem_of_List_filter, getsTraffic_singleton.
  destruct (PodLabels pod !! ReleaseLabel) as [v|]; [|naive_solver].
  rewrite String.eqb_eq. naive_solver.
Qed.

Lemma NoDup_fst_eq {A B} (l : list (A * B)) a b b' :
  NoDup l.*1 → (a, b) ∈ l → (a, b') ∈ l → b = b'.
Proof.
  induction l as [|[x y] l IH]; simpl; intros Hnd H1 H2; [by apply elem_of_nil in H1|].
  apply NoDup_cons in Hnd as [Hfresh Hnd].
  apply elem_of_cons in H1 as [H1|H1]; apply elem_of_cons in H2 as [H2|H2];
    simplify_eq; try done.
  - exfalso. apply Hfresh. by apply (list_elem_of_fmap_2 fst _ (x, b')).
  - exfalso. apply Hfresh. by apply (list_elem_of_fmap_2 fst _ (x, b)).
  - by apply IH.
Qed.

Lemma runRequests_release ns sel totalPods totalWeight pods releases release weight pod v :
  uniqueNames pods → NoDup releases.*1 → (release, weight) ∈ releases →
  pod ∈ releasePodsOf release pods →
  patchRequest ns v pod ∈ runRequests ns sel totalPods totalWeight pods releases
  ↔ patchRequest ns v pod
    ∈ stepRequests ns sel (targetOf totalPods totalWeight pods (release, weight))
        (releasePodsOf release pods).
Proof.
  intros Hu Hnd Hrw Hpod. unfold runRequests. rewrite list_elem_of_In, in_flat_map. split.
  - intros ([release' weight'] & Hin%list_elem_of_In & Hcall%list_elem_of_In).
    destruct (stepRequests_from _ _ _ _ _ Hcall) as (x & v' & Hx & _ & Heq).
    simpl in Hx. apply releasePodsOf_elem in Hx as [Hx Hrel'].
    apply releasePodsOf_elem in Hpod as [Hpod Hrel].
    assert (x = pod) as -> by (apply Hu; [done..|exact (eq_sym (f_equal CallPod Heq))]).
    assert (release' = release) as -> by congruence.
    by rewrite (NoDup_fst_eq _ _ _ _ Hnd Hrw Hin).
  - intros Hcall. exists (release, weight). by rewrite <- !list_elem_of_In.
Qed.

(** *** The total weight *)

Lemma sumWeights_from (releases : list (string * Z)) (total : Z) :
  GoInt.wrap32 total = total →
  fold_left (fun total rw => GoInt.wrap32 (total + rw.2)) releases total
  = GoInt.wrap32 (total + totalOf releases).
Proof.
  revert total. induction releases as [|rw rest IH]; intros total Hw; simpl.
  - by rewrite Z.add_0_r.
  - rewrite IH by (unfold GoInt.wrap32; by rewrite Z.mod_mod).
    rewrite BuildFacts.wrap32_add_l. f_equal. lia.
Qed.

Lemma sumWeights_total releases : sumWeights releases = GoInt.wrap32 (totalOf releases).
Proof. unfold sumWeights. by rewrite sumWeights_from. Qed.

Lemma totalOf_Permutation l l' : l ≡ₚ l' → totalOf l = totalOf l'.
Proof. induction 1; simpl; lia. Qed.

Lemma sumWeights_Permutation l l' : l ≡ₚ l' → sumWeights l = sumWeights l'.
Proof. intros H. by rewrite !sumWeights_total, (totalOf_Permutation _ _ H). Qed.


(** A second run, once the requests of a first run that returned are
    served, returns and sends no request. *)
Lemma SyncCluster_second_run p cluster clientset mapRange mapRange' pods weights errs sent :
  (∀ rw, mapRange rw ≡ₚ map_to_list rw) → (∀ rw, mapRange' rw ≡ₚ map_to_list rw) →
  NoDup (map PodName pods) →
  SyncCluster p cluster clientset (cacheInformer pods) mapRange
  = (Returned weights errs, sent) →
  ∃ weights' errs',
    SyncCluster p cluster clientset (cacheInformer (served (namespace p) sent pods)) mapRange'
    = (Returned weights' errs', []).
Proof.
  intros Hperm Hperm' Hnames Hrun.
  destruct (SyncCluster_cases p cluster clientset (cacheInformer pods) mapRange)
    as [(rw & sel & appPods & Hready)|[err Herr]]; [|congruence].
  rewrite (SyncCluster_ready _ _ _ _ _ _ _ _ Hready) in Hrun.
  apply syncReleases_calls in Hrun as [-> Htargets]. simpl in *.
  destruct Hready as (Hrw & Hsvc & Hpods). simpl in Hpods. injection Hpods as <-.
  set (sent := runRequests _ _ _ _ _ _) in *.
  set (pods2 := served (namespace p) sent pods).
  assert (Hready2 : ready p cluster clientset (cacheInformer pods2) rw sel
                      (List.filter (fun pod => getsTraffic pod {[ AppLabel := appName p ]})
                         pods2))
    by (split; [done|split; [done|reflexivity]]).
  rewrite (SyncCluster_ready _ _ _ _ _ _ _ _ Hready2).
  assert (Hsame : mapRange' rw ≡ₚ mapRange rw) by (by rewrite Hperm, Hperm').
  apply (syncReleases_quiet p cluster clientset sel _ _ pods2 (mapRange' rw)
           {| achievedWeights := ∅; errors := []; calls := [] |}).
  apply Forall_forall. intros [release weight] Hin. rewrite Hsame in Hin.
  assert (Htarget2 :
            targetOf (Z.of_nat (length (List.filter
                                  (fun pod => getsTraffic pod {[ AppLabel := appName p ]})
                                  pods2)))
              (sumWeights (mapRange' rw)) pods2 (release, weight)
            = targetOf (Z.of_nat (length (List.filter
                                    (fun pod => getsTraffic pod {[ AppLabel := appName p ]})
                                    pods)))
                (sumWeights (mapRange rw)) pods (release, weight)).
  { unfold targetOf, releasePodsOf, pods2. simpl.
    rewrite !served_listing by done. unfold served. rewrite !length_map.
    by rewrite (sumWeights_Permutation _ _ Hsame). }
  rewrite Htarget2. rewrite Forall_forall in Htargets.
  pose proof (Htargets _ Hin) as Htarget. split; [done|].
  unfold releasePodsOf, pods2. simpl. rewrite served_listing by done.
  fold (releasePodsOf release pods).
  apply stepRequests_served; [| | |done].
  - apply NoDup_List_filter. by apply NoDup_names_pods.
  - intros x y [Hx _]%releasePodsOf_elem [Hy _]%releasePodsOf_elem.
    by apply (NoDup_uniqueNames pods).
  - intros pod v Hpod Hv. apply runRequests_release; [|..|done|done].
    + by apply NoDup_uniqueNames.
    + rewrite Hperm. apply NoDup_fst_map_to_list.
Qed.



(** Two runs in a row on the uneven sample cluster, at weights 50 and 50:
    the first run takes one pod of [R2] out and puts the three idle pods of
    [R] in, and reports [R] at [round(4 / 10 * 100)]; once the requests are
    served the second run sends nothing, and reports the declared
    weights. *)
Example second_run_sends_nothing :
  let first :=
    SyncCluster (sampleShifter {[ "R" := 50; "R2" := 50 ]}) "c1" sampleClientset
      (cacheInformer unevenPods) map_to_list in
  first.1 = Returned {[ "R" := 40; "R2" := 50 ]} []
  ∧ map CallPod first.2 = ["s-0"; "r-1"; "r-2"; "r-3"]
  ∧ SyncCluster (sampleShifter {[ "R" := 50; "R2" := 50 ]}) "c1" sampleClientset
      (cacheInformer (served "default" first.2 unevenPods)) map_to_list
    = (Returned {[ "R" := 50; "R2" := 50 ]} [], []).
Proof. vm_compute. repeat split; reflexivity. Qed.

(** [round] rounds halves away from zero. *)
Example round_half_away :
  round (div (of_int 1) (of_int 2)) = 1
  ∧ round (div (of_int 3) (of_int 2)) = 2
  ∧ round (div (of_int 5) (of_int 2)) = 3
  ∧ round (div (of_int (-1)) (of_int 2)) = -1
  ∧ round (div (of_int (-5)) (of_int 2)) = -3
  ∧ round (div (of_int 12) (of_int 5)) = 2
  ∧ round (div (of_int 13) (of_int 5)) = 3
  ∧ round zero = 0.
Proof. vm_compute. repeat split; reflexivity. Qed.

(** The pod targets of the shrink scenario and of a third of three pods. *)
Example pod_targets :
  calculateReleasePodTarget 10 50 10 100 = 5
  ∧ calculateReleasePodTarget 2 50 10 100 = 2
  ∧ calculateReleasePodTarget 10 1 3 3 = 1
  ∧ calculateReleasePodTarget 10 1 10 3 = 4.
Proof. vm_compute. repeat split; reflexivity. Qed.

(** The run on the settled sample cluster sends nothing. *)
Example settled_scenario :
  SyncCluster (sampleShifter {[ "R" := 50; "R2" := 50 ]}) "c1" sampleClientset
    (cacheInformer settledPods) map_to_list
  = (Returned {[ "R" := 50; "R2" := 50 ]} [], []).
Proof. vm_compute. reflexivity. Qed.

End SyncFacts.

(** ** Release conditions, further *)

Module ConditionFacts.

Import Release ReleaseFacts.

Local Open Scope string_scope.

(** *** Writing twice *)

Lemma Set_stored_type status c :
  ∃ c', sameButTime c' c
        ∧ GetReleaseCondition (SetReleaseCondition status c).1 (CondType c) = Some c'.
Proof.
  unfold SetReleaseCondition.
  destruct (IsEmpty _) eqn:E; simpl.
  - apply IsEmpty_true in E as (a & Ha & HT & Hs & Hr & Hm). exists a. by rewrite Ha.
  - destruct (GetReleaseCondition status (CondType c)) as [cur|] eqn:Hget.
    + destruct (String.eqb (CondStatus cur) (CondStatus c)).
      * exists (withLastTransitionTime c (LastTransitionTime cur)).
        split; [done|]. unfold GetReleaseCondition. simpl.
        apply (Get_stored _ (withLastTransitionTime c (LastTransitionTime cur))).
      * exists c. split; [done|]. apply Get_stored.
    + exists c. split; [done|]. apply Get_stored.
Qed.

Lemma Set_same status c c' :
  sameButTime c' c →
  GetReleaseCondition status (CondType c) = Some c' →
  SetReleaseCondition status c = (status, None).
Proof.
  intros (HT & Hs & Hr & Hm) Hget. unfold SetReleaseCondition.
  rewrite Hget. replace (IsEmpty _) with true; [done|].
  symmetry. apply IsEmpty_true. eauto 6.
Qed.

(** X14.  Setting a condition and then a condition that agrees with it in type,
    status, reason and message: the second call changes nothing and returns
    no diff, whatever the two transition times; so for two conditions made
    by [NewReleaseCondition] from the same arguments at different times. *)
Theorem SetReleaseCondition_twice (status : ReleaseStatus) :
  (∀ c d,
      sameButTime d c →
      SetReleaseCondition (SetReleaseCondition status c).1 d
      = ((SetReleaseCondition status c).1, None))
  ∧ (∀ discard now later condType condStatus reason message,
        SetReleaseCondition
          (SetReleaseCondition status
             (NewReleaseCondition discard now condType condStatus reason message)).1
          (NewReleaseCondition discard later condType condStatus reason message)
        = ((SetReleaseCondition status
              (NewReleaseCondition discard now condType condStatus reason message)).1,
           None)).
Proof.
  assert (H : ∀ c d,
             sameButTime d c →
             SetReleaseCondition (SetReleaseCondition status c).1 d
             = ((SetReleaseCondition status c).1, None)).
  { intros c d Hd. destruct (Set_stored_type status c) as (c' & Hc' & Hget).
    apply Set_same with c'.
    - destruct Hd as (? & ? & ? & ?), Hc' as (? & ? & ? & ?). repeat split; congruence.
    - destruct Hd as (-> & _). exact Hget. }
  split; [exact H|]. intros. apply H. done.
Qed.

(** *** The conditions of the other types *)

Lemma Get_iff l T c :
  NoDup (map CondType l) →
  firstOfType l T = Some c ↔ c ∈ l ∧ CondType c = T.
Proof.
  intros Hnd. split; [apply Get_Some|]. intros [Hc HT].
  apply Get_unique; [done..|]. intros x Hx HxT.
  apply list_elem_of_lookup in Hx as [i Hi], Hc as [j Hj].
  assert (i = j) as ->; [|congruence].
  eapply NoDup_lookup; [exact Hnd| |]; rewrite list_lookup_fmap.
  - by rewrite Hi.
  - rewrite Hj. simpl. congruence.
Qed.

Lemma Get_ext l l' T :
  NoDup (map CondType l) → NoDup (map CondType l') →
  (∀ x, CondType x = T → x ∈ l ↔ x ∈ l') →
  firstOfType l T = firstOfType l' T.
Proof.
  intros Hl Hl' Hsame.
  destruct (firstOfType l T) as [x|] eqn:E.
  - symmetry. apply Get_iff; [done|]. apply Get_iff in E as [Hx HT]; [|done].
    split; [|done]. by apply Hsame.
  - destruct (firstOfType l' T) as [y|] eqn:E'; [|done].
    apply Get_iff in E' as [Hy HT]; [|done].
    apply Hsame in Hy; [|done]. by destruct (Get_None _ _ _ E Hy).
Qed.

Lemma Set_contents status c :
  Conditions (SetReleaseCondition status c).1 = Conditions status
  ∨ ∃ c', sameButTime c' c
          ∧ Conditions (SetReleaseCondition status c).1
            ≡ₚ filterOutCondition (Conditions status) (CondType c) ++ [c'].
Proof.
  unfold SetReleaseCondition. destruct (IsEmpty _); [by left|]. right. simpl.
  destruct (GetReleaseCondition status (CondType c)) as [cur|].
  - destruct (String.eqb (CondStatus cur) (CondStatus c)).
    + exists (withLastTransitionTime c (LastTransitionTime cur)). split; [done|].
      apply sortSlice_perm.
    + exists c. split; [done|]. apply sortSlice_perm.
  - exists c. split; [done|]. apply sortSlice_perm.
Qed.

Lemma Set_other status c T :
  NoDup (map CondType (Conditions status)) → T ≠ CondType c →
  GetReleaseCondition (SetReleaseCondition status c).1 T = GetReleaseCondition status T.
Proof.
  intros Hnd HT. unfold GetReleaseCondition.
  destruct (Set_contents status c) as [->|(c' & (Hc' & _) & Hperm)]; [done|].
  assert (Hnd' : NoDup (map CondType (Conditions (SetReleaseCondition status c).1))).
  { rewrite (Permutation_map CondType Hperm), <- Hc'. by apply appended_NoDup. }
  apply Get_ext; [done..|]. intros x Hx.
  rewrite Hperm, elem_of_app, filterOut_elem, list_elem_of_singleton. split.
  - intros [[? _]| ->]; [done|]. congruence.
  - intros Hin. left. split; [done|]. congruence.
Qed.

(** X15.  On a status with at most one condition per type, setting a condition
    leaves the condition read for every other type as it was, and the list
    holds the conditions of the other types and one condition of the type
    set. *)
Theorem SetReleaseCondition_other_types (status : ReleaseStatus) (c : ReleaseCondition) :
  NoDup (map CondType (Conditions status)) →
  (∀ T, T ≠ CondType c →
        GetReleaseCondition (SetReleaseCondition status c).1 T
        = GetReleaseCondition status T)
  ∧ (∃ c', sameButTime c' c
           ∧ Conditions (SetReleaseCondition status c).1
             ≡ₚ filterOutCondition (Conditions status) (CondType c) ++ [c'])
  ∧ NoDup (map CondType (Conditions (SetReleaseCondition status c).1)).
Proof.
  intros Hnd. split; [intros T HT; by apply Set_other|].
  assert (Hc : ∃ c', sameButTime c' c
                     ∧ Conditions (SetReleaseCondition status c).1
                       ≡ₚ filterOutCondition (Conditions status) (CondType c) ++ [c']).
  { destruct (Set_contents status c) as [Heq|Hc]; [|done].
    destruct (Set_stored_type status c) as (c' & Hc' & Hget).
    exists c'. split; [done|]. rewrite Heq.
    unfold GetReleaseCondition in Hget. rewrite Heq in Hget.
    apply Get_Some in Hget as [Hin HT].
    clear Heq. revert Hnd Hin. generalize (Conditions status). intros l.
    induction l as [|x l IH]; simpl; [by intros _ ?%elem_of_nil|].
    rewrite NoDup_cons. intros [Hx Hl] [->|Hin]%elem_of_cons.
    - rewrite (proj2 (String.eqb_eq _ _) HT).
      assert (filterOutCondition l (CondType c) = l) as ->.
      { clear IH Hl. induction l as [|y l IH]; simpl; [done|].
        destruct (String.eqb_spec (CondType y) (CondType c)) as [E|E].
        - destruct Hx. simpl. apply elem_of_cons. left. congruence.
        - f_equal. apply IH. intros ?. apply Hx. simpl. by right. }
      apply Permutation_cons_append.
    - destruct (String.eqb_spec (CondType x) (CondType c)) as [E|E].
      + destruct Hx. apply list_elem_of_fmap. exists c'. split; [congruence|done].
      + simpl. by rewrite <- IH. }
  split; [done|]. destruct Hc as (c' & (Hc' & _) & Hperm).
  rewrite (Permutation_map CondType Hperm), <- Hc'. by apply appended_NoDup.
Qed.

Lemma SetReleaseCondition_other_types_witness :
  GetReleaseCondition
    (SetReleaseCondition
       {| Phase := "WaitingForCommand"; AchievedStep := 0;
          Conditions := [conditionAt "Scheduled" "True" "" "" 10] |}
       (conditionAt "Complete" "False" "InProgress" "" 20)).1 "Scheduled"
  = Some (conditionAt "Scheduled" "True" "" "" 10).
Proof.
  refine (proj1 (SetReleaseCondition_other_types
                   {| Phase := "WaitingForCommand"; AchievedStep := 0;
                      Conditions := [conditionAt "Scheduled" "True" "" "" 10] |}
                   (conditionAt "Complete" "False" "InProgress" "" 20) _) "Scheduled" _).
  - apply (bool_decide_unpack _). vm_compute. exact I.
  - discriminate.
Defined.

(** *** The diff returned *)

Lemma IsEmpty_sameButTime cur a b :
  sameButTime a b →
  IsEmpty (NewReleaseConditionDiff cur (Some a))
  = IsEmpty (NewReleaseConditionDiff cur (Some b)).
Proof.
  intros (HT & Hs & Hr & Hm). unfold IsEmpty. simpl.
  destruct cur as [x|]; [|done]. by rewrite HT, Hs, Hr, Hm.
Qed.

(** X16.  [SetReleaseCondition] returns no diff exactly when it leaves the status
    as it was, which is when the condition read for the type agrees with
    the one set in status, reason and message.  A diff that is returned
    goes from the condition read for the type before the call to the
    condition read for it after the call; it is not empty and its text is
    not empty. *)
Theorem SetReleaseCondition_diff (status : ReleaseStatus) (c : ReleaseCondition) :
  match (SetReleaseCondition status c).2 with
  | None =>
      (SetReleaseCondition status c).1 = status
      ∧ ∃ cur, GetReleaseCondition status (CondType c) = Some cur ∧ sameButTime cur c
  | Some d =>
      c1 d = GetReleaseCondition status (CondType c)
      ∧ c2 d = GetReleaseCondition (SetReleaseCondition status c).1 (CondType c)
      ∧ IsEmpty d = false
      ∧ DiffString d ≠ ""
      ∧ (SetReleaseCondition status c).1 ≠ status
  end.
Proof.
  destruct (Set_stored_type status c) as (c' & Hc' & Hget).
  unfold SetReleaseCondition in *.
  destruct (IsEmpty (NewReleaseConditionDiff (GetReleaseCondition status (CondType c))
                       (Some c))) eqn:E; simpl in *.
  - split; [done|]. exists c'. done.
  - set (stored := match GetReleaseCondition status (CondType c) with
                   | Some cur =>
                       if String.eqb (CondStatus cur) (CondStatus c)
                       then withLastTransitionTime c (LastTransitionTime cur)
                       else c
                   | None => c
                   end) in *.
    assert (Hstored : sameButTime stored c).
    { unfold stored. destruct (GetReleaseCondition status (CondType c)) as [cur|]; [|done].
      by destruct (String.eqb _ _). }
    assert (HT : CondType stored = CondType c) by apply Hstored.
    assert (Hread : firstOfType
                      (sortSlice (filterOutCondition (Conditions status) (CondType stored)
                                  ++ [stored])) (CondType c) = Some stored).
    { rewrite <- HT. apply Get_stored. }
    assert (Hempty : IsEmpty (NewReleaseConditionDiff
                                (GetReleaseCondition status (CondType c)) (Some stored))
                     = false).
    { by rewrite (IsEmpty_sameButTime _ _ _ Hstored). }
    split; [done|]. split; [by rewrite <- Hread|]. split; [done|]. split.
    + unfold DiffString. simpl. rewrite Hempty. discriminate.
    + intros Heq.
      assert (Hsame : GetReleaseCondition status (CondType c) = Some stored).
      { rewrite <- Hread. unfold GetReleaseCondition. by rewrite <- Heq at 1. }
      rewrite Hsame in Hempty.
      assert (IsEmpty (NewReleaseConditionDiff (Some stored) (Some stored)) = true) as E'.
      { apply IsEmpty_true. exists stored. done. }
      congruence.
Qed.

(** *** The first condition of a type *)

(** X17.  [GetReleaseCondition] returns the first condition of the type in the
    list, also when several have the type, and nothing exactly when no
    condition has it. *)
Theorem GetReleaseCondition_first (status : ReleaseStatus) (T : string) :
  (∀ c,
      GetReleaseCondition status T = Some c
      ↔ ∃ before after,
          Conditions status = (before ++ c :: after)%list
          ∧ CondType c = T ∧ Forall (fun x => CondType x ≠ T) before)
  ∧ (GetReleaseCondition status T = None
     ↔ Forall (fun x => CondType x ≠ T) (Conditions status)).
Proof.
  unfold GetReleaseCondition. generalize (Conditions status). intros l. split.
  - intros c. induction l as [|x l IH]; simpl.
    + split; [done|]. intros (before & after & H & _). by destruct before.
    + destruct (String.eqb_spec (CondType x) T) as [E|E].
      * split.
        -- intros [= ->]. exists [], l. done.
        -- intros ([|y before] & after & Hl & HT & Hbefore).
           ++ by injection Hl as -> _.
           ++ injection Hl as -> _. by apply Forall_cons in Hbefore as [? _].
      * rewrite IH. split.
        -- intros (before & after & -> & HT & Hbefore). exists (x :: before), after.
           split; [done|]. split; [done|]. by constructor.
        -- intros ([|y before] & after & Hl & HT & Hbefore).
           ++ injection Hl as -> _. done.
           ++ injection Hl as -> ->. apply Forall_cons in Hbefore as [_ ?]. eauto.
  - induction l as [|x l IH]; simpl; [done|].
    destruct (String.eqb_spec (CondType x) T) as [E|E].
    + split; [done|]. by intros [? _]%Forall_cons.
    + rewrite IH. split; [by constructor|]. by intros [_ ?]%Forall_cons.
Qed.

(** *** Reading after filtering *)

Lemma Get_filterOut_same l T : firstOfType (filterOutCondition l T) T = None.
Proof.
  induction l as [|x l IH]; simpl; [done|].
  destruct (String.eqb (CondType x) T) eqn:E; [done|]. simpl. by rewrite E.
Qed.

Lemma Get_filterOut_other l T T' :
  T' ≠ T → firstOfType (filterOutCondition l T) T' = firstOfType l T'.
Proof.
  intros HT. induction l as [|x l IH]; simpl; [done|].
  destruct (String.eqb_spec (CondType x) T) as [E|E]; simpl.
  - rewrite (proj2 (String.eqb_neq _ _)) by congruence. done.
  - by rewrite IH.
Qed.

Lemma filterOut_absent l T : firstOfType l T = None → filterOutCondition l T = l.
Proof.
  induction l as [|x l IH]; simpl; [done|].
  destruct (String.eqb (CondType x) T); [done|]. intros H. by rewrite IH.
Qed.

(** X18.  [filterOutCondition] removes every condition of the type and keeps the
    others in their order: in the filtered list no condition of the type is
    read, the condition read for any other type is the one read before,
    filtering again changes nothing, and a list without the type is
    returned as it is.  [RemoveReleaseCondition] stores the filtered list
    in its own copy of the status: the condition is still read from the
    caller's status after the call. *)
Theorem filterOutCondition_reads (status : ReleaseStatus) (T : string) :
  let filtered := withConditions status (filterOutCondition (Conditions status) T) in
  GetReleaseCondition filtered T = None
  ∧ (∀ T', T' ≠ T → GetReleaseCondition filtered T' = GetReleaseCondition status T')
  ∧ filterOutCondition (Conditions filtered) T = Conditions filtered
  ∧ (GetReleaseCondition status T = None →
     filterOutCondition (Conditions status) T = Conditions status)
  ∧ GetReleaseCondition (RemoveReleaseCondition status T) T = GetReleaseCondition status T.
Proof.
  unfold GetReleaseCondition. simpl. split; [apply Get_filterOut_same|].
  split; [intros T' HT; by apply Get_filterOut_other|].
  split; [apply filterOut_absent, Get_filterOut_same|].
  split; [apply filterOut_absent|done].
Qed.

(** *** The text of a condition and of a diff *)

Lemma append_nil_r (s : string) : s ++ "" = s.
Proof. induction s as [|a s IH]; [done|]. change (String a (s ++ "") = String a s). by rewrite IH. Qed.

Lemma length_zero (s : string) : Nat.ltb 0 (String.length s) = false → s = "".
Proof. destruct s; [done|]. simpl. done. Qed.

Lemma joinSpace_cons ch rest :
  isNonEmpty ch = true →
  joinSpace (ch :: rest)
  = match rest with [] => ch | _ => ch ++ " " ++ joinSpace rest end.
Proof. by destruct rest. Qed.

Lemma condStr_fold (chunks : list string) (b : string) :
  fold_left
    (fun b ch =>
       if Nat.ltb 0 (String.length ch) then
         (if Nat.ltb 0 (String.length b) then b ++ " " ++ ch else b ++ ch)
       else b) chunks b
  = joinSpace (List.filter isNonEmpty (b :: chunks)).
Proof.
  revert b. induction chunks as [|ch rest IH]; intros b.
  - simpl. destruct (isNonEmpty b) eqn:Eb; [done|]. by apply length_zero.
  - cbn [fold_left]. rewrite IH. cbn [List.filter].
    fold (isNonEmpty ch). fold (isNonEmpty b).
    destruct (isNonEmpty ch) eqn:Ech; [|done].
    destruct (isNonEmpty b) eqn:Eb.
    + assert (isNonEmpty (b ++ " " ++ ch) = true) as -> by (by destruct b).
      destruct (List.filter isNonEmpty rest) as [|r R]; [done|].
      cbn [joinSpace]. by rewrite !PatchFacts.append_assoc.
    + apply length_zero in Eb as ->.
      change ("" ++ ch) with ch. by rewrite Ech.
Qed.

(** X19.  The text of a condition is its type, status, reason and message, those
    that are empty left out, with one space between two of them; the text
    of no condition is empty. *)
Theorem condStr_join (c : ReleaseCondition) :
  condStr (Some c)
  = joinSpace (List.filter isNonEmpty [CondType c; CondStatus c; Reason c; Message c])
  ∧ condStr None = "".
Proof. split; [|done]. unfold condStr. by rewrite condStr_fold. Qed.


(** *** Scheduled, complete, progressing *)

Section Predicates.

Variables Scheduled Complete ConditionTrue : string.

Local Abbreviation isScheduled := (ReleaseScheduled Scheduled ConditionTrue).
Local Abbreviation isComplete := (ReleaseComplete Complete ConditionTrue).
Local Abbreviation isProgressing := (ReleaseProgressing Complete ConditionTrue).

Lemma Set_reads_status status c :
  match GetReleaseCondition (SetReleaseCondition status c).1 (CondType c) with
  | Some stored => CondStatus stored = CondStatus c
  | None => False
  end.
Proof.
  destruct (Set_stored_type status c) as (c' & (_ & Hs & _) & ->). done.
Qed.

(** X21.  After a condition of the type [Complete] is set, the release is complete
    exactly when the status set is [True], and progressing otherwise; the
    same for [Scheduled].  Setting a condition of another type on a status
    with at most one condition per type changes neither.  A release without
    conditions is neither scheduled nor complete, and is progressing. *)
Theorem release_predicates_after_set (release : Release) (c : ReleaseCondition) :
  let after := withStatus release (SetReleaseCondition (Status release) c).1 in
  (CondType c = Complete →
   isComplete after = String.eqb (CondStatus c) ConditionTrue
   ∧ isProgressing after = negb (String.eqb (CondStatus c) ConditionTrue))
  ∧ (CondType c = Scheduled →
     isScheduled after = String.eqb (CondStatus c) ConditionTrue)
  ∧ (NoDup (map CondType (Conditions (Status release))) →
     (CondType c ≠ Complete →
      isComplete after = isComplete release ∧ isProgressing after = isProgressing release)
     ∧ (CondType c ≠ Scheduled → isScheduled after = isScheduled release))
  ∧ (Conditions (Status release) = [] →
     isScheduled release = false ∧ isComplete release = false
     ∧ isProgressing release = true).
Proof.
  unfold ReleaseProgressing, ReleaseComplete, ReleaseScheduled. simpl.
  pose proof (Set_reads_status (Status release) c) as Hread.
  split; [|split; [|split]].
  - intros <-. destruct (GetReleaseCondition _ _) as [stored|]; [|done]. by rewrite Hread.
  - intros <-. destruct (GetReleaseCondition _ _) as [stored|]; [|done]. by rewrite Hread.
  - intros Hnd. split.
    + intros HT. by rewrite Set_other.
    + intros HT. by rewrite Set_other.
  - unfold GetReleaseCondition. by intros ->.
Qed.

End Predicates.

End ConditionFacts.

(** ** Selected clusters and miscounts *)

Module FilterFacts.

Import Targets.

Section Filter.

Variable SliceContainsString : list string → string → bool.

Lemma Filter_fold (selected remove acc : list string) :
  fold_left
    (fun filtered c =>
       if negb (SliceContainsString remove c) then filtered ++ [c] else filtered)
    selected acc
  = acc ++ List.filter (fun c => negb (SliceContainsString remove c)) selected.
Proof.
  revert acc. induction selected as [|c rest IH]; intros acc; simpl.
  - by rewrite app_nil_r.
  - rewrite IH. destruct (negb _); [|done]. by rewrite <- app_assoc.
Qed.

Lemma Filter_filter (selected remove : list string) :
  FilterSelectedClusters SliceContainsString selected remove
  = List.filter (fun c => negb (SliceContainsString remove c)) selected.
Proof. unfold FilterSelectedClusters. by rewrite Filter_fold. Qed.

Lemma filter_sublist {A} (f : A → bool) (l : list A) : List.filter f l `sublist_of` l.
Proof.
  induction l as [|x l IH]; simpl; [done|].
  destruct (f x); [by apply sublist_skip|by apply sublist_cons].
Qed.

Lemma filter_twice {A} (f : A → bool) (l : list A) :
  List.filter f (List.filter f l) = List.filter f l.
Proof.
  induction l as [|x l IH]; simpl; [done|].
  destruct (f x) eqn:E; simpl; [|done]. by rewrite E, IH.
Qed.

(** X22.  The clusters kept are the selected clusters that
    [SliceContainsString] does not find among the clusters to remove, in
    the order of the selection and as often as they are selected; filtering
    the result again changes nothing.  When [SliceContainsString] tests
    membership, no cluster kept is among those to remove, and with nothing
    to remove the selection is returned. *)
Theorem FilterSelectedClusters_keeps (selected remove : list string) :
  (∀ l x, SliceContainsString l x = true ↔ x ∈ l) →
  FilterSelectedClusters SliceContainsString selected remove `sublist_of` selected
  ∧ (∀ x, x ∈ FilterSelectedClusters SliceContainsString selected remove
          ↔ x ∈ selected ∧ x ∉ remove)
  ∧ FilterSelectedClusters SliceContainsString
      (FilterSelectedClusters SliceContainsString selected remove) remove
    = FilterSelectedClusters SliceContainsString selected remove
  ∧ FilterSelectedClusters SliceContainsString selected [] = selected
  ∧ (∀ x, count_occ string_dec
            (FilterSelectedClusters SliceContainsString selected remove) x
          = if SliceContainsString remove x then 0%nat
            else count_occ string_dec selected x).
Proof.
  intros Hcontains. rewrite !Filter_filter.
  split; [apply filter_sublist|]. split; [|split; [|split]].
  - intros x. rewrite list_elem_of_In, filter_In, <- list_elem_of_In, negb_true_iff.
    rewrite <- (Hcontains remove x). destruct (SliceContainsString remove x); naive_solver.
  - apply filter_twice.
  - induction selected as [|c rest IH]; simpl; [done|].
    destruct (SliceContainsString [] c) eqn:E; simpl; [|by rewrite IH].
    apply Hcontains in E. by apply elem_of_nil in E.
  - intros x. induction selected as [|c rest IH]; simpl; [by destruct (SliceContainsString _ _)|].
    destruct (SliceContainsString remove c) eqn:Ec; simpl.
    + rewrite IH. destruct (string_dec c x) as [->|]; [by rewrite Ec|done].
    + rewrite IH. destruct (string_dec c x) as [->|]; [by rewrite Ec|done].
Qed.

End Filter.

Lemma containsString_spec l x : containsString l x = true ↔ x ∈ l.
Proof.
  unfold containsString. rewrite existsb_exists. split.
  - intros (y & Hy & ->%String.eqb_eq). by apply list_elem_of_In.
  - intros H. exists x. split; [by apply list_elem_of_In|apply String.eqb_refl].
Qed.

Lemma FilterSelectedClusters_keeps_witness :
  FilterSelectedClusters containsString ["c1"; "c2"; "c3"; "c2"] ["c3"; "c9"]
  `sublist_of` ["c1"; "c2"; "c3"; "c2"].
Proof.
  exact (proj1 (FilterSelectedClusters_keeps containsString
                  ["c1"; "c2"; "c3"; "c2"] ["c3"; "c9"] containsString_spec)).
Defined.

Example FilterSelectedClusters_scenario :
  FilterSelectedClusters containsString ["c1"; "c2"; "c3"; "c2"] ["c3"; "c9"]
  = ["c1"; "c2"; "c2"].
Proof. reflexivity. Qed.

Section Resolver.

Context {InstallationTarget TrafficTarget CapacityTarget : Type}.

Implicit Types client : ShipperClient InstallationTarget TrafficTarget CapacityTarget.


End Resolver.


End FilterFacts.

(** ** The pod label shifter, further *)

Module ShifterFacts.

Import F64 Traffic FloatFacts SyncFacts.

(** *** The traffic selector *)

(** X1.  A pod gets traffic exactly when its labels include the selector; so
    every pod gets traffic under the empty selector, and a pod does not
    when it lacks a key of the selector or carries another value for
    it. *)
Theorem getsTraffic_subseteq (pod : Pod) (trafficSelectors : gmap string string) :
  (getsTraffic pod trafficSelectors = true ↔ trafficSelectors ⊆ PodLabels pod)
  ∧ getsTraffic pod ∅ = true
  ∧ (getsTraffic pod trafficSelectors = false
     ↔ ∃ key trafficValue,
         trafficSelectors !! key = Some trafficValue
         ∧ PodLabels pod !! key ≠ Some trafficValue).
Proof.
  assert (Htrue : getsTraffic pod trafficSelectors = true
                  ↔ trafficSelectors ⊆ PodLabels pod).
  { unfold getsTraffic. rewrite forallb_forall, map_subseteq_spec. split.
    - intros H key value Hkey.
      specialize (H (key, value)). simpl in H.
      destruct (PodLabels pod !! key) as [podValue|].
      + f_equal. apply String.eqb_eq, H. by apply list_elem_of_In, elem_of_map_to_list.
      + discriminate H. by apply list_elem_of_In, elem_of_map_to_list.
    - intros H [key value] Hin%list_elem_of_In%elem_of_map_to_list. simpl.
      rewrite (H key value Hin). apply String.eqb_refl. }
  split; [exact Htrue|]. split; [done|].
  rewrite <- not_true_iff_false, Htrue, map_subseteq_spec. split.
  - intros Hnot.
    destruct (decide (Exists (fun kv => PodLabels pod !! kv.1 ≠ Some kv.2)
                        (map_to_list trafficSelectors))) as [Hex|Hall].
    + apply Exists_exists in Hex as ([key value] & Hin%elem_of_map_to_list & Hne). eauto.
    + destruct Hnot. intros key value Hkey.
      destruct (decide (PodLabels pod !! key = Some value)) as [|Hne]; [done|].
      destruct Hall. apply Exists_exists. exists (key, value).
      split; [by apply elem_of_map_to_list|done].
  - intros (key & value & Hkey & Hne) H. apply Hne. by apply H.
Qed.

(** *** One pass of the loop, in full *)

Lemma patchFailures_app clientset cluster history new more :
  patchFailures clientset cluster history (new ++ more)
  = patchFailures clientset cluster history new
    ++ patchFailures clientset cluster (history ++ new) more.
Proof.
  revert history. induction new as [|call rest IH]; intros history; simpl.
  - by rewrite app_nil_r.
  - rewrite IH, <- !app_assoc. done.
Qed.

Lemma patchFailures_length clientset cluster history new :
  (length (patchFailures clientset cluster history new) <= length new)%nat.
Proof.
  revert history. induction new as [|call rest IH]; intros history; simpl; [done|].
  rewrite length_app. specialize (IH (history ++ [call])).
  destruct (PodsPatch clientset history call); simpl; lia.
Qed.

Lemma patchFailures_not_math clientset cluster history new :
  Forall (fun e => isMathError e = false) (patchFailures clientset cluster history new).
Proof.
  revert history. induction new as [|call rest IH]; intros history; simpl; [constructor|].
  apply Forall_app. split; [|apply IH].
  destruct (PodsPatch clientset history call); repeat constructor.
Qed.

Lemma patchFailures_none clientset cluster history new :
  (∀ s c, PodsPatch clientset s c = None) →
  patchFailures clientset cluster history new = [].
Proof.
  intros Hnone. revert history. induction new as [|call rest IH]; intros history; simpl; [done|].
  by rewrite Hnone, IH.
Qed.

Lemma stepRequests_mathShort ns sel target pods :
  mathShort sel target pods = true → stepRequests ns sel target pods = [].
Proof.
  unfold mathShort, stepRequests. intros [H1 H2]%andb_true_iff. rewrite H2.
  apply Z.ltb_lt in H1.
  rewrite (proj2 (Z.eqb_neq _ _)) by lia. by rewrite (proj2 (Z.ltb_ge _ _)) by lia.
Qed.

Section Pass.

Variable p : podLabelShifter.
Variable cluster : string.
Variable clientset : Clientset.

Lemma shiftPods_failures current intended n pods errs sent shifted :
  match (shiftPods p cluster clientset current intended n pods errs sent shifted).2 with
  | Some (errs', shifted') =>
      let failed :=
        patchFailures clientset cluster sent
          (map (patchRequest (namespace p) intended)
             (List.filter (needsPatch current) (take n pods))) in
      errs' = errs ++ failed
      ∧ shifted' = shifted + Z.of_nat n - Z.of_nat (length failed)
  | None => True
  end.
Proof.
  revert pods errs sent shifted.
  induction n as [|n IH]; intros pods errs sent shifted; simpl.
  - rewrite app_nil_r. split; [done|lia].
  - destruct pods as [|pod rest]; simpl; [done|].
    destruct (needsPatch current pod) eqn:Hneeds; simpl.
    + destruct (PodsPatch clientset sent _) as [err|] eqn:Hpatch.
      * specialize (IH rest
                      (errs ++ [TargetClusterTrafficModifyingLabelError cluster (namespace p)
                                  (PodName pod) err])
                      (sent ++ [patchRequest (namespace p) intended pod]) shifted).
        destruct (shiftPods _ _ _ _ _ _ _ _ _ _).2 as [[errs' shifted']|]; [|done].
        destruct IH as [-> ->]. rewrite <- app_assoc. simpl. split; [done|lia].
      * specialize (IH rest errs (sent ++ [patchRequest (namespace p) intended pod])
                      (shifted + 1)).
        destruct (shiftPods _ _ _ _ _ _ _ _ _ _).2 as [[errs' shifted']|]; [|done].
        destruct IH as [-> ->]. simpl. split; [done|lia].
    + specialize (IH rest errs sent (shifted + 1)).
      destruct (shiftPods _ _ _ _ _ _ _ _ _ _).2 as [[errs' shifted']|]; [|done].
      destruct IH as [-> ->]. split; [done|lia].
Qed.

(** What one pass of the loop over the releases does to the state of the
    loop. *)
Lemma syncReleasePods_effect sel totalPods totalWeight release weight pods st :
  let target :=
    calculateReleasePodTarget (Z.of_nat (length pods)) weight totalPods totalWeight in
  let nTraffic := Z.of_nat (length (trafficPodsOf sel pods)) in
  let nIdle := Z.of_nat (length (idlePodsOf sel pods)) in
  let requests := stepRequests (namespace p) sel target pods in
  let failed := patchFailures clientset cluster (calls st) requests in
  match syncReleasePods p cluster clientset sel totalPods totalWeight release weight pods st with
  | Next st' =>
      0 <= target
      ∧ calls st' = calls st ++ requests
      ∧ (if mathShort sel target pods
         then errors st' = errors st ++ [TargetClusterMathError release nIdle (target - nTraffic)]
              ∧ achievedWeights st' = achievedWeights st
         else errors st' = errors st ++ failed
              ∧ achievedWeights st'
                = <[release := reportedWeight weight nTraffic target
                                 (Z.of_nat (length failed)) totalPods totalWeight]>
                    (achievedWeights st))
  | Panic sent =>
      target < 0
      ∧ sent = calls st ++ map (patchRequest (namespace p) Disabled)
                             (List.filter (needsPatch Enabled) (trafficPodsOf sel pods))
  end.
Proof.
  intros target nTraffic nIdle requests failed.
  subst requests failed. unfold syncReleasePods, stepRequests, mathShort, reportedWeight.
  rewrite partition_pods. fold target nTraffic nIdle.
  destruct (Z.eqb_spec nTraffic target) as [E|E].
  { rewrite (proj2 (Z.ltb_ge _ _)) by lia. simpl. rewrite !app_nil_r.
    split; [unfold nTraffic in *; lia|done]. }
  destruct (Z.ltb_spec target nTraffic) as [Habove|Hbelow].
  - rewrite (proj2 (Z.ltb_ge nTraffic target)) by lia. simpl.
    pose proof (shiftPods_spec p cluster clientset Enabled Disabled
                  (Z.to_nat (nTraffic - target))
                  (trafficPodsOf sel pods) (errors st) (calls st) 0) as [Hsent Hres].
    pose proof (shiftPods_failures Enabled Disabled (Z.to_nat (nTraffic - target))
                  (trafficPodsOf sel pods) (errors st) (calls st) 0) as Hfail.
    destruct (shiftPods _ _ _ _ _ _ _ _ _ _) as [sent [[errs removed]|]]; simpl in *.
    + destruct Hres as (Hn & _). destruct Hfail as [-> ->].
      split; [unfold nTraffic in *; lia|]. split; [done|]. split; [done|].
      f_equal. f_equal. unfold nTraffic in *. lia.
    + split; [unfold nTraffic in *; lia|]. rewrite Hsent. f_equal. f_equal. f_equal.
      apply take_ge. lia.
  - rewrite (proj2 (Z.ltb_lt nTraffic target)) by lia. simpl.
    destruct (Z.ltb_spec nIdle (target - nTraffic)) as [Hshort|Henough].
    + rewrite app_nil_r. split; [lia|done].
    + pose proof (shiftPods_spec p cluster clientset Disabled Enabled
                    (Z.to_nat (target - nTraffic))
                    (idlePodsOf sel pods) (errors st) (calls st) 0) as [Hsent Hres].
      pose proof (shiftPods_failures Disabled Enabled (Z.to_nat (target - nTraffic))
                    (idlePodsOf sel pods) (errors st) (calls st) 0) as Hfail.
      destruct (shiftPods _ _ _ _ _ _ _ _ _ _) as [sent [[errs added]|]]; simpl in *.
      * destruct Hfail as [-> ->].
        split; [lia|]. split; [done|]. split; [done|].
        f_equal. f_equal. unfold nTraffic in *. lia.
      * unfold nIdle, nTraffic in *. lia.
Qed.

(** *** The loop over the releases, in full *)

Variable informer : PodInformer.

Local Abbreviation listing release :=
  (PodsList informer (namespace p) {[ ReleaseLabel := release ]}).

Local Abbreviation loop := (syncReleases p cluster clientset informer).

Lemma syncReleases_app sel totalPods totalWeight before after st :
  loop sel totalPods totalWeight (before ++ after) st
  = match loop sel totalPods totalWeight before st with
    | (Returned weights errs, sent) =>
        loop sel totalPods totalWeight after
          {| achievedWeights := weights; errors := errs; calls := sent |}
    | stopped => stopped
    end.
Proof.
  revert st. induction before as [|[release weight] rest IH]; intros st; simpl.
  - by destruct st.
  - destruct (listing release) as [err|pods]; [done|].
    destruct (syncReleasePods _ _ _ _ _ _ _ _ _ _) as [st'|sent]; [apply IH|done].
Qed.

Lemma syncReleases_requests sel totalPods totalWeight releases st weights errs sent :
  loop sel totalPods totalWeight releases st = (Returned weights errs, sent) →
  sent = calls st
         ++ loopRequests informer (namespace p) sel totalPods totalWeight releases
  ∧ List.filter (fun e => negb (isMathError e)) errs
    = List.filter (fun e => negb (isMathError e)) (errors st)
      ++ patchFailures clientset cluster (calls st)
           (loopRequests informer (namespace p) sel totalPods totalWeight releases)
  ∧ Forall (fun rw => ∃ pods,
              listing rw.1 = inr pods
              ∧ 0 <= calculateReleasePodTarget (Z.of_nat (length pods)) rw.2
                       totalPods totalWeight) releases.
Proof.
  revert st. induction releases as [|[release weight] rest IH]; intros st; simpl.
  - intros [= _ <- <-]. by rewrite !app_nil_r.
  - destruct (listing release) as [err|pods] eqn:Hl; [done|].
    pose proof (syncReleasePods_effect sel totalPods totalWeight release weight pods st)
      as Hstep.
    destruct (syncReleasePods _ _ _ _ _ _ _ _ _ _) as [st'|?]; [|done].
    simpl in Hstep. destruct Hstep as (Htarget & Hcalls & Hrest).
    intros (-> & Herrs & Hall)%IH. rewrite Hcalls, <- app_assoc.
    split; [done|]. split; [|constructor; [by exists pods|done]].
    rewrite Herrs, Hcalls, patchFailures_app, app_assoc. f_equal.
    destruct (mathShort sel _ pods) eqn:Hshort.
    + destruct Hrest as [-> _]. rewrite List.filter_app.
      rewrite (stepRequests_mathShort _ _ _ _ Hshort). simpl. by rewrite !app_nil_r.
    + destruct Hrest as [-> _]. rewrite List.filter_app. f_equal.
      apply forallb_filter_id, forallb_forall. intros e He%list_elem_of_In.
      pose proof (patchFailures_not_math clientset cluster (calls st)
                    (stepRequests (namespace p) sel
                       (calculateReleasePodTarget (Z.of_nat (length pods)) weight
                          totalPods totalWeight) pods)) as Hnm.
      rewrite Forall_forall in Hnm. by rewrite (Hnm e He).
Qed.

Lemma syncReleases_returns sel totalPods totalWeight releases st :
  Forall (fun rw => ∃ pods,
            listing rw.1 = inr pods
            ∧ 0 <= calculateReleasePodTarget (Z.of_nat (length pods)) rw.2
                     totalPods totalWeight) releases →
  ∃ weights errs,
    loop sel totalPods totalWeight releases st
    = (Returned weights errs,
       calls st ++ loopRequests informer (namespace p) sel totalPods totalWeight releases).
Proof.
  revert st. induction releases as [|[release weight] rest IH]; intros st Hall; simpl.
  - rewrite app_nil_r. eauto.
  - apply Forall_cons in Hall as [(pods & Hl & Htarget) Hall]. simpl in Hl, Htarget.
    rewrite Hl.
    pose proof (syncReleasePods_effect sel totalPods totalWeight release weight pods st)
      as Hstep.
    destruct (syncReleasePods _ _ _ _ _ _ _ _ _ _) as [st'|?]; simpl in Hstep; [|lia].
    destruct Hstep as (_ & Hcalls & _).
    destruct (IH st' Hall) as (weights & errs & ->). rewrite Hcalls, <- app_assoc. eauto.
Qed.

Lemma syncReleases_failed sel totalPods totalWeight releases st err sent :
  loop sel totalPods totalWeight releases st = (Failed err, sent) →
  ∃ release e,
    err = TargetClusterReleasePodListingError release cluster (namespace p) e
    ∧ listing release = inl e.
Proof.
  revert st. induction releases as [|[release weight] rest IH]; intros st; simpl; [done|].
  destruct (listing release) as [e|pods] eqn:Hl; [intros [= <- <-]; eauto|].
  destruct (syncReleasePods _ _ _ _ _ _ _ _ _ _) as [st'|?]; [apply IH|done].
Qed.

End Pass.

Lemma stepRequests_length ns sel target pods :
  Z.of_nat (length (stepRequests ns sel target pods))
  <= Z.abs (Z.of_nat (length (trafficPodsOf sel pods)) - target).
Proof.
  assert (Hle : ∀ (f : Pod → bool) v (n : Z) (l : list Pod),
             0 <= n →
             Z.of_nat (length (map (patchRequest ns v) (List.filter f (take (Z.to_nat n) l))))
             <= n).
  { intros f v n l Hn. rewrite length_map.
    pose proof (filter_length_le f (take (Z.to_nat n) l)).
    pose proof (length_take l (Z.to_nat n)). lia. }
  unfold stepRequests.
  set (nTraffic := Z.of_nat (length (trafficPodsOf sel pods))).
  destruct (Z.eqb_spec nTraffic target); [simpl; lia|].
  destruct (Z.ltb_spec target nTraffic).
  - pose proof (Hle (needsPatch Enabled) Disabled (nTraffic - target)
                  (trafficPodsOf sel pods) ltac:(lia)). lia.
  - destruct (_ <? _); [simpl; lia|].
    pose proof (Hle (needsPatch Disabled) Enabled (target - nTraffic)
                  (idlePodsOf sel pods) ltac:(lia)). lia.
Qed.

(** *** The run: fatal errors *)

(** X2.  The errors that end a run before the loop over the releases, each with
    no request sent: no weights for the cluster, the services not listed,
    not exactly one production service, a service without selector, the
    pods of the application not listed.  A run that fails after sending
    requests fails on listing the pods of a release. *)
Theorem SyncCluster_fatal_errors p cluster clientset informer mapRange :
  let run := SyncCluster p cluster clientset informer mapRange in
  (clusterReleaseWeights p !! cluster = None →
   run = (Failed (NoWeightsForCluster cluster), []))
  ∧ (is_Some (clusterReleaseWeights p !! cluster) →
     (∀ err,
         ServicesList clientset (namespace p) (serviceSelector p) = inl err →
         run = (Failed (TargetClusterFetchServiceFailedError cluster (serviceSelector p)
                          (namespace p) err), []))
     ∧ (∀ items,
           ServicesList clientset (namespace p) (serviceSelector p) = inr items →
           length items ≠ 1%nat →
           run = (Failed (TargetClusterWrongServiceCountError cluster (serviceSelector p)
                            (namespace p) (Z.of_nat (length items))), []))
     ∧ (∀ prodSvc,
           ServicesList clientset (namespace p) (serviceSelector p) = inr [prodSvc] →
           ServiceSelector prodSvc = None →
           run = (Failed (TargetClusterServiceMissesSelectorError cluster (namespace p)
                            (ServiceName prodSvc)), []))
     ∧ (∀ prodSvc trafficSelector err,
           ServicesList clientset (namespace p) (serviceSelector p) = inr [prodSvc] →
           ServiceSelector prodSvc = Some trafficSelector →
           PodsList informer (namespace p) {[ AppLabel := appName p ]} = inl err →
           run = (Failed (TargetClusterPodListingError cluster (namespace p) err), [])))
  ∧ (∀ err sent,
        run = (Failed err, sent) → sent ≠ [] →
        ∃ release e,
          err = TargetClusterReleasePodListingError release cluster (namespace p) e
          ∧ PodsList informer (namespace p) {[ ReleaseLabel := release ]} = inl e).
Proof.
  intros run. subst run. split; [|split].
  - intros Hnone. unfold SyncCluster. by rewrite Hnone.
  - intros [rw Hrw]. unfold SyncCluster. rewrite Hrw. split; [|split; [|split]].
    + by intros err ->.
    + intros items -> Hlen. by destruct items as [|? [|? ?]].
    + by intros svc -> ->.
    + by intros svc sel err -> -> ->.
  - intros err sent Hrun Hsent.
    destruct (SyncCluster_cases p cluster clientset informer mapRange)
      as [(rw & sel & pods & Hready)|[err' Herr]]; [|congruence].
    rewrite (SyncCluster_ready _ _ _ _ _ _ _ _ Hready) in Hrun.
    by apply syncReleases_failed in Hrun.
Qed.

(** X3.  When the pods of a release cannot be listed, the run fails with the
    error of that release; the requests of the releases visited before it
    have been sent, and the weights and errors recorded for them are not
    returned. *)
Theorem SyncCluster_listing_failure p cluster clientset informer mapRange
    releaseWeights trafficSelector pods before release weight after err :
  ready p cluster clientset informer releaseWeights trafficSelector pods →
  mapRange releaseWeights = before ++ (release, weight) :: after →
  Forall (fun rw => ∃ releasePods,
            PodsList informer (namespace p) {[ ReleaseLabel := rw.1 ]} = inr releasePods
            ∧ 0 <= calculateReleasePodTarget (Z.of_nat (length releasePods)) rw.2
                     (Z.of_nat (length pods)) (sumWeights (mapRange releaseWeights)))
    before →
  PodsList informer (namespace p) {[ ReleaseLabel := release ]} = inl err →
  SyncCluster p cluster clientset informer mapRange
  = (Failed (TargetClusterReleasePodListingError release cluster (namespace p) err),
     loopRequests informer (namespace p) trafficSelector (Z.of_nat (length pods))
       (sumWeights (mapRange releaseWeights)) before).
Proof.
  intros Hready Hrange Hbefore Hl.
  rewrite (SyncCluster_ready _ _ _ _ _ _ _ _ Hready).
  rewrite Hrange at 2. rewrite syncReleases_app.
  destruct (syncReleases_returns p cluster clientset informer trafficSelector _ _ _
              {| achievedWeights := ∅; errors := []; calls := [] |} Hbefore)
    as (weights & errs & ->).
  simpl. by rewrite Hl.
Qed.

(** *** The run: requests, errors and weights *)


Lemma syncReleases_clients p cluster first second informer sel totalPods totalWeight
    releases st st' :
  calls st = calls st' →
  (syncReleases p cluster first informer sel totalPods totalWeight releases st).2
  = (syncReleases p cluster second informer sel totalPods totalWeight releases st').2
  ∧ sameEnding
      (syncReleases p cluster first informer sel totalPods totalWeight releases st).1
      (syncReleases p cluster second informer sel totalPods totalWeight releases st').1.
Proof.
  revert st st'. induction releases as [|[release weight] rest IH]; intros st st' Hcalls;
    simpl; [done|].
  destruct (PodsList informer _ _) as [err|pods]; [done|].
  pose proof (syncReleasePods_effect p cluster first sel totalPods totalWeight
                release weight pods st) as H1.
  pose proof (syncReleasePods_effect p cluster second sel totalPods totalWeight
                release weight pods st') as H2.
  destruct (syncReleasePods p cluster first _ _ _ _ _ _ _) as [a|s1];
    destruct (syncReleasePods p cluster second _ _ _ _ _ _ _) as [b|s2]; simpl in *.
  - apply IH. destruct H1 as (_ & -> & _), H2 as (_ & -> & _). by rewrite Hcalls.
  - lia.
  - lia.
  - destruct H1 as [_ ->], H2 as [_ ->]. by rewrite Hcalls.
Qed.

(** X5.  Failed patches are tolerated: two runs with clients that list the same
    services send the same requests and end the same way, whichever of the
    requests the clients fail. *)
Theorem SyncCluster_tolerates_failures p cluster first second informer mapRange :
  ServicesList first (namespace p) (serviceSelector p)
  = ServicesList second (namespace p) (serviceSelector p) →
  (SyncCluster p cluster first informer mapRange).2
  = (SyncCluster p cluster second informer mapRange).2
  ∧ sameEnding (SyncCluster p cluster first informer mapRange).1
      (SyncCluster p cluster second informer mapRange).1.
Proof.
  intros Hsvc. unfold SyncCluster. rewrite Hsvc.
  destruct (clusterReleaseWeights p !! cluster) as [rw|]; [|done].
  destruct (ServicesList second _ _) as [err|[|svc [|? ?]]]; [done..| |done].
  destruct (ServiceSelector svc) as [sel|]; [|done].
  destruct (PodsList informer _ _) as [err|pods]; [done|].
  by apply syncReleases_clients.
Qed.

(** X6.  The errors a run returns, the math errors apart, are the failures of
    its requests: one error for each request the client fails, in the order
    of the requests.  With pod lists of feasible length there is no math
    error, so the errors are these failures, at most one for each request,
    and none when the client fails no request. *)
Theorem SyncCluster_errors p cluster clientset informer mapRange weights errs sent :
  SyncCluster p cluster clientset informer mapRange = (Returned weights errs, sent) →
  List.filter (fun e => negb (isMathError e)) errs
  = patchFailures clientset cluster [] sent
  ∧ (feasible informer →
     errs = patchFailures clientset cluster [] sent
     ∧ (length errs <= length sent)%nat
     ∧ ((∀ s c, PodsPatch clientset s c = None) → errs = [])).
Proof.
  intros Hrun.
  destruct (SyncCluster_cases p cluster clientset informer mapRange)
    as [(rw & sel & pods & Hready)|[err Herr]]; [|congruence].
  rewrite (SyncCluster_ready _ _ _ _ _ _ _ _ Hready) in Hrun.
  pose proof (syncReleases_requests _ _ _ _ _ _ _ _ _ _ _ _ Hrun) as (Hsent & Herrs & _).
  simpl in Hsent, Herrs. rewrite <- Hsent in Herrs. split; [done|].
  intros Hf.
  assert (Hall : errs = patchFailures clientset cluster [] sent).
  { rewrite <- Herrs. symmetry. apply forallb_filter_id, forallb_forall.
    intros e He%list_elem_of_In.
    assert (Hnm : Forall (fun e => isMathError e = false) errs)
      by (eapply syncReleases_no_math_error; [exact Hf| |exact Hrun]; constructor).
    rewrite Forall_forall in Hnm. by rewrite (Hnm e He). }
  split; [done|]. split.
  - rewrite Hall. apply patchFailures_length.
  - intros Hnone. rewrite Hall. by apply patchFailures_none.
Qed.

Lemma syncReleases_reports sel p cluster clientset informer totalPods totalWeight
    releases st weights errs sent release :
  syncReleases p cluster clientset informer sel totalPods totalWeight releases st
  = (Returned weights errs, sent) →
  is_Some (weights !! release) →
  is_Some (achievedWeights st !! release) ∨ release ∈ releases.*1.
Proof.
  revert st. induction releases as [|[r weight] rest IH]; intros st; simpl.
  - intros [= <- _ _]. auto.
  - destruct (PodsList informer _ _) as [err|pods]; [done|].
    pose proof (syncReleasePods_effect p cluster clientset sel totalPods totalWeight
                  r weight pods st) as Hstep.
    destruct (syncReleasePods _ _ _ _ _ _ _ _ _ _) as [st'|?]; [|done].
    simpl in Hstep. destruct Hstep as (_ & _ & Hrest).
    intros Hrun Hsome. destruct (IH st' Hrun Hsome) as [Hst'|Hin].
    + destruct (mathShort _ _ _).
      * destruct Hrest as [_ Hw]. rewrite Hw in Hst'. auto.
      * destruct Hrest as [_ Hw]. rewrite Hw in Hst'.
        destruct (decide (r = release)) as [->|Hne]; [right; left|].
        rewrite lookup_insert_ne in Hst' by done. auto.
    + right. by right.
Qed.

(** X7.  A run reports a weight for no release other than the releases that have
    a weight in the cluster; with pod lists of feasible length it reports
    one for each of them. *)
Theorem SyncCluster_reports_releases p cluster clientset informer mapRange
    releaseWeights trafficSelector pods weights errs sent :
  mapRange releaseWeights ≡ₚ map_to_list releaseWeights →
  ready p cluster clientset informer releaseWeights trafficSelector pods →
  SyncCluster p cluster clientset informer mapRange = (Returned weights errs, sent) →
  (∀ release, is_Some (weights !! release) → is_Some (releaseWeights !! release))
  ∧ (feasible informer →
     ∀ release, is_Some (releaseWeights !! release) → is_Some (weights !! release)).
Proof.
  intros Hperm Hready Hrun. rewrite (SyncCluster_ready _ _ _ _ _ _ _ _ Hready) in Hrun.
  split.
  - intros release Hsome.
    destruct (syncReleases_reports _ _ _ _ _ _ _ _ _ _ _ _ release Hrun Hsome)
      as [Hinit|Hin].
    + simpl in Hinit. rewrite lookup_empty in Hinit. by destruct Hinit.
    + rewrite Hperm in Hin. apply list_elem_of_fmap in Hin as ([r w] & -> & Hin).
      apply elem_of_map_to_list in Hin. simpl. eauto.
  - intros Hf release [weight Hrw].
    assert (Hnd : NoDup (mapRange releaseWeights).*1).
    { rewrite Hperm. apply NoDup_fst_map_to_list. }
    destruct (syncReleases_reported _ _ _ _ _ _ _ _ _ _ _ _ Hf Hnd Hrun) as (_ & _ & Hrep).
    destruct (Hrep release weight) as (ps & before & failed & after & _ & _ & _ & ->);
      [|eauto].
    rewrite Hperm. by apply elem_of_map_to_list.
Qed.

(** *** The order of the range *)

Lemma patchFailures_indep clientset cluster history new :
  (∀ s c, PodsPatch clientset s c = PodsPatch clientset [] c) →
  patchFailures clientset cluster history new = patchFailures clientset cluster [] new.
Proof.
  intros Hindep. revert history. generalize (@nil PatchCall).
  induction new as [|call rest IH]; intros h h'; simpl; [done|].
  rewrite (Hindep h' call), (Hindep h call). f_equal. apply IH.
Qed.

Section Order.

Variable p : podLabelShifter.
Variable cluster : string.
Variable clientset : Clientset.
Variable informer : PodInformer.

Hypothesis Hindep : ∀ s c, PodsPatch clientset s c = PodsPatch clientset [] c.

Local Abbreviation loop := (syncReleases p cluster clientset informer).

(** A pass panics from every state, or adds to every state the same
    weight, errors and requests. *)
Lemma pass_delta sel totalPods totalWeight release weight pods :
  (∀ st, ∃ sent,
      syncReleasePods p cluster clientset sel totalPods totalWeight release weight pods st
      = Panic sent)
  ∨ (∃ (dw : option Z) (de : list SyncError) (dc : list PatchCall),
       ∀ st,
         syncReleasePods p cluster clientset sel totalPods totalWeight release weight pods st
         = Next {| achievedWeights :=
                     match dw with
                     | Some v => <[release := v]> (achievedWeights st)
                     | None => achievedWeights st
                     end;
                   errors := errors st ++ de;
                   calls := calls st ++ dc |}).
Proof.
  set (target := calculateReleasePodTarget (Z.of_nat (length pods)) weight
                   totalPods totalWeight).
  destruct (decide (target < 0)) as [Hneg|Hpos].
  - left. intros st.
    pose proof (syncReleasePods_effect p cluster clientset sel totalPods totalWeight
                  release weight pods st) as Hstep.
    destruct (syncReleasePods _ _ _ _ _ _ _ _ _ _) as [st'|sent]; [|eauto].
    simpl in Hstep. fold target in Hstep. lia.
  - right.
    set (requests := stepRequests (namespace p) sel target pods).
    set (failed := patchFailures clientset cluster [] requests).
    exists (if mathShort sel target pods then None
            else Some (reportedWeight weight
                         (Z.of_nat (length (trafficPodsOf sel pods))) target
                         (Z.of_nat (length failed)) totalPods totalWeight)),
           (if mathShort sel target pods
            then [TargetClusterMathError release
                    (Z.of_nat (length (idlePodsOf sel pods)))
                    (target - Z.of_nat (length (trafficPodsOf sel pods)))]
            else failed),
           requests.
    intros st.
    pose proof (syncReleasePods_effect p cluster clientset sel totalPods totalWeight
                  release weight pods st) as Hstep.
    destruct (syncReleasePods _ _ _ _ _ _ _ _ _ _) as [st'|sent];
      simpl in Hstep; fold target in Hstep; [|lia].
    fold requests in Hstep. rewrite (patchFailures_indep _ _ _ _ Hindep) in Hstep.
    fold failed in Hstep. destruct Hstep as (_ & Hcalls & Hrest).
    destruct st' as [w e c]. simpl in *. subst c.
    destruct (mathShort sel target pods); destruct Hrest as [-> ->]; done.
Qed.

Lemma sameResult_trans a b c : sameResult a b → sameResult b c → sameResult a c.
Proof.
  unfold sameResult. destruct a.1, b.1, c.1; try done.
  intros (-> & He & Hs) (-> & He' & Hs'). split; [done|]. split; by etrans.
Qed.

Lemma syncReleases_same sel totalPods totalWeight releases st st' :
  sameState st st' →
  sameResult (loop sel totalPods totalWeight releases st)
    (loop sel totalPods totalWeight releases st').
Proof.
  revert st st'. induction releases as [|[release weight] rest IH]; intros st st' Hst; simpl.
  - exact Hst.
  - destruct (PodsList informer _ _) as [err|pods]; [done|].
    destruct (pass_delta sel totalPods totalWeight release weight pods)
      as [Hpanic|(dw & de & dc & Hnext)].
    + destruct (Hpanic st) as [s ->], (Hpanic st') as [s' ->]. done.
    + rewrite (Hnext st), (Hnext st'). apply IH.
      destruct Hst as (Hw & He & Hc). repeat split; simpl.
      * by rewrite Hw.
      * by rewrite He.
      * by rewrite Hc.
Qed.

Lemma syncReleases_Permutation sel totalPods totalWeight releases releases' :
  releases ≡ₚ releases' → NoDup releases.*1 →
  ∀ st st', sameState st st' →
    sameResult (loop sel totalPods totalWeight releases st)
      (loop sel totalPods totalWeight releases' st').
Proof.
  induction 1 as [|[release weight] l l' Hperm IH|[r1 w1] [r2 w2] l|l l' l'' H1 IH1 H2 IH2];
    intros Hnd st st' Hst.
  - exact Hst.
  - simpl in *. apply NoDup_cons in Hnd as [_ Hnd].
    destruct (PodsList informer _ _) as [err|pods]; [done|].
    destruct (pass_delta sel totalPods totalWeight release weight pods)
      as [Hpanic|(dw & de & dc & Hnext)].
    + destruct (Hpanic st) as [s ->], (Hpanic st') as [s' ->]. done.
    + rewrite (Hnext st), (Hnext st'). apply IH; [done|].
      destruct Hst as (Hw & He & Hc). repeat split; simpl.
      * by rewrite Hw.
      * by rewrite He.
      * by rewrite Hc.
  - simpl in Hnd. apply NoDup_cons in Hnd as [Hne _].
    assert (r2 ≠ r1) as Hr by (intros ->; apply Hne; left).
    cbn [syncReleases].
    destruct (PodsList informer (namespace p) {[ ReleaseLabel := r1 ]}) as [e1|pods1];
      destruct (PodsList informer (namespace p) {[ ReleaseLabel := r2 ]}) as [e2|pods2].
    + done.
    + destruct (syncReleasePods _ _ _ _ _ _ r2 _ _ _); done.
    + destruct (syncReleasePods _ _ _ _ _ _ r1 _ _ _); done.
    + destruct (pass_delta sel totalPods totalWeight r1 w1 pods1)
        as [Hp1|(dw1 & de1 & dc1 & Hn1)];
        destruct (pass_delta sel totalPods totalWeight r2 w2 pods2)
          as [Hp2|(dw2 & de2 & dc2 & Hn2)].
      * destruct (Hp2 st) as [s ->], (Hp1 st') as [s' ->]. done.
      * rewrite (Hn2 st). destruct (Hp1 st') as [s' ->].
        destruct (Hp1 {| achievedWeights := match dw2 with
                                            | Some v => <[r2:=v]> (achievedWeights st)
                                            | None => achievedWeights st
                                            end;
                         errors := errors st ++ de2; calls := calls st ++ dc2 |})
          as [s ->]. done.
      * destruct (Hp2 st) as [s ->]. rewrite (Hn1 st').
        destruct (Hp2 {| achievedWeights := match dw1 with
                                            | Some v => <[r1:=v]> (achievedWeights st')
                                            | None => achievedWeights st'
                                            end;
                         errors := errors st' ++ de1; calls := calls st' ++ dc1 |})
          as [s' ->]. done.
      * rewrite (Hn2 st), (Hn1 st'), Hn1, Hn2. apply syncReleases_same.
        destruct Hst as (Hw & He & Hc). repeat split; simpl.
        -- rewrite Hw. destruct dw1, dw2; try done. by apply insert_insert_ne.
        -- rewrite He, <- !app_assoc. f_equiv. apply Permutation_app_comm.
        -- rewrite Hc, <- !app_assoc. f_equiv. apply Permutation_app_comm.
  - eapply sameResult_trans.
    + apply IH1; [done|]. by instantiate (1 := st).
    + apply IH2; [by rewrite <- H1|done].
Qed.

End Order.

(** X8.  When the outcome of a patch does not depend on the requests sent before
    it, the order in which [range] visits the releases does not matter to
    a run that returns: in any other order the run returns the same
    weights, the same errors and sends the same requests, in another
    order. *)
Theorem SyncCluster_range_order p cluster clientset informer mapRange mapRange'
    weights errs sent :
  (∀ rw, mapRange rw ≡ₚ map_to_list rw) → (∀ rw, mapRange' rw ≡ₚ map_to_list rw) →
  (∀ s c, PodsPatch clientset s c = PodsPatch clientset [] c) →
  SyncCluster p cluster clientset informer mapRange = (Returned weights errs, sent) →
  ∃ errs' sent',
    SyncCluster p cluster clientset informer mapRange' = (Returned weights errs', sent')
    ∧ errs ≡ₚ errs' ∧ sent ≡ₚ sent'.
Proof.
  intros Hperm Hperm' Hindep Hrun.
  destruct (SyncCluster_cases p cluster clientset informer mapRange)
    as [(rw & sel & pods & Hready)|[err Herr]]; [|congruence].
  rewrite (SyncCluster_ready _ _ _ _ _ _ _ _ Hready) in Hrun.
  rewrite (SyncCluster_ready _ _ _ _ mapRange' _ _ _ Hready).
  assert (Hsame : mapRange rw ≡ₚ mapRange' rw) by (by rewrite Hperm, Hperm').
  rewrite <- (sumWeights_Permutation _ _ Hsame).
  assert (Hnd : NoDup (mapRange rw).*1) by (rewrite Hperm; apply NoDup_fst_map_to_list).
  pose proof (syncReleases_Permutation p cluster clientset informer Hindep sel
                (Z.of_nat (length pods)) (sumWeights (mapRange rw)) _ _ Hsame Hnd
                {| achievedWeights := ∅; errors := []; calls := [] |}
                {| achievedWeights := ∅; errors := []; calls := [] |}
                ltac:(done)) as Hres.
  rewrite Hrun in Hres. unfold sameResult in Hres. simpl in Hres.
  destruct (syncReleases _ _ _ _ _ _ _ (mapRange' rw) _) as [[w' e'| |] s']; try done.
  simpl in Hres. destruct Hres as (-> & He & Hs). eauto.
Qed.

(** *** Convergence *)

Lemma getsTraffic_true pod sel :
  getsTraffic pod sel = true
  ↔ ∀ key value, sel !! key = Some value → PodLabels pod !! key = Some value.
Proof.
  unfold getsTraffic. rewrite forallb_forall. split.
  - intros H key value Hkey.
    specialize (H (key, value)). simpl in H.
    destruct (PodLabels pod !! key) as [podValue|].
    + f_equal. apply String.eqb_eq, H. by apply list_elem_of_In, elem_of_map_to_list.
    + discriminate H. by apply list_elem_of_In, elem_of_map_to_list.
  - intros H [key value] Hin%list_elem_of_In%elem_of_map_to_list. simpl.
    rewrite (H key value Hin). apply String.eqb_refl.
Qed.

Lemma switchable_traffic sel pod :
  sel !! PodTrafficStatusLabel = Some Enabled → switchable sel pod →
  getsTraffic pod sel = true ↔ PodLabels pod !! PodTrafficStatusLabel = Some Enabled.
Proof.
  intros Hsel [Hother _]. rewrite getsTraffic_true. split; [by intros H; apply H|].
  intros Hl key value Hkey.
  destruct (decide (key = PodTrafficStatusLabel)) as [->|Hne]; [congruence|].
  by apply Hother.
Qed.

Lemma switchable_relabel sel pod value :
  sel !! PodTrafficStatusLabel = Some Enabled → switchable sel pod →
  getsTraffic (relabel value pod) sel = true ↔ value = Enabled.
Proof.
  intros Hsel [Hother _]. rewrite getsTraffic_true. simpl. split.
  - intros H. specialize (H _ _ Hsel). rewrite lookup_insert_eq in H. congruence.
  - intros -> key v Hkey.
    destruct (decide (key = PodTrafficStatusLabel)) as [->|Hne].
    + rewrite lookup_insert_eq. congruence.
    + rewrite lookup_insert_ne by done. by apply Hother.
Qed.

Lemma shifted_out sel (l : list Pod) :
  sel !! PodTrafficStatusLabel = Some Enabled → Forall (switchable sel) l →
  Forall (fun pod => getsTraffic pod sel = true) l →
  List.filter (fun pod => getsTraffic pod sel) (map (shiftIf Enabled Disabled) l) = [].
Proof.
  intros Hsel Hsw Ht. apply filter_none. intros y (x & -> & Hx)%list_elem_of_fmap.
  rewrite Forall_forall in Hsw, Ht. specialize (Hsw x Hx). specialize (Ht x Hx).
  apply (switchable_traffic _ _ Hsel Hsw) in Ht. unfold shiftIf, needsPatch. rewrite Ht.
  simpl. apply not_true_iff_false. rewrite (switchable_relabel _ _ _ Hsel Hsw). discriminate.
Qed.

Lemma shifted_in sel (l : list Pod) :
  sel !! PodTrafficStatusLabel = Some Enabled → Forall (switchable sel) l →
  Forall (fun pod => getsTraffic pod sel = false) l →
  List.filter (fun pod => negb (getsTraffic pod sel)) (map (shiftIf Disabled Enabled) l) = [].
Proof.
  intros Hsel Hsw Ht. apply filter_none. intros y (x & -> & Hx)%list_elem_of_fmap.
  rewrite Forall_forall in Hsw, Ht. specialize (Hsw x Hx). specialize (Ht x Hx).
  apply not_true_iff_false in Ht. rewrite (switchable_traffic _ _ Hsel Hsw) in Ht.
  assert (needsPatch Disabled x = true) as Hneeds.
  { unfold needsPatch. destruct Hsw as [_ [->|[Hl| ->]]]; done. }
  unfold shiftIf. rewrite Hneeds. apply negb_false_iff.
  by apply (switchable_relabel _ _ _ Hsel Hsw).
Qed.

Lemma Forall_take_filter {A} (P : A → Prop) (f : A → bool) (l : list A) k :
  Forall P l → Forall P (take k (List.filter f l)).
Proof.
  rewrite !Forall_forall. intros H x Hx%subseteq_take.
  apply elem_of_List_filter in Hx as [Hx _]. auto.
Qed.

Lemma Forall_side {A} (f : A → bool) (l : list A) k b :
  Forall (fun x => f x = b) (take k (List.filter (fun x => if b then f x else negb (f x)) l)).
Proof.
  rewrite Forall_forall. intros x Hx%subseteq_take.
  apply elem_of_List_filter in Hx as [_ Hx]. destruct b; [done|]. by apply negb_true_iff.
Qed.

(** The traffic pods of a release once the requests of its pass are
    served. *)
Lemma served_traffic_count ns sel target sent (pods : list Pod) :
  NoDup pods → uniqueNames pods →
  (∀ pod v, pod ∈ pods → (v = Enabled ∨ v = Disabled) →
     patchRequest ns v pod ∈ sent
     ↔ patchRequest ns v pod ∈ stepRequests ns sel target pods) →
  sel !! PodTrafficStatusLabel = Some Enabled → Forall (switchable sel) pods →
  0 <= target <= Z.of_nat (length pods) →
  Z.of_nat (length (trafficPodsOf sel (served ns sent pods))) = target.
Proof.
  intros Hnd Hu Hsent Hsel Hsw Htarget.
  pose proof (traffic_idle_length sel pods) as Hlen.
  unfold stepRequests in Hsent.
  destruct (Z.eqb_spec (Z.of_nat (length (trafficPodsOf sel pods))) target) as [E|E].
  { rewrite served_none; [done|]. intros pod v Hpod Hv Hin%Hsent; [|done..].
    by apply elem_of_nil in Hin. }
  destruct (Z.ltb_spec target (Z.of_nat (length (trafficPodsOf sel pods)))) as [Hlt|Hge].
  - set (excess := Z.to_nat (Z.of_nat (length (trafficPodsOf sel pods)) - target)) in *.
    rewrite (served_members ns sent Enabled Disabled (take excess (trafficPodsOf sel pods)));
      [|by left|].
    2:{ intros pod v Hpod Hv. rewrite (Hsent pod v Hpod Hv).
        rewrite (patchRequest_in_map ns v Disabled pod _ pods Hu Hpod); [|..|done|by right].
        - rewrite elem_of_List_filter. tauto.
        - intros x [Hx%subseteq_take%trafficPodsOf_subseteq _]%elem_of_List_filter. done. }
    unfold trafficPodsOf. rewrite mapFirst_members by done.
    rewrite filter_mapFirst, shifted_out; [| done | |].
    + simpl. rewrite length_drop. fold (trafficPodsOf sel pods). lia.
    + by apply Forall_take_filter.
    + apply (Forall_side (fun pod => getsTraffic pod sel) pods excess true).
  - destruct (Z.ltb_spec (Z.of_nat (length (idlePodsOf sel pods)))
                (target - Z.of_nat (length (trafficPodsOf sel pods)))) as [Hshort|Henough];
      [lia|].
    set (missing := Z.to_nat (target - Z.of_nat (length (trafficPodsOf sel pods)))) in *.
    rewrite (served_members ns sent Disabled Enabled (take missing (idlePodsOf sel pods)));
      [|by right|].
    2:{ intros pod v Hpod Hv. rewrite (Hsent pod v Hpod Hv).
        rewrite (patchRequest_in_map ns v Enabled pod _ pods Hu Hpod); [|..|done|by left].
        - rewrite elem_of_List_filter. tauto.
        - intros x [Hx%subseteq_take%idlePodsOf_subseteq _]%elem_of_List_filter. done. }
    unfold idlePodsOf at 1. rewrite mapFirst_members by done.
    pose proof (traffic_idle_length sel
                  (mapFirst missing (fun pod => negb (getsTraffic pod sel))
                     (shiftIf Disabled Enabled) pods)) as Hlen'.
    unfold idlePodsOf at 1 in Hlen'. rewrite filter_mapFirst, shifted_in in Hlen';
      [| done | |].
    + simpl in Hlen'. rewrite mapFirst_length, length_drop in Hlen'.
      fold (idlePodsOf sel pods) in Hlen'. lia.
    + by apply Forall_take_filter.
    + apply (Forall_side (fun pod => getsTraffic pod sel) pods missing false).
Qed.


(** *** A release of weight zero *)

Lemma targetPercent_zero_weight (totalWeight : Z) :
  0 <= totalWeight < 2 ^ 53 → targetPercent 0 totalWeight = zero.
Proof.
  intros H. unfold targetPercent. destruct totalWeight as [|q|q]; [done| |lia].
  change (Z.pos q =? 0) with false. cbv iota.
  destruct (of_int_exact q ltac:(lia)) as [-> _]. reflexivity.
Qed.

Lemma stepRequests_zero ns sel pods :
  stepRequests ns sel 0 pods = drainRequests ns sel pods.
Proof.
  unfold stepRequests, drainRequests.
  destruct (Z.eqb_spec (Z.of_nat (length (trafficPodsOf sel pods))) 0) as [E|E].
  - by destruct (trafficPodsOf sel pods).
  - rewrite (proj2 (Z.ltb_lt _ _)) by lia. by rewrite Z.sub_0_r, take_all by lia.
Qed.

(** X10.  A release of weight 0 has the pod target 0 whatever the total weight,
    and its pass takes all its traffic pods out: the requests of the pass
    are the patches to [Disabled] of the traffic pods whose label is absent
    or [Enabled]. *)
Theorem zero_weight_drained p cluster clientset sel totalPods totalWeight release
    (pods : list Pod) st :
  Z.of_nat (length pods) < 2 ^ 53 → 0 <= totalPods < 2 ^ 53 →
  0 <= totalWeight < 2 ^ 32 →
  calculateReleasePodTarget (Z.of_nat (length pods)) 0 totalPods totalWeight = 0
  ∧ ∃ st',
      syncReleasePods p cluster clientset sel totalPods totalWeight release 0 pods st
      = Next st'
      ∧ calls st' = calls st ++ drainRequests (namespace p) sel pods.
Proof.
  intros Hn Ht Hw.
  assert (Htarget : calculateReleasePodTarget (Z.of_nat (length pods)) 0
                      totalPods totalWeight = 0).
  { unfold calculateReleasePodTarget. rewrite targetPercent_zero_weight by lia.
    rewrite wrap64_small, desired_zero by done. apply clamp_zero. lia. }
  split; [done|].
  pose proof (syncReleasePods_effect p cluster clientset sel totalPods totalWeight
                release 0 pods st) as Hstep.
  destruct (syncReleasePods _ _ _ _ _ _ _ _ _ _) as [st'|sent]; simpl in Hstep.
  - exists st'. split; [done|]. destruct Hstep as (_ & -> & _).
    by rewrite Htarget, stepRequests_zero.
  - lia.
Qed.

(** The percentage is computed in binary64: 7 of 100 is a little more than
    7 percent there, and the ceiling makes it 8 pods of 100, where 57 of
    100 gives 57. *)
Example pod_target_rounding :
  calculateReleasePodTarget 100 7 100 100 = 8
  ∧ calculateReleasePodTarget 100 57 100 100 = 57.
Proof. vm_compute. split; reflexivity. Qed.

Lemma zero_weight_drained_witness :
  calculateReleasePodTarget (Z.of_nat (length shrinkPods)) 0 10 100 = 0
  ∧ ∃ st',
      syncReleasePods (sampleShifter {[ "R" := 0; "R2" := 100 ]}) "c1" sampleClientset
        sampleSelector 10 100 "R" 0 shrinkPods
        {| achievedWeights := ∅; errors := []; calls := [] |}
      = Next st'
      ∧ calls st' = [] ++ drainRequests "default" sampleSelector shrinkPods.
Proof.
  apply (zero_weight_drained (sampleShifter {[ "R" := 0; "R2" := 100 ]}) "c1"
           sampleClientset sampleSelector 10 100 "R" shrinkPods
           {| achievedWeights := ∅; errors := []; calls := [] |}).
  - simpl. lia.
  - lia.
  - lia.
Defined.

(** *** Sample runs *)

Lemma sample_ready weights pods :
  ready (sampleShifter weights) "c1" sampleClientset (cacheInformer pods) weights
    sampleSelector
    (List.filter (fun pod => getsTraffic pod {[ AppLabel := "web"%string ]}) pods).
Proof.
  split; [reflexivity|]. split; [|reflexivity]. exists sampleService. split; reflexivity.
Qed.

Lemma SyncCluster_listing_failure_witness :
  SyncCluster (sampleShifter {[ "R" := 50; "R2" := 50 ]}) "c1" sampleClientset
    (brokenInformer "R" unevenPods) map_to_list
  = (Failed (TargetClusterReleasePodListingError "R" "c1" "default" "timeout"),
     loopRequests (brokenInformer "R" unevenPods) "default" sampleSelector
       (Z.of_nat (length (List.filter
                            (fun pod => getsTraffic pod {[ AppLabel := "web"%string ]})
                            unevenPods)))
       (sumWeights (map_to_list {[ "R" := 50; "R2" := 50 ]}))
       [("R2"%string, 50)]).
Proof.
  apply (SyncCluster_listing_failure (sampleShifter {[ "R" := 50; "R2" := 50 ]}) "c1"
           sampleClientset (brokenInformer "R" unevenPods) map_to_list
           {[ "R" := 50; "R2" := 50 ]} sampleSelector
           (List.filter (fun pod => getsTraffic pod {[ AppLabel := "web"%string ]}) unevenPods)
           [("R2"%string, 50)] "R" 50 []).
  - split; [reflexivity|]. split; [|reflexivity]. exists sampleService. split; reflexivity.
  - vm_compute. reflexivity.
  - constructor; [|constructor]. eexists. split; [vm_compute; reflexivity|]. vm_compute.
    discriminate.
  - reflexivity.
Defined.


Lemma SyncCluster_tolerates_failures_witness :
  (SyncCluster (sampleShifter {[ "R" := 50; "R2" := 50 ]}) "c1" sampleClientset
     (cacheInformer unevenPods) map_to_list).2
  = (SyncCluster (sampleShifter {[ "R" := 50; "R2" := 50 ]}) "c1" (flakyClientset "r-2")
       (cacheInformer unevenPods) map_to_list).2
  ∧ sameEnding
      (SyncCluster (sampleShifter {[ "R" := 50; "R2" := 50 ]}) "c1" sampleClientset
         (cacheInformer unevenPods) map_to_list).1
      (SyncCluster (sampleShifter {[ "R" := 50; "R2" := 50 ]}) "c1" (flakyClientset "r-2")
         (cacheInformer unevenPods) map_to_list).1.
Proof.
  apply (SyncCluster_tolerates_failures (sampleShifter {[ "R" := 50; "R2" := 50 ]}) "c1"
           sampleClientset (flakyClientset "r-2") (cacheInformer unevenPods) map_to_list).
  reflexivity.
Defined.

Lemma SyncCluster_errors_witness :
  List.filter (fun e => negb (isMathError e))
    [TargetClusterTrafficModifyingLabelError "c1" "default" "r-2" "conflict"]
  = patchFailures (flakyClientset "r-2") "c1" []
      (map (fun pod => patchRequest "default" pod.1 pod.2)
         [ (Disabled, samplePod "s-0" "R2" Enabled);
           (Enabled, samplePod "r-1" "R" Disabled);
           (Enabled, samplePod "r-2" "R" Disabled);
           (Enabled, samplePod "r-3" "R" Disabled) ]).
Proof.
  refine (proj1 (SyncCluster_errors (sampleShifter {[ "R" := 50; "R2" := 50 ]}) "c1"
                   (flakyClientset "r-2") (cacheInformer unevenPods) map_to_list
                   {[ "R" := 30; "R2" := 50 ]} _ _ _)).
  vm_compute. reflexivity.
Defined.

Lemma SyncCluster_reports_releases_witness :
  is_Some (({[ "R" := 50; "R2" := 50 ]} : gmap string Z) !! "R"%string).
Proof.
  refine (proj1 (SyncCluster_reports_releases (sampleShifter {[ "R" := 50; "R2" := 50 ]})
                   "c1" sampleClientset (cacheInformer unevenPods) map_to_list
                   {[ "R" := 50; "R2" := 50 ]} sampleSelector _
                   {[ "R" := 40; "R2" := 50 ]} [] _ _ (sample_ready _ _) _) "R"%string _).
  - reflexivity.
  - vm_compute. reflexivity.
  - exists 40. reflexivity.
Defined.

Lemma SyncCluster_range_order_witness :
  ∃ errs' sent',
    SyncCluster (sampleShifter {[ "R" := 50; "R2" := 50 ]}) "c1" (flakyClientset "r-2")
      (cacheInformer unevenPods) (fun rw => rev (map_to_list rw))
    = (Returned {[ "R" := 30; "R2" := 50 ]} errs', sent')
    ∧ [TargetClusterTrafficModifyingLabelError "c1" "default" "r-2" "conflict"] ≡ₚ errs'
    ∧ map (fun pod => patchRequest "default" pod.1 pod.2)
        [ (Disabled, samplePod "s-0" "R2" Enabled);
          (Enabled, samplePod "r-1" "R" Disabled);
          (Enabled, samplePod "r-2" "R" Disabled);
          (Enabled, samplePod "r-3" "R" Disabled) ] ≡ₚ sent'.
Proof.
  apply (SyncCluster_range_order (sampleShifter {[ "R" := 50; "R2" := 50 ]}) "c1"
           (flakyClientset "r-2") (cacheInformer unevenPods) map_to_list
           (fun rw => rev (map_to_list rw))).
  - intros rw. reflexivity.
  - intros rw. symmetry. apply Permutation_rev.
  - intros s c. reflexivity.
  - vm_compute. reflexivity.
Defined.

Lemma samplePod_switchable name release status :
  status = Enabled ∨ status = Disabled →
  switchable sampleSelector (samplePod name release status).
Proof.
  intros Hs. split.
  - intros key value Hkey Hne. unfold sampleSelector in Hkey.
    apply lookup_insert_Some in Hkey as [[<- <-]|[_ Hkey]]; [done|].
    apply lookup_singleton_Some in Hkey as [<- <-]. done.
  - right. destruct Hs as [-> | ->]; [left|right]; reflexivity.
Qed.


(** *** The total weight *)

(** X24.  The total weight is the sum of the weights modulo [2^32], in whatever
    order [range] visits them; it is a [uint32], and it is 0 when the
    weights sum to a multiple of [2^32]. *)
Theorem sumWeights_wraps (releases : list (string * Z)) :
  sumWeights releases = GoInt.wrap32 (totalOf releases)
  ∧ 0 <= sumWeights releases < 2 ^ 32
  ∧ (∀ releases', releases ≡ₚ releases' → sumWeights releases' = sumWeights releases)
  ∧ (∀ k, totalOf releases = k * 2 ^ 32 → sumWeights releases = 0).
Proof.
  split; [apply sumWeights_total|]. split; [|split].
  - rewrite sumWeights_total. unfold GoInt.wrap32. apply Z.mod_pos_bound. lia.
  - intros releases' Hperm. symmetry. by apply sumWeights_Permutation.
  - intros k Hk. rewrite sumWeights_total, Hk. unfold GoInt.wrap32. apply Z.mod_mul. lia.
Qed.

(** *** Panics *)

Lemma syncReleases_panicked p cluster clientset informer sel totalPods totalWeight
    releases st sent :
  syncReleases p cluster clientset informer sel totalPods totalWeight releases st
  = (Panicked, sent) →
  ∃ before release weight after releasePods,
    releases = before ++ (release, weight) :: after
    ∧ PodsList informer (namespace p) {[ ReleaseLabel := release ]} = inr releasePods
    ∧ calculateReleasePodTarget (Z.of_nat (length releasePods)) weight
        totalPods totalWeight < 0
    ∧ sent = calls st
             ++ loopRequests informer (namespace p) sel totalPods totalWeight before
             ++ drainRequests (namespace p) sel releasePods.
Proof.
  revert st. induction releases as [|[release weight] rest IH]; intros st; simpl; [done|].
  destruct (PodsList informer _ _) as [err|pods] eqn:Hl; [done|].
  pose proof (syncReleasePods_effect p cluster clientset sel totalPods totalWeight
                release weight pods st) as Hstep.
  destruct (syncReleasePods _ _ _ _ _ _ _ _ _ _) as [st'|s]; simpl in Hstep.
  - destruct Hstep as (_ & Hcalls & _).
    intros (before & r & w & after & ps & -> & Hps & Hneg & ->)%IH.
    exists ((release, weight) :: before), r, w, after, ps.
    split; [done|]. split; [done|]. split; [done|].
    simpl. rewrite Hl, Hcalls, <- !app_assoc. done.
  - intros [= <-]. destruct Hstep as [Hneg ->].
    exists [], release, weight, rest, pods. simpl. done.
Qed.


(** *** No pod is patched twice *)

Lemma stepRequests_names ns sel target pods :
  map CallPod (stepRequests ns sel target pods) `sublist_of` map PodName pods.
Proof.
  assert (H : ∀ v (f side : Pod → bool) k,
             map CallPod (map (patchRequest ns v)
                            (List.filter f (take k (List.filter side pods))))
             `sublist_of` map PodName pods).
  { intros v f side k. rewrite map_map. simpl.
    apply (fmap_sublist PodName). etrans; [apply FilterFacts.filter_sublist|].
    etrans; [apply sublist_take|]. apply FilterFacts.filter_sublist. }
  unfold stepRequests.
  destruct (_ =? _); [apply sublist_nil_l|].
  destruct (_ <? _); [apply H|].
  destruct (_ <? _); [apply sublist_nil_l|apply H].
Qed.

Lemma runRequests_NoDup ns sel totalPods totalWeight pods releases :
  NoDup (map PodName pods) → NoDup releases.*1 →
  NoDup (map CallPod (runRequests ns sel totalPods totalWeight pods releases)).
Proof.
  intros Hnames. induction releases as [|[release weight] rest IH]; simpl; [constructor|].
  rewrite NoDup_cons. intros [Hfresh Hnd]. rewrite map_app. apply NoDup_app.
  assert (Hsub : ∀ r, map PodName (releasePodsOf r pods) `sublist_of` map PodName pods).
  { intros r. apply (fmap_sublist PodName). apply FilterFacts.filter_sublist. }
  split; [|split; [|by apply IH]].
  - eapply sublist_NoDup; [|apply stepRequests_names].
    eapply sublist_NoDup; [exact Hnames|apply Hsub].
  - intros name Hhere Hthere.
    pose proof (elem_of_sublist _ _ _ Hhere (stepRequests_names _ _ _ _)) as Hpod.
    clear Hhere. rename Hpod into Hhere.
    apply list_elem_of_fmap in Hhere as (x & -> & Hx).
    apply list_elem_of_fmap in Hthere as (call & Hname & Hcall).
    unfold runRequests in Hcall.
    apply list_elem_of_In, in_flat_map in Hcall as ([r w] & Hin & Hcall).
    apply list_elem_of_In, stepRequests_from in Hcall as (y & v & Hy & _ & ->).
    simpl in Hname, Hy.
    apply releasePodsOf_elem in Hx as [Hx Hrx], Hy as [Hy Hry].
    assert (x = y) as -> by (by apply (NoDup_uniqueNames pods)).
    assert (r = release) as -> by congruence.
    apply Hfresh. apply list_elem_of_fmap. exists (release, w).
    split; [done|]. by apply list_elem_of_In.
Qed.

(** X26.  Over a cache of pods with distinct names, a run that returns sends at
    most one request for a pod: no two of its requests name the same
    pod. *)
Theorem SyncCluster_patches_once p cluster clientset mapRange pods weights errs sent :
  (∀ rw, mapRange rw ≡ₚ map_to_list rw) →
  NoDup (map PodName pods) →
  SyncCluster p cluster clientset (cacheInformer pods) mapRange
  = (Returned weights errs, sent) →
  NoDup (map CallPod sent) ∧ NoDup sent.
Proof.
  intros Hperm Hnames Hrun.
  destruct (SyncCluster_cases p cluster clientset (cacheInformer pods) mapRange)
    as [(rw & sel & appPods & Hready)|[err Herr]]; [|congruence].
  rewrite (SyncCluster_ready _ _ _ _ _ _ _ _ Hready) in Hrun.
  apply syncReleases_calls in Hrun as [-> _]. simpl.
  assert (Hnd : NoDup (map CallPod
                         (runRequests (namespace p) sel (Z.of_nat (length appPods))
                            (sumWeights (mapRange rw)) pods (mapRange rw)))).
  { apply runRequests_NoDup; [done|]. rewrite Hperm. apply NoDup_fst_map_to_list. }
  split; [done|]. by apply (NoDup_fmap_1 CallPod).
Qed.


Lemma SyncCluster_patches_once_witness :
  NoDup (map CallPod
           (map (fun pod => patchRequest "default" pod.1 pod.2)
              [ (Disabled, samplePod "s-0" "R2" Enabled);
                (Enabled, samplePod "r-1" "R" Disabled);
                (Enabled, samplePod "r-2" "R" Disabled);
                (Enabled, samplePod "r-3" "R" Disabled) ]))
  ∧ NoDup (map (fun pod => patchRequest "default" pod.1 pod.2)
             [ (Disabled, samplePod "s-0" "R2" Enabled);
               (Enabled, samplePod "r-1" "R" Disabled);
               (Enabled, samplePod "r-2" "R" Disabled);
               (Enabled, samplePod "r-3" "R" Disabled) ]).
Proof.
  refine (SyncCluster_patches_once (sampleShifter {[ "R" := 50; "R2" := 50 ]}) "c1"
            sampleClientset map_to_list unevenPods {[ "R" := 40; "R2" := 50 ]} [] _ _ _ _).
  - intros rw. reflexivity.
  - apply (bool_decide_unpack _). vm_compute. exact I.
  - vm_compute. reflexivity.
Defined.

End ShifterFacts.

(** ** The clusters and the construction of a shifter *)

Module ClusterFacts.

Import F64 Traffic ReleaseFacts BuildFacts.

(** *** Sorting strings *)

Lemma atMost_trans a b c : atMost a b → atMost b c → atMost a c.
Proof.
  unfold atMost. intros Hab Hbc.
  destruct (String.ltb c a) eqn:Hca; [|done].
  destruct (String.ltb a b) eqn:E1.
  - by rewrite (ltb_trans _ _ _ Hca E1) in Hbc.
  - rewrite (ltb_total _ _ E1 Hab) in Hca. by rewrite Hca in Hbc.
Qed.

Lemma insertString_perm x l : insertString x l ≡ₚ x :: l.
Proof.
  induction l as [|y l IH]; simpl; [done|].
  destruct (String.ltb x y); [done|]. rewrite IH. apply perm_swap.
Qed.

Lemma insertString_sorted x l :
  StronglySorted atMost l → StronglySorted atMost (insertString x l).
Proof.
  induction 1 as [|y l Hl IH Hy]; simpl.
  - repeat constructor.
  - destruct (String.ltb x y) eqn:E.
    + constructor; [by constructor|]. constructor; [by apply ltb_asym|].
      eapply Forall_impl; [exact Hy|]. intros z Hz.
      apply atMost_trans with y; [by apply ltb_asym|done].
    + constructor; [done|]. rewrite insertString_perm. by constructor.
Qed.

Lemma sortStrings_perm l : sortStrings l ≡ₚ l.
Proof.
  unfold sortStrings. rewrite <- (app_nil_l l) at 2. generalize (@nil string).
  induction l as [|x l IH]; intros acc; simpl; [by rewrite app_nil_r|].
  rewrite IH, insertString_perm. simpl. apply Permutation_middle.
Qed.

Lemma sortStrings_sorted l : StronglySorted atMost (sortStrings l).
Proof.
  unfold sortStrings. assert (H : StronglySorted atMost []) by constructor.
  revert H. generalize (@nil string).
  induction l as [|x l IH]; intros acc Hacc; simpl; [done|].
  by apply IH, insertString_sorted.
Qed.

Lemma atMost_NoDup_ascending l : StronglySorted atMost l → NoDup l → ascending l.
Proof.
  induction 1 as [|x l Hl IH Hx]; [constructor|].
  rewrite NoDup_cons. intros [Hx' Hl']. constructor; [by apply IH|].
  rewrite Forall_forall in Hx |- *. intros y Hy.
  destruct (String.ltb x y) eqn:E; [done|].
  destruct Hx'. by rewrite (ltb_total _ _ E (Hx y Hy)).
Qed.

Lemma ascending_NoDup l : ascending l → NoDup l.
Proof.
  induction 1 as [|x l Hl IH Hx]; [constructor|].
  apply NoDup_cons. split; [|done]. intros Hin.
  rewrite Forall_forall in Hx. specialize (Hx x Hin). by rewrite ltb_irrefl in Hx.
Qed.

Lemma sortStrings_unique l l' : l ≡ₚ l' → sortStrings l = sortStrings l'.
Proof.
  intros Hperm. apply (StronglySorted_unique_strong atMost).
  - intros x y _ _ Hxy Hyx. by apply ltb_total.
  - apply sortStrings_sorted.
  - apply sortStrings_sorted.
  - by rewrite !sortStrings_perm.
Qed.

(** *** The clusters of a shifter *)

Lemma range_keys {A} (entries : list (string * A)) (acc : list string) :
  fold_left (fun clusters entry => clusters ++ [entry.1]) entries acc
  = acc ++ entries.*1.
Proof.
  revert acc. induction entries as [|e rest IH]; intros acc; simpl.
  - by rewrite app_nil_r.
  - by rewrite IH, <- app_assoc.
Qed.

Lemma Clusters_keys clusterRange p :
  Clusters clusterRange p = sortStrings (clusterRange (clusterReleaseWeights p)).*1.
Proof. unfold Clusters. by rewrite range_keys. Qed.

Lemma Clusters_elem clusterRange p cluster :
  (∀ table, clusterRange table ≡ₚ map_to_list table) →
  cluster ∈ Clusters clusterRange p ↔ is_Some (clusterReleaseWeights p !! cluster).
Proof.
  intros Hperm. rewrite Clusters_keys, sortStrings_perm, Hperm, list_elem_of_fmap. split.
  - intros ([c w] & -> & Hcw%elem_of_map_to_list). simpl. eauto.
  - intros [w Hw]. exists (cluster, w). split; [done|]. by apply elem_of_map_to_list.
Qed.

(** X11.  [Clusters] returns the clusters that have weights in the shifter, each
    once, in ascending order, whatever the order in which [range] visits
    the table; a run for a cluster that is not among them fails for lack of
    weights and sends no request. *)
Theorem Clusters_sorted_keys clusterRange (p : podLabelShifter) :
  (∀ table, clusterRange table ≡ₚ map_to_list table) →
  ascending (Clusters clusterRange p)
  ∧ (∀ cluster,
        cluster ∈ Clusters clusterRange p ↔ is_Some (clusterReleaseWeights p !! cluster))
  ∧ (∀ clusterRange',
        (∀ table, clusterRange' table ≡ₚ map_to_list table) →
        Clusters clusterRange' p = Clusters clusterRange p)
  ∧ (∀ cluster clientset informer mapRange,
        cluster ∉ Clusters clusterRange p →
        SyncCluster p cluster clientset informer mapRange
        = (Failed (NoWeightsForCluster cluster), [])).
Proof.
  intros Hperm. split; [|split; [intros; by apply Clusters_elem|split]].
  - rewrite Clusters_keys. apply atMost_NoDup_ascending; [apply sortStrings_sorted|].
    rewrite sortStrings_perm, Hperm. apply NoDup_fst_map_to_list.
  - intros clusterRange' Hperm'. rewrite !Clusters_keys. apply sortStrings_unique.
    by rewrite Hperm, Hperm'.
  - intros cluster clientset informer mapRange Hnot. unfold SyncCluster.
    destruct (clusterReleaseWeights p !! cluster) as [rw|] eqn:E; [|done].
    destruct Hnot. apply Clusters_elem; [done|]. eauto.
Qed.

Lemma Clusters_sorted_keys_witness :
  ascending (Clusters map_to_list
               {| appName := "web"; namespace := "default";
                  serviceSelector := "app=web,lb=production";
                  clusterReleaseWeights :=
                    {[ "eu-west" := {[ "R" := 50 ]}; "ap-south" := {[ "R" := 50 ]};
                       "us-east" := {[ "R" := 100 ]} ]} |}).
Proof.
  refine (proj1 (Clusters_sorted_keys map_to_list _ _)). intros table. reflexivity.
Defined.

Example Clusters_scenario :
  Clusters map_to_list
    {| appName := "web"; namespace := "default";
       serviceSelector := "app=web,lb=production";
       clusterReleaseWeights :=
         {[ "eu-west" := {[ "R" := 50 ]}; "ap-south" := {[ "R" := 50 ]};
            "us-east" := {[ "R" := 100 ]} ]} |}
  = ["ap-south"; "eu-west"; "us-east"].
Proof. vm_compute. reflexivity. Qed.

(** *** Building a shifter *)

Local Open Scope string_scope.


(** *** The error of the first offending traffic target *)

Lemma recorded_other l rtt r :
  (∀ t, t ∈ l → releaseOf t ≠ Some r) → recordedTargets l rtt !! r = rtt !! r.
Proof.
  revert rtt. induction l as [|t l IH]; intros rtt Hno; simpl; [done|].
  unfold recordedTargets in *. simpl. rewrite IH by (intros t' Ht'; apply Hno; by right).
  destruct (releaseOf t) as [r0|] eqn:E; [|done].
  rewrite lookup_insert_ne; [done|]. intros ->. by apply (Hno t); [left|].
Qed.

Lemma buildLoop_app before rest cr rtt table :
  buildLoop before cr rtt = inr table →
  buildLoop (before ++ rest) cr rtt = buildLoop rest table (recordedTargets before rtt).
Proof.
  revert cr rtt. induction before as [|t l IH]; intros cr rtt; simpl.
  - by intros [= ->].
  - destruct (releaseOf t) as [r|]; [|done].
    destruct (rtt !! r); [done|]. apply IH.
Qed.

Lemma recorded_lookup before cr rtt table earlier r :
  buildLoop before cr rtt = inr table →
  earlier ∈ before → releaseOf earlier = Some r →
  recordedTargets before rtt !! r = Some earlier.
Proof.
  revert cr rtt. induction before as [|t l IH]; intros cr rtt Hok Hin Hr;
    [by apply elem_of_nil in Hin|].
  pose proof (proj1 (buildLoop_ok_iff _ _ _) (ex_intro _ _ Hok)) as [Hlab Hnd].
  simpl in Hok, Hnd. apply NoDup_cons in Hnd as [Hfresh Hnd].
  unfold recordedTargets. simpl. fold (recordedTargets l).
  destruct (releaseOf t) as [r0|] eqn:Er; [|done].
  destruct (rtt !! r0) eqn:Ertt; [done|].
  apply elem_of_cons in Hin as [->|Hin].
  - assert (r0 = r) as -> by congruence.
    rewrite recorded_other; [by rewrite lookup_insert_eq|].
    intros t' Ht' E. apply Hfresh. apply list_elem_of_fmap. eauto.
  - by apply (IH _ _ Hok).
Qed.

(** X13.  The error is that of the first traffic target that cannot be added.
    After traffic targets that build a table, a traffic target without
    release label gives the missing-label error with its namespace and
    name; a traffic target whose release label one of the earlier targets
    carries gives the duplicate error with the name of that earlier target,
    its own name and namespace, and the release; whatever follows. *)
Theorem buildClusterReleaseWeights_first_error
    (before after : list TrafficTarget) (target : TrafficTarget) table :
  buildClusterReleaseWeights before = inr table →
  (releaseOf target = None →
   buildClusterReleaseWeights (before ++ target :: after)
   = inl (MissingReleaseLabel (TTNamespace target) (TTName target)))
  ∧ (∀ release earlier,
        releaseOf target = Some release →
        earlier ∈ before → releaseOf earlier = Some release →
        buildClusterReleaseWeights (before ++ target :: after)
        = inl (DuplicateRelease (TTName earlier) (TTName target) (TTNamespace target)
                 release)).
Proof.
  intros Hok. unfold buildClusterReleaseWeights in *.
  rewrite (buildLoop_app _ _ _ _ _ Hok). simpl. split.
  - by intros ->.
  - intros release earlier -> Hin Hr. by rewrite (recorded_lookup _ _ _ _ _ _ Hok Hin Hr).
Qed.

Lemma buildClusterReleaseWeights_first_error_witness :
  buildClusterReleaseWeights
    ([sampleTarget1; sampleTarget2]
       ++ {| TTNamespace := "staging"; TTName := "tt-again";
             TTLabels := {[ ReleaseLabel := "reviewsapi-1" ]}; TTClusters := [] |}
       :: [ {| TTNamespace := "default"; TTName := "tt-unlabelled";
               TTLabels := ∅; TTClusters := [] |} ])
  = inl (DuplicateRelease "tt-reviewsapi-1" "tt-again" "staging" "reviewsapi-1").
Proof.
  refine (proj2 (buildClusterReleaseWeights_first_error [sampleTarget1; sampleTarget2] _
                   {| TTNamespace := "staging"; TTName := "tt-again";
                      TTLabels := {[ ReleaseLabel := "reviewsapi-1" ]}; TTClusters := [] |}
                   _ _) "reviewsapi-1" sampleTarget1 _ _ _).
  - vm_compute. reflexivity.
  - reflexivity.
  - left.
  - reflexivity.
Defined.

End ClusterFacts.
